(** * Slide pagination of [src/services/powerpoint.ts]

    A shallow embedding of the word-count packer of [PowerPointService]:
    [splitIntoSentences], [splitSongIntoSections], [countWords],
    [optimizeContentForWordCount], [optimizeSongForWordCount],
    [mergeSmallChunks] and [generateOptimizedVerseTitle], together with the
    string primitives of ECMAScript they call ([trim], [split], [startsWith],
    [includes], [toLowerCase], [match]).

    Line numbers refer to [src/services/powerpoint.ts].

    A JavaScript string is a sequence of UTF-16 code units; it is modelled as
    a list of code units, each a number of type [N].  Word counts and indices
    are natural numbers. *)

From Stdlib Require Import Ascii String.
From Stdlib Require Decimal DecimalNat.
From Stdlib Require Import List NArith ZArith Arith Bool Lia Permutation Sorted.
Import Corelib.Init.Datatypes.
Import ListNotations.

(** ** Strings *)

Definition char := N.
Definition jsstring := list char.

(** An ASCII literal of the source as a list of code units. *)
Definition lit (s : String.string) : jsstring :=
  map N_of_ascii (String.list_ascii_of_string s).

Definition SPACE : char := 32%N.
Definition NEWLINE : char := 10%N.

(** The class [\s] of ECMAScript regular expressions, which is also the set of
    code units removed by [String.prototype.trim]: WhiteSpace and
    LineTerminator. *)
Definition isSpace (c : char) : bool :=
  ((9 <=? c) && (c <=? 13) || (c =? 32) || (c =? 160) || (c =? 5760)
   || (8192 <=? c) && (c <=? 8202) || (c =? 8232) || (c =? 8233)
   || (c =? 8239) || (c =? 8287) || (c =? 12288) || (c =? 65279))%N.

(** The class [\d]. *)
Definition isDigit (c : char) : bool := ((48 <=? c) && (c <=? 57))%N.

(** The class [[.!?]] of sentence terminators. *)
Definition isTerminal (c : char) : bool :=
  ((c =? 46) || (c =? 33) || (c =? 63))%N.

(** A non-empty string is truthy, the empty string is falsy. *)
Definition truthy (s : jsstring) : bool :=
  match s with [] => false | _ :: _ => true end.

(** [String.prototype.trim]. *)
Fixpoint trimStart (s : jsstring) : jsstring :=
  match s with
  | [] => []
  | c :: s' => if isSpace c then trimStart s' else s
  end.

Definition trimEnd (s : jsstring) : jsstring := rev (trimStart (rev s)).

Definition trim (s : jsstring) : jsstring := trimEnd (trimStart s).

(** [Array.prototype.join] on an array of strings. *)
Fixpoint join (sep : jsstring) (l : list jsstring) : jsstring :=
  match l with
  | [] => []
  | [x] => x
  | x :: rest => x ++ sep ++ join sep rest
  end.

(** [String.prototype.startsWith]. *)
Fixpoint startsWith (s pat : jsstring) : bool :=
  match pat, s with
  | [], _ => true
  | _ :: _, [] => false
  | p :: pat', c :: s' => (c =? p)%N && startsWith s' pat'
  end.

(** [String.prototype.includes]. *)
Fixpoint includes (s pat : jsstring) : bool :=
  startsWith s pat ||
  match s with
  | [] => false
  | _ :: s' => includes s' pat
  end.

(** [String.prototype.toLowerCase] on the Basic Latin and Latin-1 Supplement
    blocks, and on the three code units outside them whose lower case falls
    inside them or is longer than one unit starting there (U+0130, U+212A,
    U+212B).  Other code units are mapped to themselves: none of them has a
    lower case that contains a Basic Latin letter. *)
Definition lowerChar (c : char) : jsstring :=
  if ((65 <=? c) && (c <=? 90))%N then [(c + 32)%N]
  else if ((192 <=? c) && (c <=? 222) && negb (c =? 215))%N then [(c + 32)%N]
  else if (c =? 304)%N then [105%N; 775%N]
  else if (c =? 8490)%N then [107%N]
  else if (c =? 8491)%N then [229%N]
  else [c].

Definition toLowerCase (s : jsstring) : jsstring := flat_map lowerChar s.

(** Length of the longest prefix made of characters of a class. *)
Fixpoint spanLen (p : char -> bool) (s : jsstring) : nat :=
  match s with
  | [] => 0
  | c :: s' => if p c then S (spanLen p s') else 0
  end.

(** ** [String.prototype.split] with a regular expression

    The loop of [RegExp.prototype[Symbol.split]]: [q] walks the string; at
    each [q] the separator is matched at exactly that position.  On a match of
    positive length the piece read so far is pushed and the walk resumes at
    the end of the match; otherwise [q] advances by one unit.  After the last
    position the remaining piece is pushed.

    A separator is given as a matcher: from the code unit before [q] (for
    look-behind) and the text from [q] on, the length of the match at [q].
    The separators of this program never match the empty string.

    [skip] counts the units of the current match still to be passed over, so
    that the loop is structural in the text. *)
Section Split.

Variable matcher : option char -> jsstring -> option nat.

Fixpoint split_loop (prev : option char) (cur : jsstring) (skip : nat)
         (s : jsstring) : list jsstring :=
  match s with
  | [] => [rev cur]
  | c :: s' =>
      match skip with
      | S k => split_loop (Some c) cur k s'
      | 0 =>
          match matcher prev s with
          | Some (S k) => rev cur :: split_loop (Some c) [] k s'
          | _ => split_loop (Some c) (c :: cur) 0 s'
          end
      end
  end.

Definition split (s : jsstring) : list jsstring := split_loop None [] 0 s.

End Split.

(** [/\s+/]: a maximal run of white space. *)
Definition re_spaces (_ : option char) (s : jsstring) : option nat :=
  match spanLen isSpace s with
  | 0 => None
  | n => Some n
  end.

(** [/(?<=[.!?])\s+/]: a maximal run of white space that directly follows a
    sentence terminator. *)
Definition re_sentence_end (prev : option char) (s : jsstring) : option nat :=
  match prev with
  | Some p => if isTerminal p then re_spaces prev s else None
  | None => None
  end.

(** Position just after the last line feed of [s] within its first [n]
    units, if there is one. *)
Fixpoint lastNewline (n : nat) (s : jsstring) : option nat :=
  match n, s with
  | S n', c :: s' =>
      match lastNewline n' s' with
      | Some k => Some (S k)
      | None => if (c =? NEWLINE)%N then Some 1 else None
      end
  | _, _ => None
  end.

(** [/\n\s*\n/]: a line feed, then white space, then a line feed.  The star is
    greedy, so the match ends at the last line feed of the white space run
    that follows the first one. *)
Definition re_blank_line (_ : option char) (s : jsstring) : option nat :=
  match s with
  | c :: s' =>
      if (c =? NEWLINE)%N then
        match lastNewline (spanLen isSpace s') s' with
        | Some k => Some (S k)
        | None => None
        end
      else None
  | [] => None
  end.

(** The string separator ['\n'] of [section.content.split('\n')]. *)
Definition sep_newline (_ : option char) (s : jsstring) : option nat :=
  match s with
  | c :: _ => if (c =? NEWLINE)%N then Some 1 else None
  | [] => None
  end.

(** ** The packer's helpers *)

Definition MIN_WORDS_PER_SLIDE : nat := 80.
Definition MAX_WORDS_PER_SLIDE : nat := 90.

(** [countWords] (lines 488-490):
    [text.trim().split(/\s+/).filter(word => word.length > 0).length] *)
Definition countWords (text : jsstring) : nat :=
  length (filter (fun word => 0 <? length word) (split re_spaces (trim text))).

(** [splitIntoSentences] (lines 456-462):
    [text.split(/(?<=[.!?])\s+/).map(s => s.trim()).filter(s => s.length > 0)] *)
Definition splitIntoSentences (text : jsstring) : list jsstring :=
  filter (fun sentence => 0 <? length sentence)
         (map trim (split re_sentence_end text)).


(** ** Reading mode *)

Record Chunk := mkChunk { content : jsstring; wordCount : nat }.

(** State of the loop of [optimizeContentForWordCount] (lines 354-401). *)
Record PackState := mkPack {
  optimizedChunks : list Chunk;
  currentChunk : jsstring;
  currentWordCount : nat
}.

(** [currentChunk += (currentChunk ? sep : '') + unit] *)
Definition appendUnit (sep current unit : jsstring) : jsstring :=
  current ++ (if truthy current then sep else []) ++ unit.

(** [if (currentChunk.trim()) optimizedChunks.push({content: currentChunk.trim(), wordCount})] *)
Definition pushChunk (chunks : list Chunk) (current : jsstring) (count : nat)
  : list Chunk :=
  if truthy (trim current)
  then chunks ++ [mkChunk (trim current) count]
  else chunks.

(** One iteration of [for (const sentence of sentences)] (lines 361-389).
    When the sentence would pass the maximum and the chunk has content, a
    short sentence is first appended to a chunk that is too small (lines
    368-371); then the chunk is pushed, and in either case the next chunk
    starts as this sentence (lines 382-383). *)
Definition pack_sentence (st : PackState) (sentence : jsstring) : PackState :=
  let sentenceWordCount := countWords sentence in
  let potentialWordCount := currentWordCount st + sentenceWordCount in
  if (MAX_WORDS_PER_SLIDE <? potentialWordCount) && (0 <? currentWordCount st)
  then
    let forced :=
      (currentWordCount st <? MIN_WORDS_PER_SLIDE) && (sentenceWordCount <=? 15) in
    let chunk1 :=
      if forced then appendUnit [SPACE] (currentChunk st) sentence
      else currentChunk st in
    let count1 := if forced then potentialWordCount else currentWordCount st in
    mkPack (pushChunk (optimizedChunks st) chunk1 count1)
           sentence sentenceWordCount
  else
    mkPack (optimizedChunks st)
           (appendUnit [SPACE] (currentChunk st) sentence)
           potentialWordCount.

(** The chunks before the merge pass: the loop, then the last chunk (lines
    392-397). *)
Definition packSentences (sentences : list jsstring) : list Chunk :=
  let st := fold_left pack_sentence sentences (mkPack [] [] 0) in
  pushChunk (optimizedChunks st) (currentChunk st) (currentWordCount st).

(** [mergeSmallChunks] (lines 492-518): the loop
    [for (let i = 0; i < chunks.length; i++)].
    [fuel] bounds the number of iterations; [chunks.length] of them are
    enough (lemma [merge_loop_spec]).  [nth_error chunks i = None] is the
    exit test [i < chunks.length] failing; the second [None] is not reached,
    since then [i < chunks.length - 1]. *)
Fixpoint merge_loop (fuel : nat) (chunks : list Chunk) (i : nat)
         (mergedChunks : list Chunk) : list Chunk :=
  match fuel with
  | 0 => mergedChunks
  | S fuel' =>
      match nth_error chunks i with
      | None => mergedChunks
      | Some cur =>
          if (wordCount cur <? MIN_WORDS_PER_SLIDE) && (i <? length chunks - 1)
          then
            match nth_error chunks (i + 1) with
            | Some next =>
                let combinedWordCount := wordCount cur + wordCount next in
                if combinedWordCount <=? MAX_WORDS_PER_SLIDE
                then merge_loop fuel' chunks (i + 2)
                       (mergedChunks ++
                        [mkChunk (content cur ++ [SPACE] ++ content next)
                                 combinedWordCount])
                else merge_loop fuel' chunks (i + 1) (mergedChunks ++ [cur])
            | None => merge_loop fuel' chunks (i + 1) (mergedChunks ++ [cur])
            end
          else merge_loop fuel' chunks (i + 1) (mergedChunks ++ [cur])
      end
  end.

Definition mergeSmallChunks (chunks : list Chunk) : list Chunk :=
  merge_loop (length chunks) chunks 0 [].

(** [optimizeContentForWordCount]: [return this.mergeSmallChunks(optimizedChunks)]
    (line 400). *)
Definition optimizeContentForWordCount (text : jsstring) : list Chunk :=
  mergeSmallChunks (packSentences (splitIntoSentences text)).

(** ** Song mode *)

Inductive SectionType := verse | refrain | numbered_verse.

Record Section := mkSection { s_content : jsstring; s_type : SectionType }.

Record Verse := mkVerse {
  v_content : jsstring;
  v_wordCount : nat;
  v_type : SectionType
}.

(** The digits at the start of a text that are followed by a full stop:
    the match of [/^\d*\./], without the full stop. *)
Fixpoint digitsThenDot (s : jsstring) : option jsstring :=
  match s with
  | [] => None
  | c :: s' =>
      if isDigit c then
        match digitsThenDot s' with
        | Some digits => Some (c :: digits)
        | None => None
        end
      else if (c =? 46)%N then Some []
      else None
  end.

(** [content.match(/^(\d+)\./)]: the captured digits, or [None] for [null]. *)
Definition matchNumber (s : jsstring) : option jsstring :=
  match digitsThenDot s with
  | Some (d :: digits) => Some (d :: digits)
  | _ => None
  end.

(** The classification inside the loop of [splitSongIntoSections] (lines
    472-477). *)
Definition sectionType (trimmedPart : jsstring) : SectionType :=
  if startsWith trimmedPart (lit "R/")
     || includes (toLowerCase trimmedPart) (lit "refrain")
  then refrain
  else match matchNumber trimmedPart with
       | Some _ => numbered_verse
       | None => verse
       end.

(** One iteration of [for (const part of parts)]. *)
Definition section_step (sections : list Section) (part : jsstring)
  : list Section :=
  let trimmedPart := trim part in
  if length trimmedPart =? 0 then sections
  else sections ++ [mkSection trimmedPart (sectionType trimmedPart)].

(** [splitSongIntoSections] (lines 464-486), on [lyrics.split(/\n\s*\n/)]. *)
Definition splitSongIntoSections (lyrics : jsstring) : list Section :=
  fold_left section_step (split re_blank_line lyrics) [].

(** State of the inner loop of [optimizeSongForWordCount], with the array
    [optimizedVerses] that it pushes to; [currentLineCount] is the variable
    [currentWordCount] of that loop. *)
Record SongState := mkSong {
  optimizedVerses : list Verse;
  currentVerse : jsstring;
  currentLineCount : nat
}.

(** One iteration of [for (const line of lines)] (lines 424-441). *)
Definition pack_line (ty : SectionType) (st : SongState) (line : jsstring)
  : SongState :=
  let lineWordCount := countWords line in
  let potentialWordCount := currentLineCount st + lineWordCount in
  if (MAX_WORDS_PER_SLIDE <? potentialWordCount) && (0 <? currentLineCount st)
  then
    mkSong (optimizedVerses st ++
            [mkVerse (trim (currentVerse st)) (currentLineCount st) ty])
           line lineWordCount
  else
    mkSong (optimizedVerses st)
           (appendUnit [NEWLINE] (currentVerse st) line)
           potentialWordCount.

(** One iteration of [for (const section of sections)] (lines 408-451): a
    section of at most 90 words is pushed as it is; a longer one is divided
    line by line. *)
Definition pack_section (verses : list Verse) (section : Section)
  : list Verse :=
  let wc := countWords (s_content section) in
  if wc <=? MAX_WORDS_PER_SLIDE
  then verses ++ [mkVerse (s_content section) wc (s_type section)]
  else
    let lines := split sep_newline (s_content section) in
    let st := fold_left (pack_line (s_type section)) lines (mkSong verses [] 0) in
    if truthy (trim (currentVerse st))
    then optimizedVerses st ++
         [mkVerse (trim (currentVerse st)) (currentLineCount st)
                  (s_type section)]
    else optimizedVerses st.

(** [optimizeSongForWordCount] (lines 403-454). *)
Definition optimizeSongForWordCount (lyrics : jsstring) : list Verse :=
  fold_left pack_section (splitSongIntoSections lyrics) [].

(** The chunks that one section contributes. *)
Definition sectionVerses (section : Section) : list Verse :=
  pack_section [] section.

(** ** Titles *)

(** A non-negative integer in a template literal: its decimal digits. *)
Fixpoint uintChars (d : Decimal.uint) : jsstring :=
  match d with
  | Decimal.Nil => []
  | Decimal.D0 d' => 48%N :: uintChars d'
  | Decimal.D1 d' => 49%N :: uintChars d'
  | Decimal.D2 d' => 50%N :: uintChars d'
  | Decimal.D3 d' => 51%N :: uintChars d'
  | Decimal.D4 d' => 52%N :: uintChars d'
  | Decimal.D5 d' => 53%N :: uintChars d'
  | Decimal.D6 d' => 54%N :: uintChars d'
  | Decimal.D7 d' => 55%N :: uintChars d'
  | Decimal.D8 d' => 56%N :: uintChars d'
  | Decimal.D9 d' => 57%N :: uintChars d'
  end.

Definition numberToString (n : nat) : jsstring := uintChars (Nat.to_uint n).

(** The value of [baseTitle] at the end of [generateOptimizedVerseTitle]. *)
Definition baseTitle (v : Verse) (songTitle : jsstring) (index : nat)
  : jsstring :=
  match v_type v with
  | refrain => songTitle ++ lit " - Refrain"
  | numbered_verse =>
      songTitle ++ lit " - Couplet " ++
      match matchNumber (v_content v) with
      | Some digits => digits
      | None => numberToString index
      end
  | verse => songTitle ++ lit " - Partie " ++ numberToString index
  end.

(** [generateOptimizedVerseTitle] (lines 520-533). *)
Definition generateOptimizedVerseTitle (v : Verse) (songTitle : jsstring)
           (index total : nat) : jsstring :=
  baseTitle v songTitle index
    ++ lit " (" ++ numberToString index ++ lit "/"
    ++ numberToString total ++ lit ")".

(** The part of a [Song] that the slides of its lyrics depend on. *)
Record Song := mkSongRecord { title : jsstring; lyrics : jsstring }.

(** [Array.prototype.forEach((x, index) => ...)], collecting the results. *)
Fixpoint mapi_from {A B : Type} (f : A -> nat -> B) (index : nat) (l : list A)
  : list B :=
  match l with
  | [] => []
  | x :: rest => f x index :: mapi_from f (S index) rest
  end.

(** The slide titles that [createOptimizedSongSlides] gives to the chunks of
    a song, in order:
    [generateOptimizedVerseTitle(verse, song.title, index + 1, optimizedVerses.length)]. *)
Definition songSlideTitles (song : Song) : list jsstring :=
  let verses := optimizeSongForWordCount (lyrics song) in
  mapi_from
    (fun v index =>
       generateOptimizedVerseTitle v (title song) (index + 1) (length verses))
    0 verses.

(** ** The greedy packer of the specification

    The packer as the design describes it (steps 1 to 5), on units of which
    only the word count matters.  It groups the units into runs, one run per
    chunk.  [overflow] switches the exception of step 3a on or off. *)
Module Spec42.
Section Packer.

Variable U : Type.
Variable unit_word_count : U -> nat.
Variable overflow : bool.

Record Acc := mkAcc { emitted : list (list U); run : list U; run_count : nat }.

Definition step (a : Acc) (u : U) : Acc :=
  let would_be := run_count a + unit_word_count u in
  if (MAX_WORDS_PER_SLIDE <? would_be) && (0 <? run_count a)
  then
    if overflow && (run_count a <? MIN_WORDS_PER_SLIDE)
                && (unit_word_count u <=? 15)
    then mkAcc (emitted a ++ [run a ++ [u]]) [] 0
    else mkAcc (emitted a ++ [run a]) [u] (unit_word_count u)
  else mkAcc (emitted a) (run a ++ [u]) would_be.

Definition finish (a : Acc) : list (list U) :=
  if 0 <? run_count a then emitted a ++ [run a] else emitted a.

Definition greedy_pack (units : list U) : list (list U) :=
  finish (fold_left step units (mkAcc [] [] 0)).

End Packer.

Arguments greedy_pack {U} unit_word_count overflow units.
Arguments step {U} unit_word_count overflow a u.
Arguments finish {U} a.
Arguments mkAcc {U} emitted run run_count.
Arguments emitted {U} a.
Arguments run {U} a.
Arguments run_count {U} a.

End Spec42.

(** Sum of the word counts of the lines of a run. *)
Definition runWords (run : list jsstring) : nat :=
  list_sum (map countWords run).

(** The chunk of song mode made of a run of lines. *)
Definition verseOfRun (ty : SectionType) (run : list jsstring) : Verse :=
  mkVerse (trim (join [NEWLINE] run)) (runWords run) ty.

(** ** Notions used in the statements *)

(** The words of a text: its maximal runs of units that are not white space.
    [cur] holds the word being read, reversed. *)
Fixpoint words_aux (cur : jsstring) (s : jsstring) : list jsstring :=
  match s with
  | [] => match cur with [] => [] | _ :: _ => [rev cur] end
  | c :: s' =>
      if isSpace c
      then match cur with
           | [] => words_aux [] s'
           | _ :: _ => rev cur :: words_aux [] s'
           end
      else words_aux (c :: cur) s'
  end.

Definition words (s : jsstring) : list jsstring := words_aux [] s.

(** Collapsing white space: the words, joined by single blanks. *)
Definition collapse (s : jsstring) : jsstring := join [SPACE] (words s).

Definition nonEmpty (s : jsstring) : bool := 0 <? length s.

(** The merge of two neighbours. *)
Definition mergedChunk (c d : Chunk) : Chunk :=
  mkChunk (content c ++ [SPACE] ++ content d) (wordCount c + wordCount d).

(** The test under which the pass merges [c] with its successor [d]. *)
Definition mergeable (c d : Chunk) : bool :=
  (wordCount c <? MIN_WORDS_PER_SLIDE)
  && (wordCount c + wordCount d <=? MAX_WORDS_PER_SLIDE).

(** The merge pass told by recursion on the list: one scan from the left,
    which never looks again at a chunk it has produced. *)
Fixpoint merge_pass (chunks : list Chunk) : list Chunk :=
  match chunks with
  | [] => []
  | c :: rest =>
      match rest with
      | d :: rest' =>
          if mergeable c d then mergedChunk c d :: merge_pass rest'
          else c :: merge_pass rest
      | [] => [c]
      end
  end.

(** The same scan, marking each chunk of the result: [true] for a chunk made
    by a merge, [false] for a chunk taken over unchanged. *)
Fixpoint merge_trace (chunks : list Chunk) : list (bool * Chunk) :=
  match chunks with
  | [] => []
  | c :: rest =>
      match rest with
      | d :: rest' =>
          if mergeable c d then (true, mergedChunk c d) :: merge_trace rest'
          else (false, c) :: merge_trace rest
      | [] => [(false, c)]
      end
  end.

(** A song's chunk without its section type. *)
Definition chunkOfVerse (v : Verse) : Chunk :=
  mkChunk (v_content v) (v_wordCount v).

(** The string that the loops accumulate for a run of units:
    [current += (current ? sep : '') + unit] for each unit in turn. *)
Definition foldUnits (sep : jsstring) (run : list jsstring) : jsstring :=
  fold_left (appendUnit sep) run [].

(** A chunk is made of whole units: its content is a run of units of the
    input joined by the separator, and its count is the sum of theirs. *)
Definition wholeUnits (units : list jsstring) (sep : jsstring) (c : Chunk)
  : Prop :=
  exists run,
    run <> [] /\ incl run units /\
    content c = join sep run /\ wordCount c = runWords run.

(** A chunk is well formed: its content is not empty and is trimmed, and its
    count is the number of words of its content. *)
Definition wellFormed (c : Chunk) : Prop :=
  content c <> [] /\ trim (content c) = content c /\
  wordCount c = countWords (content c) /\ 1 <= wordCount c.

(** Invariant of the loop of [optimizeContentForWordCount] over the
    sentences [units]: the chunks pushed so far are made of whole units, and
    so is the chunk being filled. *)
Definition readingInv (units : list jsstring) (st : PackState) : Prop :=
  Forall (wholeUnits units [SPACE]) (optimizedChunks st) /\
  exists acc,
    incl acc units /\
    currentChunk st = join [SPACE] acc /\
    currentWordCount st = runWords acc.

(** Two neighbours of the marked result, both taken over unchanged. *)
Definition unmergedNeighbours (t : list (bool * Chunk)) (a b : Chunk) : Prop :=
  exists pre post, t = pre ++ (false, a) :: (false, b) :: post.

(** Sum of the word counts of a run of units of the specification's packer. *)
Definition runCount {U : Type} (wc : U -> nat) (run : list U) : nat :=
  list_sum (map wc run).

(** Invariant of the specification's packer after the units [done]: runs and
    accumulator hold the units read so far, in order; the stored count is the
    count of the accumulator; every emitted run has words. *)
Definition packInv {U : Type} (wc : U -> nat) (done : list U)
           (a : Spec42.Acc U) : Prop :=
  concat (Spec42.emitted a) ++ Spec42.run a = done /\
  Spec42.run_count a = runCount wc (Spec42.run a) /\
  Forall (fun r => 0 < runCount wc r) (Spec42.emitted a).

(** The loop of song mode, started with the verses [pre], simulates the
    specification's packer without the overflow exception. *)
Definition songSim (ty : SectionType) (pre : list Verse) (st : SongState)
           (a : Spec42.Acc jsstring) : Prop :=
  optimizedVerses st = pre ++ map (verseOfRun ty) (Spec42.emitted a) /\
  currentVerse st = foldUnits [NEWLINE] (Spec42.run a) /\
  currentLineCount st = Spec42.run_count a /\
  Spec42.run_count a = runWords (Spec42.run a).

(** A chunk of song mode is well formed. *)
Definition wellFormedVerse (v : Verse) : Prop := wellFormed (chunkOfVerse v).

(** The chunk of reading mode made of a run of sentences. *)
Definition chunkOfRun (run : list jsstring) : Chunk :=
  mkChunk (trim (join [SPACE] run)) (runWords run).

(** The loop of reading mode simulates the specification's packer without
    the overflow exception, as long as that exception does not apply. *)
Definition readSim (st : PackState) (a : Spec42.Acc jsstring) : Prop :=
  optimizedChunks st = map chunkOfRun (Spec42.emitted a) /\
  currentChunk st = foldUnits [SPACE] (Spec42.run a) /\
  currentWordCount st = Spec42.run_count a /\
  Spec42.run_count a = runWords (Spec42.run a).

(** All the words of the chunks, in order. *)
Definition chunkWords (chunks : list Chunk) : list jsstring :=
  concat (map (fun c => words (content c)) chunks).

(** The first line of a text: what precedes its first line feed. *)
Fixpoint takeLine (s : jsstring) : jsstring :=
  match s with
  | [] => []
  | c :: s' => if (c =? NEWLINE)%N then [] else c :: takeLine s'
  end.

(** The first of the lines of a section, as the packer splits them. *)
Definition firstLine (s : jsstring) : jsstring :=
  hd [] (split sep_newline s).

(** The text starts with a numeral followed by a full stop. *)
Definition startsWithNumeral (s : jsstring) : Prop :=
  exists digits rest,
    digits <> [] /\ forallb isDigit digits = true /\
    s = digits ++ lit "." ++ rest.

(** The classification as the design describes it: by the first line of the
    section only. *)
Definition firstLineType (sectionContent : jsstring) : SectionType :=
  let line := firstLine sectionContent in
  if startsWith line (lit "R/") || includes (toLowerCase line) (lit "refrain")
  then refrain
  else match matchNumber line with
       | Some _ => numbered_verse
       | None => verse
       end.

(** The suffix of a slide title. *)
Definition titleSuffix (position total : nat) : jsstring :=
  lit " (" ++ numberToString position ++ lit "/" ++ numberToString total
           ++ lit ")".

(** The titles as the design describes them: position and total counted
    within the section the chunk comes from. *)
Definition perSectionTitles (song : Song) : list jsstring :=
  flat_map
    (fun section =>
       let verses := sectionVerses section in
       mapi_from
         (fun v index =>
            generateOptimizedVerseTitle v (title song) (index + 1)
                                        (length verses))
         0 verses)
    (splitSongIntoSections (lyrics song)).

(** The text is white space only. *)
Definition blank (s : jsstring) : bool := forallb isSpace s.

(** The text starts with a unit that is not white space. *)
Definition headText (s : jsstring) : bool :=
  match s with
  | c :: _ => negb (isSpace c)
  | [] => false
  end.

(** The text is not empty and neither starts nor ends with white space. *)
Definition solid (s : jsstring) : bool := headText s && headText (rev s).

(** ** Sample inputs *)

(** [n] words, each followed by a blank. *)
Definition wordsN (n : nat) : jsstring := concat (repeat (lit "a ") n).

(** A sentence of [n] words ([n] at least 1), ending in a full stop. *)
Definition sentenceN (n : nat) : jsstring := wordsN (n - 1) ++ lit "b.".

(** A line of [n] words ([n] at least 1), without terminator. *)
Definition lineN (n : nat) : jsstring := wordsN (n - 1) ++ lit "c".

(** Lyrics of one section of 91 words in two lines, of 79 and 12 words. *)
Definition lyrics91 : jsstring := lineN 79 ++ [NEWLINE] ++ lineN 12.

(** Lyrics of one section of 123 words in three lines, of 2, 120 and 1
    words. *)
Definition lyrics123 : jsstring :=
  lineN 2 ++ [NEWLINE] ++ lineN 120 ++ [NEWLINE] ++ lineN 1.

(** A text of two sentences, of 79 and 12 words. *)
Definition text91 : jsstring := sentenceN 79 ++ lit " " ++ sentenceN 12.

(** A text of five sentences of 20 words each. *)
Definition text100 : jsstring :=
  sentenceN 20 ++ lit " " ++ sentenceN 20 ++ lit " " ++ sentenceN 20
    ++ lit "  " ++ sentenceN 20 ++ lit " " ++ sentenceN 20.

(** A song of two sections of one word each. *)
Definition songAB : Song :=
  mkSongRecord (lit "T") (lit "a" ++ [NEWLINE; NEWLINE] ++ lit "b").

(** Lyrics of one section whose second line holds the word "refrain". *)
Definition lyricsCouplet : jsstring :=
  lit "Couplet" ++ [NEWLINE] ++ lit "le refrain".

(** Lyrics with a refrain and a numbered verse. *)
Definition lyricsRefrain : jsstring :=
  lit "R/ Gloria" ++ [NEWLINE; NEWLINE] ++ lit "1. Nous te louons".

(** ** Notions used in the further properties of the packer *)

(** A chunk of reading mode is within the band when it has at most 94 words
    (79 words and a forced sentence of 15), or is one sentence of the text. *)
Definition withinBand (units : list jsstring) (c : Chunk) : Prop :=
  wordCount c <= 94
  \/ (In (content c) units /\ wordCount c = countWords (content c)).

(** Invariant of the loop of [optimizeContentForWordCount] for the band. *)
Definition bandInv (units : list jsstring) (st : PackState) : Prop :=
  readingInv units st
  /\ Forall (withinBand units) (optimizedChunks st)
  /\ (currentWordCount st <= MAX_WORDS_PER_SLIDE
      \/ (In (currentChunk st) units
          /\ currentWordCount st = countWords (currentChunk st))).

(** A run of the specification's packer has at most 90 words, or it ends
    with a unit before which it holds only units without words. *)
Definition runWithinBand {U : Type} (wc : U -> nat) (r : list U) : Prop :=
  runCount wc r <= MAX_WORDS_PER_SLIDE
  \/ exists zs u, r = zs ++ [u] /\ runCount wc zs = 0.

(** Invariant of the specification's packer, without the overflow exception,
    for the band. *)
Definition packBandInv {U : Type} (wc : U -> nat) (a : Spec42.Acc U) : Prop :=
  Spec42.run_count a = runCount wc (Spec42.run a)
  /\ runWithinBand wc (Spec42.run a)
  /\ Forall (runWithinBand wc) (Spec42.emitted a).

(** Some chunk of the list is followed by a chunk that the merge pass would
    merge it with. *)
Definition hasMergeablePair (chunks : list Chunk) : Prop :=
  exists pre c d post, chunks = pre ++ c :: d :: post /\ mergeable c d = true.

(** The text ends with one of the characters [.], [!] and [?]. *)
Definition endsWithTerminal (s : jsstring) : Prop :=
  exists body c, s = body ++ [c] /\ isTerminal c = true.

(** State of [split] on [/(?<=[.!?])\s+/]: the character before the position
    is the last one of the piece being read, or the piece is empty and that
    character is none or white space. *)
Definition pieceInv (prev : option char) (cur : jsstring) : Prop :=
  match cur with
  | c :: _ => prev = Some c
  | [] => forall p, prev = Some p -> isSpace p = true
  end.

(** ** The liturgical calendar ([src/utils/liturgicalColors.ts])

    Numbers are integers of type [Z]: [%] is the remainder of the truncated
    division [Z.rem], and [Math.floor(x / n)] for a positive constant [n] is
    the floor division [Z.div].

    A [Date] is held by its time value, the milliseconds since the epoch in
    UTC, or by [None] when the time value is [NaN] (an invalid date).  The
    calendar fields that the methods of [Date] read and write are those of
    the local time, which depends on the time zone of the machine: the time
    zone is a parameter, given by the function [LocalTZA] of ECMAScript.
    [new Date(year, month, day)] asks for the local midnight of a day and
    converts it to UTC; where the clocks skip that midnight, the [Date] holds
    a later local time.  A time value beyond 100 000 000 days from the epoch
    is [NaN].  Two [Date]s are compared by their time values, and every
    comparison with a [NaN] is false. *)
Module Liturgy.
Local Open Scope Z_scope.

Definition msPerDay : Z := 86400000.

(** [Day(t)] and [TimeWithinDay(t)] of ECMAScript. *)
Definition Day (t : Z) : Z := t / msPerDay.

Definition TimeWithinDay (t : Z) : Z := t mod msPerDay.

(** [DaysInYear], [DayFromYear] and [InLeapYear] of ECMAScript. *)
Definition DaysInYear (y : Z) : Z :=
  if negb (y mod 4 =? 0) then 365
  else if negb (y mod 100 =? 0) then 366
  else if negb (y mod 400 =? 0) then 365
  else 366.

Definition DayFromYear (y : Z) : Z :=
  365 * (y - 1970) + (y - 1969) / 4 - (y - 1901) / 100 + (y - 1601) / 400.

Definition InLeapYear (y : Z) : Z := if DaysInYear y =? 366 then 1 else 0.

(** Days of the year before the first of the month of index [mn]. *)
Definition daysBeforeMonth (leap mn : Z) : Z :=
  if mn =? 0 then 0
  else if mn =? 1 then 31
  else if mn =? 2 then 59 + leap
  else if mn =? 3 then 90 + leap
  else if mn =? 4 then 120 + leap
  else if mn =? 5 then 151 + leap
  else if mn =? 6 then 181 + leap
  else if mn =? 7 then 212 + leap
  else if mn =? 8 then 243 + leap
  else if mn =? 9 then 273 + leap
  else if mn =? 10 then 304 + leap
  else 334 + leap.

(** [MakeDay(year, month, date)] of ECMAScript: the day number, counted from
    1 January 1970, of the day [date] of the month of index [month]. *)
Definition MakeDay (year month date : Z) : Z :=
  let ym := year + month / 12 in
  let mn := month mod 12 in
  DayFromYear ym + daysBeforeMonth (InLeapYear ym) mn + date - 1.

(** [YearFromTime(t)] of ECMAScript, the largest year whose first day is not
    after the day of [t].  A year has 146097 / 400 days on average; the year
    is the estimate that this average gives, or one of its two neighbours. *)
Definition YearFromDay (day : Z) : Z :=
  let estimate := 400 * (day + 719162) / 146097 + 1 in
  if DayFromYear (estimate + 1) <=? day then estimate + 1
  else if DayFromYear estimate <=? day then estimate
  else estimate - 1.

Definition YearFromTime (t : Z) : Z := YearFromDay (Day t).

Definition DayWithinYear (t : Z) : Z := Day t - DayFromYear (YearFromTime t).

(** [MonthFromTime(t)] and [DateFromTime(t)] of ECMAScript. *)
Definition MonthFromTime (t : Z) : Z :=
  let d := DayWithinYear t in
  let leap := InLeapYear (YearFromTime t) in
  if d <? 31 then 0
  else if d <? 59 + leap then 1
  else if d <? 90 + leap then 2
  else if d <? 120 + leap then 3
  else if d <? 151 + leap then 4
  else if d <? 181 + leap then 5
  else if d <? 212 + leap then 6
  else if d <? 243 + leap then 7
  else if d <? 273 + leap then 8
  else if d <? 304 + leap then 9
  else if d <? 334 + leap then 10
  else 11.

Definition DateFromTime (t : Z) : Z :=
  DayWithinYear t
  - daysBeforeMonth (InLeapYear (YearFromTime t)) (MonthFromTime t) + 1.

(** [WeekDay(t)] of ECMAScript: 0 is Sunday, 3 is Wednesday. *)
Definition WeekDay (t : Z) : Z := (Day t + 4) mod 7.

(** The time zone of the machine: [LocalTZA(t, isUTC)] of ECMAScript, the
    offset of the local time in milliseconds, at the UTC time [t] when
    [isUTC] holds and for the local time [t] otherwise.  The offset of a time
    zone is less than a day, as it is for every zone of the IANA time zone
    database. *)
Record TimeZone := mkTimeZone {
  LocalTZA : Z -> bool -> Z;
  LocalTZA_bound : forall t isUTC, - msPerDay < LocalTZA t isUTC < msPerDay
}.

(** A [Date]: its time value, [None] for [NaN]. *)
Definition JsDate := option Z.

Definition maxTimeValue : Z := 8640000000000000.

(** [TimeClip(time)] of ECMAScript. *)
Definition TimeClip (time : Z) : JsDate :=
  if Z.abs time <=? maxTimeValue then Some time else None.

(** [MakeFullYear(year)] of ECMAScript: a year from 0 to 99 stands for
    1900 + year. *)
Definition MakeFullYear (year : Z) : Z :=
  if (0 <=? year) && (year <=? 99) then 1900 + year else year.

(** [a >= b], [a < b] and [a <= b] on two [Date]s, and [===] on two results
    of [getTime()]. *)
Definition date_ge (a b : JsDate) : bool :=
  match a, b with
  | Some x, Some y => y <=? x
  | _, _ => false
  end.

Definition date_lt (a b : JsDate) : bool :=
  match a, b with
  | Some x, Some y => x <? y
  | _, _ => false
  end.

Definition date_le (a b : JsDate) : bool :=
  match a, b with
  | Some x, Some y => x <=? y
  | _, _ => false
  end.

Definition time_eq (a b : JsDate) : bool :=
  match a, b with
  | Some x, Some y => x =? y
  | _, _ => false
  end.

(** The values [month] and [day] of [getEasterDate] (lines 107-120). *)
Definition easterMonthDay (year : Z) : Z * Z :=
  let a := Z.rem year 19 in
  let b := year / 100 in
  let c := Z.rem year 100 in
  let d := b / 4 in
  let e := Z.rem b 4 in
  let f := (b + 8) / 25 in
  let g := (b - f + 1) / 3 in
  let h := Z.rem (19 * a + b - d - g + 15) 30 in
  let i := c / 4 in
  let k := Z.rem c 4 in
  let l := Z.rem (32 + 2 * e + 2 * i - h - k) 7 in
  let m := (a + 11 * h + 22 * l) / 451 in
  let month := (h + l - 7 * m + 114) / 31 in
  let day := Z.rem (h + l - 7 * m + 114) 31 + 1 in
  (month, day).

(** The keys of [liturgicalSeasons]; [getLiturgicalSeason] returns the entry
    of one of them. *)
Inductive Season :=
  advent | christmas | ordinary | lent | holyWeek | easter | pentecost.

Section Zone.

Variable tz : TimeZone.

(** [LocalTime(t)] and [UTC(t)] of ECMAScript. *)
Definition LocalTime (t : Z) : Z := t + LocalTZA tz t true.

Definition UTC (t : Z) : Z := t - LocalTZA tz t false.

(** [new Date(year, monthIndex, day)]: the local midnight of the day, as a
    UTC time value. *)
Definition newDate (year monthIdx day : Z) : JsDate :=
  TimeClip (UTC (MakeDay (MakeFullYear year) monthIdx day * msPerDay)).

(** [getFullYear()], [getMonth()], [getDate()] and [getDay()]; [None] is
    [NaN]. *)
Definition getFullYear (d : JsDate) : option Z :=
  option_map (fun tv => YearFromTime (LocalTime tv)) d.

Definition getMonth (d : JsDate) : option Z :=
  option_map (fun tv => MonthFromTime (LocalTime tv)) d.

Definition getDate (d : JsDate) : option Z :=
  option_map (fun tv => DateFromTime (LocalTime tv)) d.

Definition getDay (d : JsDate) : option Z :=
  option_map (fun tv => WeekDay (LocalTime tv)) d.

(** The [Date] [d] after [d.setDate(dt)]: the day [dt] of the local month of
    [d], counted past the ends of the month, at the local time of day of
    [d]. *)
Definition setDate (d : JsDate) (dt : option Z) : JsDate :=
  match d, dt with
  | Some tv, Some n =>
      let t := LocalTime tv in
      TimeClip (UTC (MakeDay (YearFromTime t) (MonthFromTime t) n * msPerDay
                     + TimeWithinDay t))
  | _, _ => None
  end.

(** [getEasterDate] (lines 106-123): [new Date(year, month - 1, day)]. *)
Definition getEasterDate (year : Z) : JsDate :=
  let '(month, day) := easterMonthDay year in
  newDate year (month - 1) day.

(** [getLiturgicalSeason] (lines 53-103).  [lentStart], [holyWeekStart] and
    [pentecost] are copies of [easter] on which [setDate] is called.  For an
    invalid date the year, the month and the day are [NaN], every test is
    false and the function returns the ordinary time. *)
Definition getLiturgicalSeason (date : JsDate) : Season :=
  match getFullYear date, getMonth date, getDate date with
  | Some year, Some monthIdx, Some day =>
      let month := monthIdx + 1 in
      if (month =? 11) && (27 <=? day) || (month =? 12) && (day <=? 24)
      then advent
      else if (month =? 12) && (25 <=? day) || (month =? 1) && (day <=? 13)
      then christmas
      else
        let easterDate := getEasterDate year in
        let lentStart :=
          setDate easterDate
                  (option_map (fun d => d - 46) (getDate easterDate)) in
        let holyWeekStart :=
          setDate easterDate
                  (option_map (fun d => d - 7) (getDate easterDate)) in
        if date_ge date lentStart && date_lt date holyWeekStart
        then lent
        else if date_ge date holyWeekStart && date_lt date easterDate
        then holyWeek
        else
          let pentecostDate :=
            setDate easterDate
                    (option_map (fun d => d + 49) (getDate easterDate)) in
          if date_ge date easterDate && date_le date pentecostDate
          then easter
          else if time_eq date pentecostDate then pentecost
          else ordinary
  | _, _, _ => ordinary
  end.

(** Converting a local time to UTC and back never leaves the calendar day:
    the clocks of the zone skip no midnight-crossing span and no whole
    day. *)
Definition keepsDay : Prop :=
  forall t, Day (LocalTime (UTC t)) = Day t.

(** The local day of number [day] starts at its midnight: the clocks do not
    skip that midnight, and the instants before it are those of the earlier
    local days. *)
Definition startsAtMidnight (day : Z) : Prop :=
  LocalTime (UTC (day * msPerDay)) = day * msPerDay
  /\ forall tv, tv < UTC (day * msPerDay) <-> Day (LocalTime tv) < day.

End Zone.

(** The day number of the day that [getEasterDate] asks [new Date] for. *)
Definition easterDayNumber (year : Z) : Z :=
  let '(month, day) := easterMonthDay year in
  MakeDay (MakeFullYear year) (month - 1) day.

(** The intermediate values of [getEasterDate] for a year from 0 on, where
    every remainder is taken of a number that is not negative. *)
Record EasterVars (year a b c d e f g h i k l m : Z) : Prop := {
  ev_a : a = year mod 19;
  ev_b : b = year / 100;
  ev_c : c = year mod 100;
  ev_d : d = b / 4;
  ev_e : e = b mod 4;
  ev_f : f = (b + 8) / 25;
  ev_g : g = (b - f + 1) / 3;
  ev_h : h = (19 * a + b - d - g + 15) mod 30;
  ev_i : i = c / 4;
  ev_k : k = c mod 4;
  ev_l : l = (32 + 2 * e + 2 * i - h - k) mod 7;
  ev_m : m = (a + 11 * h + 22 * l) / 451;
  ev_md : easterMonthDay year
          = ((h + l - 7 * m + 114) / 31, (h + l - 7 * m + 114) mod 31 + 1)
}.

(** *** Sample time zones *)

(** A zone two hours ahead of UTC whose clocks go from 0:00 to 1:00 on
    31 March 2024, the day 19813, as in Beirut: that local midnight does not
    exist.  A skipped local time is read with the offset before the change. *)
Definition beirutChange : Z := 19813 * msPerDay - 7200000.

Definition beirutOffset (t : Z) (isUTC : bool) : Z :=
  if isUTC
  then if t <? beirutChange then 7200000 else 10800000
  else if t <? beirutChange + 10800000 then 7200000 else 10800000.

Definition beirut2024 : TimeZone :=
  mkTimeZone beirutOffset
    (fun t isUTC =>
       match isUTC as b
             return - msPerDay < beirutOffset t b < msPerDay with
       | true =>
           match (t <? beirutChange) as c
                 return - msPerDay < (if c then 7200000 else 10800000)
                        < msPerDay with
           | true => conj eq_refl eq_refl
           | false => conj eq_refl eq_refl
           end
       | false =>
           match (t <? beirutChange + 10800000) as c
                 return - msPerDay < (if c then 7200000 else 10800000)
                        < msPerDay with
           | true => conj eq_refl eq_refl
           | false => conj eq_refl eq_refl
           end
       end).

(** A zone one hour ahead of UTC whose clocks go from 2:00 to 3:00 on
    30 March 2025, the day 20177, as in Paris. *)
Definition parisChange : Z := 20177 * msPerDay + 3600000.

Definition parisOffset (t : Z) (isUTC : bool) : Z :=
  if isUTC
  then if t <? parisChange then 3600000 else 7200000
  else if t <? parisChange + 7200000 then 3600000 else 7200000.

Definition paris2025 : TimeZone :=
  mkTimeZone parisOffset
    (fun t isUTC =>
       match isUTC as b
             return - msPerDay < parisOffset t b < msPerDay with
       | true =>
           match (t <? parisChange) as c
                 return - msPerDay < (if c then 3600000 else 7200000)
                        < msPerDay with
           | true => conj eq_refl eq_refl
           | false => conj eq_refl eq_refl
           end
       | false =>
           match (t <? parisChange + 7200000) as c
                 return - msPerDay < (if c then 3600000 else 7200000)
                        < msPerDay with
           | true => conj eq_refl eq_refl
           | false => conj eq_refl eq_refl
           end
       end).

End Liturgy.

(** ** The slides of a presentation

    [exportPresentation] and the functions that add the slides (lines 10-352
    of [src/services/powerpoint.ts]), and the count of slides that
    [PreviewPanel] announces.  A slide is held by the texts that [addText]
    puts on it, in order; a presentation file by its slides, in the order of
    [addSlide].  Positions, sizes, fonts and colours are left out.  The
    liturgical season that [exportPresentation] computes is passed to the two
    functions that add the slides of a reading and of a song, which do not
    use it. *)

Record LiturgyReading := mkReading {
  r_id : jsstring;
  r_title : jsstring;
  r_reference : jsstring;
  r_text : jsstring
}.

Record SongEntry := mkSongEntry {
  sg_id : jsstring;
  sg_title : jsstring;
  sg_lyrics : jsstring;
  sg_author : option jsstring;   (* author?: string *)
  sg_melody : option jsstring    (* melody?: string *)
}.

Inductive ItemType := reading_item | song_item.

Record SlideItem := mkSlideItem {
  si_id : jsstring;
  si_type : ItemType;
  si_order : Z
}.

Record LiturgyPresentation := mkPresentation {
  p_title : jsstring;
  p_date : jsstring;
  p_readings : list LiturgyReading;
  p_songs : list SongEntry;
  p_slideOrder : list SlideItem
}.

Definition Slide := list jsstring.
Definition Pptx := list Slide.

(** [===] on strings. *)
Fixpoint jsstring_eqb (s t : jsstring) : bool :=
  match s, t with
  | [], [] => true
  | c :: s', d :: t' => (c =? d)%N && jsstring_eqb s' t'
  | _, _ => false
  end.

(** [array.forEach((x, index) => ...)] on a state that the callback updates. *)
Fixpoint forEach_from {A St : Type} (f : St -> A -> nat -> St) (index : nat)
         (l : list A) (s : St) : St :=
  match l with
  | [] => s
  | x :: rest => forEach_from f (S index) rest (f s x index)
  end.

(** [[...items].sort((a, b) => a.order - b.order)].  The sort of ECMAScript
    is stable, and this comparison is a total preorder on orders that are
    integers, so that the result is the one sorted arrangement of the items
    that keeps items of equal order in their sequence; it is computed here by
    insertion. *)
Fixpoint insertByOrder (x : SlideItem) (l : list SlideItem) : list SlideItem :=
  match l with
  | [] => [x]
  | y :: l' =>
      if (si_order x <=? si_order y)%Z then x :: l
      else y :: insertByOrder x l'
  end.

Fixpoint sortByOrder (l : list SlideItem) : list SlideItem :=
  match l with
  | [] => []
  | x :: l' => insertByOrder x (sortByOrder l')
  end.

(** [[song.author, song.melody].filter(Boolean)]: the strings that are
    present and not empty. *)
Definition filterBoolean (l : list (option jsstring)) : list jsstring :=
  flat_map (fun o => match o with
                     | Some s => if truthy s then [s] else []
                     | None => []
                     end) l.

Section Exporting.

(** [new Date(presentation.date).toLocaleDateString('fr-FR', {...})], as a
    function of the date string. *)
Variable toLocaleDateString : jsstring -> jsstring.

(** [createTitleSlide] (lines 67-115): the file after the call, and the
    number returned. *)
Definition createTitleSlide (pptx : Pptx) (presentation : LiturgyPresentation)
           (slideNumber : nat) : Pptx * nat :=
  (pptx ++ [[p_title presentation;
             toLocaleDateString (p_date presentation);
             numberToString slideNumber]],
   1).

(** The callback of [optimizedChunks.forEach] in
    [createOptimizedReadingSlides] (lines 172-230), on the file and the
    variable [slideCount]. *)
Definition readingChunkSlide (reading : LiturgyReading) (total : nat)
           (startSlideNumber : nat) (st : Pptx * nat) (chunk : Chunk)
           (index : nat) : Pptx * nat :=
  let slideTitle :=
    r_title reading ++ lit " (" ++ numberToString (index + 1) ++ lit "/"
                    ++ numberToString total ++ lit ")" in
  (fst st ++ [[slideTitle;
               content chunk;
               numberToString (wordCount chunk) ++ lit " mots";
               numberToString (startSlideNumber + snd st)]],
   S (snd st)).

(** [createOptimizedReadingSlides] (lines 117-233). *)
Definition createOptimizedReadingSlides (pptx : Pptx) (reading : LiturgyReading)
           (startSlideNumber : nat) : Pptx * nat :=
  let slideCount := 0 in
  let pptx1 :=
    pptx ++ [[r_title reading;
              r_reference reading;
              numberToString (startSlideNumber + slideCount)]] in
  let slideCount := S slideCount in
  let optimizedChunks := optimizeContentForWordCount (r_text reading) in
  forEach_from
    (readingChunkSlide reading (length optimizedChunks) startSlideNumber)
    0 optimizedChunks (pptx1, slideCount).

(** The callback of [optimizedVerses.forEach] in
    [createOptimizedSongSlides] (lines 291-349). *)
Definition songVerseSlide (song : SongEntry) (total : nat)
           (startSlideNumber : nat) (st : Pptx * nat) (v : Verse)
           (index : nat) : Pptx * nat :=
  let slideTitle :=
    generateOptimizedVerseTitle v (sg_title song) (index + 1) total in
  (fst st ++ [[slideTitle;
               v_content v;
               numberToString (v_wordCount v) ++ lit " mots";
               numberToString (startSlideNumber + snd st)]],
   S (snd st)).

(** [createOptimizedSongSlides] (lines 235-352). *)
Definition createOptimizedSongSlides (pptx : Pptx) (song : SongEntry)
           (startSlideNumber : nat) : Pptx * nat :=
  let slideCount := 0 in
  let subtitle :=
    match filterBoolean [sg_author song; sg_melody song] with
    | [] => []                                   (* if (author || melody) *)
    | parts => [join (lit " - ") parts]
    end in
  let pptx1 :=
    pptx ++ [[sg_title song] ++ subtitle
             ++ [numberToString (startSlideNumber + slideCount)]] in
  let slideCount := S slideCount in
  let verses := optimizeSongForWordCount (sg_lyrics song) in
  forEach_from (songVerseSlide song (length verses) startSlideNumber)
               0 verses (pptx1, slideCount).

(** One iteration of [for (const slideItem of sortedSlides)] (lines 32-57),
    on the file and the variable [slideNumber]. *)
Definition exportItem (presentation : LiturgyPresentation)
           (st : Pptx * nat) (slideItem : SlideItem) : Pptx * nat :=
  match si_type slideItem with
  | reading_item =>
      match find (fun r => jsstring_eqb (r_id r) (si_id slideItem))
                 (p_readings presentation) with
      | Some reading =>
          let '(pptx, readingSlides) :=
            createOptimizedReadingSlides (fst st) reading (snd st) in
          (pptx, snd st + readingSlides)
      | None => st
      end
  | song_item =>
      match find (fun s => jsstring_eqb (sg_id s) (si_id slideItem))
                 (p_songs presentation) with
      | Some song =>
          let '(pptx, songSlides) :=
            createOptimizedSongSlides (fst st) song (snd st) in
          (pptx, snd st + songSlides)
      | None => st
      end
  end.

Record Exported := mkExported {
  deck : Pptx;            (* the slides of the file written *)
  fileName : jsstring;
  slidesLogged : nat      (* the count of the second console.log *)
}.

(** [exportPresentation] (lines 10-65). *)
Definition exportPresentation (presentation : LiturgyPresentation) : Exported :=
  let slideNumber := 1 in
  let '(pptx, n) := createTitleSlide [] presentation slideNumber in
  let slideNumber := slideNumber + n in
  let sortedSlides := sortByOrder (p_slideOrder presentation) in
  let st := fold_left (exportItem presentation) sortedSlides (pptx, slideNumber) in
  mkExported (fst st) (p_title presentation ++ lit ".pptx") (snd st - 1).

End Exporting.

(** [totalSlides] of [PreviewPanel]: [1 + presentation.slideOrder.length]. *)
Definition previewTotalSlides (presentation : LiturgyPresentation) : nat :=
  1 + length (p_slideOrder presentation).

(** The text that carries the number of a slide: the last one added. *)
Definition slideNumberText (slide : Slide) : jsstring := last slide [].

(** The slides are numbered from [start] on, one after the other. *)
Definition numberedFrom (start : nat) (slides : list Slide) : Prop :=
  map slideNumberText slides = map numberToString (seq start (length slides)).

(** What a function that adds slides does to the file and returns: it
    appends slides, numbered from the start number on, and returns their
    number. *)
Definition addsSlides (pptx : Pptx) (start : nat) (result : Pptx * nat)
           (count : nat) : Prop :=
  exists new,
    result = (pptx ++ new, count) /\ length new = count
    /\ numberedFrom start new.

(** Invariant of the loop of [exportPresentation]: the slides are numbered
    from 1 on, and [slideNumber] is the number of the next slide. *)
Definition exportInv (st : Pptx * nat) : Prop :=
  numberedFrom 1 (fst st) /\ snd st = 1 + length (fst st).

(** The reading or song that a slide item names, if there is one, as the
    number of slides that it brings: its title slide and one slide per chunk. *)
Definition itemSlideCount (presentation : LiturgyPresentation)
           (slideItem : SlideItem) : nat :=
  match si_type slideItem with
  | reading_item =>
      match find (fun r => jsstring_eqb (r_id r) (si_id slideItem))
                 (p_readings presentation) with
      | Some reading =>
          1 + length (optimizeContentForWordCount (r_text reading))
      | None => 0
      end
  | song_item =>
      match find (fun s => jsstring_eqb (sg_id s) (si_id slideItem))
                 (p_songs presentation) with
      | Some song => 1 + length (optimizeSongForWordCount (sg_lyrics song))
      | None => 0
      end
  end.

(** The slide item names a reading or a song of the presentation. *)
Definition resolved (presentation : LiturgyPresentation)
           (slideItem : SlideItem) : Prop :=
  match si_type slideItem with
  | reading_item =>
      exists r, In r (p_readings presentation) /\ r_id r = si_id slideItem
  | song_item =>
      exists s, In s (p_songs presentation) /\ sg_id s = si_id slideItem
  end.

(** ** The slide order kept by [App] ([src/App.tsx])

    The effect of lines 69-112 computes the slide order from the readings,
    the songs and the slide order of the state.  Its last loop writes the
    [order] of every item of the new array; items kept from the state are the
    same objects there, the value modelled is the new array. *)

(** [slideOrder.find(item => item.id === id)], as a condition. *)
Definition listed (slideOrder : list SlideItem) (id : jsstring) : bool :=
  match find (fun item => jsstring_eqb (si_id item) id) slideOrder with
  | Some _ => true
  | None => false
  end.

(** The callback of [readings.forEach] (lines 74-82), on [newSlideOrder] and
    [orderCounter]. *)
Definition addNewReading (slideOrder : list SlideItem)
           (st : list SlideItem * Z) (reading : LiturgyReading)
  : list SlideItem * Z :=
  if negb (listed slideOrder (r_id reading))
  then (fst st ++ [mkSlideItem (r_id reading) reading_item (snd st)],
        (snd st + 1)%Z)
  else st.

(** The callback of [songs.forEach] (lines 85-93). *)
Definition addNewSong (slideOrder : list SlideItem)
           (st : list SlideItem * Z) (song : SongEntry)
  : list SlideItem * Z :=
  if negb (listed slideOrder (sg_id song))
  then (fst st ++ [mkSlideItem (sg_id song) song_item (snd st)],
        (snd st + 1)%Z)
  else st.

(** The predicate of [slideOrder.filter] (lines 96-102). *)
Definition stillValid (readings : list LiturgyReading) (songs : list SongEntry)
           (item : SlideItem) : bool :=
  match si_type item with
  | reading_item =>
      match find (fun r => jsstring_eqb (r_id r) (si_id item)) readings with
      | Some _ => true
      | None => false
      end
  | song_item =>
      match find (fun s => jsstring_eqb (sg_id s) (si_id item)) songs with
      | Some _ => true
      | None => false
      end
  end.

(** [finalOrder.forEach((item, index) => { item.order = index; })]
    (lines 107-109). *)
Definition renumber (finalOrder : list SlideItem) : list SlideItem :=
  mapi_from (fun item index =>
               mkSlideItem (si_id item) (si_type item) (Z.of_nat index))
            0 finalOrder.

(** The slide order that the effect passes to [setSlideOrder]. *)
Definition updateSlideOrder (readings : list LiturgyReading)
           (songs : list SongEntry) (slideOrder : list SlideItem)
  : list SlideItem :=
  let st := fold_left (addNewReading slideOrder) readings ([], 0%Z) in
  let st := fold_left (addNewSong slideOrder) songs st in
  let newSlideOrder := fst st in
  let existingValidItems := filter (stillValid readings songs) slideOrder in
  let finalOrder := existingValidItems ++ newSlideOrder in
  renumber finalOrder.

(** The presentation that the effect of lines 51-66 builds from the state,
    [null] when there is nothing to present. *)
Definition appPresentation (title date : jsstring)
           (readings : list LiturgyReading) (songs : list SongEntry)
           (slideOrder : list SlideItem) : option LiturgyPresentation :=
  if (0 <? length readings) || (0 <? length songs) || (0 <? length slideOrder)
  then Some (mkPresentation title date readings songs slideOrder)
  else None.

(** The identifier and the type of a slide item, without its order. *)
Definition itemKey (item : SlideItem) : jsstring * ItemType :=
  (si_id item, si_type item).

(** ** Moving a slide ([handleReorderSlide], [src/App.tsx] lines 164-192)

    [sortedSlides] is a sorted copy of the array [slideOrder]: the two arrays
    hold the same objects, and the orders written through [sortedSlides] are
    read through [slideOrder] afterwards.  An object is modelled as an item
    with its position in [slideOrder], which identifies it. *)

Inductive Direction := dir_up | dir_down.

Definition Ref := (nat * SlideItem)%type.

Definition objects (slideOrder : list SlideItem) : list Ref :=
  combine (seq 0 (length slideOrder)) slideOrder.

(** [Array.prototype.sort] with the comparator [(a, b) => a.order - b.order]
    on any kind of element: stable, computed by insertion. *)
Section SortOn.

Variable A : Type.
Variable order : A -> Z.

Fixpoint insertOn (x : A) (l : list A) : list A :=
  match l with
  | [] => [x]
  | y :: l' =>
      if (order x <=? order y)%Z then x :: l else y :: insertOn x l'
  end.

Fixpoint sortOn (l : list A) : list A :=
  match l with
  | [] => []
  | x :: l' => insertOn x (sortOn l')
  end.

End SortOn.

Arguments insertOn {A} order x l.
Arguments sortOn {A} order l.

(** [Array.prototype.findIndex]; [None] stands for -1. *)
Fixpoint findIndex {A : Type} (f : A -> bool) (l : list A) : option nat :=
  match l with
  | [] => None
  | x :: l' => if f x then Some 0 else option_map S (findIndex f l')
  end.

(** [object.order = o], seen through every array that holds the object. *)
Definition assignOrder (target : nat) (o : Z) (store : list Ref) : list Ref :=
  map (fun e => if fst e =? target
                then (fst e, mkSlideItem (si_id (snd e)) (si_type (snd e)) o)
                else e)
      store.

(** The exchange of lines 175-178 and 186-188. *)
Definition swapOrders (currentSlide otherSlide : Ref) (store : list Ref)
  : list Ref :=
  let tempOrder := si_order (snd currentSlide) in
  let store :=
    assignOrder (fst currentSlide) (si_order (snd otherSlide)) store in
  assignOrder (fst otherSlide) tempOrder store.

(** The slide order of the state after the call: the argument of
    [setSlideOrder], or the state as it was when the function returns without
    setting it. *)
Definition handleReorderSlide (slideOrder : list SlideItem)
           (slideId : jsstring) (direction : Direction) : list SlideItem :=
  match findIndex (fun item => jsstring_eqb (si_id item) slideId) slideOrder
  with
  | None => slideOrder
  | Some slideIndex =>
      let sortedSlides :=
        sortOn (fun e : Ref => si_order (snd e)) (objects slideOrder) in
      match findIndex (fun e : Ref => jsstring_eqb (si_id (snd e)) slideId)
                      sortedSlides with
      | None => slideOrder
      | Some sortedIndex =>
          match direction with
          | dir_up =>
              if 0 <? sortedIndex then
                match nth_error sortedSlides sortedIndex,
                      nth_error sortedSlides (sortedIndex - 1) with
                | Some currentSlide, Some previousSlide =>
                    map snd (swapOrders currentSlide previousSlide
                                        (objects slideOrder))
                | _, _ => slideOrder
                end
              else slideOrder
          | dir_down =>
              if sortedIndex <? length sortedSlides - 1 then
                match nth_error sortedSlides sortedIndex,
                      nth_error sortedSlides (sortedIndex + 1) with
                | Some currentSlide, Some nextSlide =>
                    map snd (swapOrders currentSlide nextSlide
                                        (objects slideOrder))
                | _, _ => slideOrder
                end
              else slideOrder
          end
      end
  end.

(** What the exchange does to an object of the store: each of the two
    objects, at the positions [pa] and [pb] and with the orders [oa] and [ob],
    gets the order of the other. *)
Definition exchanged (pa pb : nat) (oa ob : Z) (e : Ref) : Ref :=
  if fst e =? pa
  then (fst e, mkSlideItem (si_id (snd e)) (si_type (snd e)) ob)
  else if fst e =? pb
       then (fst e, mkSlideItem (si_id (snd e)) (si_type (snd e)) oa)
       else e.

(** An item with another order. *)
Definition withOrder (item : SlideItem) (o : Z) : SlideItem :=
  mkSlideItem (si_id item) (si_type item) o.

(** The key names a reading, or a song, of the lists. *)
Definition namesEntry (readings : list LiturgyReading) (songs : list SongEntry)
           (key : jsstring * ItemType) : Prop :=
  match snd key with
  | reading_item => exists r, In r readings /\ r_id r = fst key
  | song_item => exists s, In s songs /\ sg_id s = fst key
  end.

(** A presentation of one reading, the text of 79 and 12 words. *)
Definition presentation91 : LiturgyPresentation :=
  mkPresentation (lit "Messe") (lit "2025-04-20")
                 [mkReading (lit "r1") (lit "Lecture") (lit "Is 1") text91]
                 []
                 [mkSlideItem (lit "r1") reading_item 0].

(** * Facts about the string primitives *)

Lemma trimStart_blank_app (p s : jsstring) :
  blank p = true -> trimStart (p ++ s) = trimStart s.
Proof.
  induction p as [|c p IH]; simpl; intros H; [reflexivity|].
  apply andb_true_iff in H as [Hc Hp]. rewrite Hc. auto.
Qed.

Lemma trimStart_decomp (s : jsstring) :
  exists p, s = p ++ trimStart s /\ blank p = true.
Proof.
  induction s as [|c s [p [E B]]]; simpl.
  - exists []. auto.
  - destruct (isSpace c) eqn:Hc.
    + exists (c :: p). simpl. rewrite Hc, B. split; [congruence | reflexivity].
    + exists []. auto.
Qed.

Lemma trimStart_head (s : jsstring) :
  trimStart s = [] \/ headText (trimStart s) = true.
Proof.
  induction s as [|c s IH]; simpl; [now left|].
  destruct (isSpace c) eqn:Hc; [exact IH|].
  right. simpl. now rewrite Hc.
Qed.

Lemma trimStart_headText (s : jsstring) :
  headText s = true -> trimStart s = s.
Proof.
  destruct s as [|c s]; simpl; [discriminate|].
  intros H. apply negb_true_iff in H. now rewrite H.
Qed.

Lemma trimStart_nil_blank (s : jsstring) :
  trimStart s = [] <-> blank s = true.
Proof.
  induction s as [|c s IH]; simpl; [tauto|].
  destruct (isSpace c); simpl; [exact IH|].
  split; discriminate.
Qed.

Lemma blank_app (a b : jsstring) : blank (a ++ b) = blank a && blank b.
Proof. apply forallb_app. Qed.

Lemma blank_rev (a : jsstring) : blank (rev a) = blank a.
Proof.
  induction a as [|c a IH]; simpl; [reflexivity|].
  rewrite blank_app, IH. simpl. rewrite andb_true_r. apply andb_comm.
Qed.

Lemma trimEnd_decomp (s : jsstring) :
  exists q, s = trimEnd s ++ q /\ blank q = true.
Proof.
  destruct (trimStart_decomp (rev s)) as [p [E B]].
  exists (rev p). split.
  - unfold trimEnd. rewrite <- rev_app_distr, <- E. symmetry. apply rev_involutive.
  - now rewrite blank_rev.
Qed.

Lemma headText_app (a b : jsstring) :
  headText a = true -> headText (a ++ b) = true.
Proof. destruct a; simpl; [discriminate | auto]. Qed.

Lemma headText_app_l (a b : jsstring) :
  a <> [] -> headText (a ++ b) = headText a.
Proof. destruct a; simpl; [congruence | auto]. Qed.

Lemma trimEnd_headText (s : jsstring) :
  headText s = true -> headText (trimEnd s) = true.
Proof.
  intros H. destruct (trimEnd_decomp s) as [q [E B]].
  destruct (trimEnd s) as [|c t] eqn:Ht.
  - simpl in E. subst q. destruct s as [|d s]; [discriminate|].
    simpl in H, B. apply negb_true_iff in H. rewrite H in B. discriminate.
  - rewrite E in H. exact H.
Qed.

Lemma trim_nil_or_solid (s : jsstring) : trim s = [] \/ solid (trim s) = true.
Proof.
  unfold trim. destruct (trimStart_head s) as [E|H].
  - left. now rewrite E.
  - right. unfold solid. rewrite (trimEnd_headText _ H). simpl.
    unfold trimEnd at 1. rewrite rev_involutive.
    destruct (trimStart_head (rev (trimStart s))) as [E'|H']; [|exact H'].
    exfalso. apply trimStart_nil_blank in E'. rewrite blank_rev in E'.
    destruct (trimStart s) as [|c t]; [discriminate|].
    simpl in H, E'. apply negb_true_iff in H. rewrite H in E'. discriminate.
Qed.

Lemma solid_trim (s : jsstring) : solid s = true -> trim s = s.
Proof.
  unfold solid, trim, trimEnd. intros H. apply andb_true_iff in H as [H1 H2].
  rewrite (trimStart_headText _ H1), (trimStart_headText _ H2).
  apply rev_involutive.
Qed.

Lemma solid_nonempty (s : jsstring) : solid s = true -> s <> [].
Proof. destruct s; [discriminate | discriminate]. Qed.

Lemma trim_trim (s : jsstring) : trim (trim s) = trim s.
Proof.
  destruct (trim_nil_or_solid s) as [E|H].
  - rewrite E. reflexivity.
  - now apply solid_trim.
Qed.

Lemma trim_blank (s : jsstring) : blank s = true -> trim s = [].
Proof.
  intros H. unfold trim. apply trimStart_nil_blank in H. now rewrite H.
Qed.

Lemma trim_nil_blank (s : jsstring) : trim s = [] -> blank s = true.
Proof.
  unfold trim. intros H.
  destruct (trimStart_decomp s) as [p [E B]].
  destruct (trimEnd_decomp (trimStart s)) as [q [E' B']].
  rewrite H in E'. simpl in E'. rewrite E, blank_app, B, E', B'. reflexivity.
Qed.

Lemma trim_blank_prefix (p s : jsstring) :
  blank p = true -> trim (p ++ s) = trim s.
Proof. intros H. unfold trim. now rewrite trimStart_blank_app. Qed.

Lemma solid_app (x m y : jsstring) :
  solid x = true -> solid y = true -> solid (x ++ m ++ y) = true.
Proof.
  unfold solid. intros Hx Hy.
  apply andb_true_iff in Hx as [Hx _]. apply andb_true_iff in Hy as [_ Hy].
  rewrite (headText_app _ _ Hx). simpl.
  rewrite !rev_app_distr, <- app_assoc. now apply headText_app.
Qed.

Lemma truthy_length (s : jsstring) : truthy s = (0 <? length s).
Proof. destruct s; reflexivity. Qed.

Lemma truthy_solid (s : jsstring) : solid s = true -> truthy s = true.
Proof. destruct s; [discriminate | reflexivity]. Qed.

(** *** Words *)

Lemma nonEmpty_rev (s : jsstring) : nonEmpty (rev s) = nonEmpty s.
Proof. unfold nonEmpty. now rewrite length_rev. Qed.

Lemma spanLen_blank_firstn (k : nat) (s : jsstring) :
  k <= spanLen isSpace s -> blank (firstn k s) = true.
Proof.
  revert k. induction s as [|c s IH]; intros [|k] H; simpl in *; try reflexivity.
  destruct (isSpace c); [|lia]. simpl. apply IH. lia.
Qed.

(** The pieces of [split(/\s+/)] that are not empty are the words. *)
Lemma split_spaces_words (s : jsstring) :
  (forall prev cur,
      filter nonEmpty (split_loop re_spaces prev cur 0 s) = words_aux cur s)
  /\ (forall prev k, k <= spanLen isSpace s ->
      filter nonEmpty (split_loop re_spaces prev [] k s) = words_aux [] s).
Proof.
  induction s as [|c s [IH0 IHk]]; split.
  - intros prev cur. simpl. rewrite nonEmpty_rev. destruct cur; reflexivity.
  - intros prev k _. reflexivity.
  - intros prev cur. simpl. unfold re_spaces. simpl.
    destruct (isSpace c) eqn:Hc.
    + simpl. rewrite nonEmpty_rev, IHk by lia. destruct cur; reflexivity.
    + apply IH0.
  - intros prev [|k] Hk.
    + simpl. unfold re_spaces. simpl. simpl in Hk.
      destruct (isSpace c) eqn:Hc.
      * simpl. apply IHk. lia.
      * apply IH0.
    + simpl in *. destruct (isSpace c) eqn:Hc; [|lia].
      apply IHk. lia.
Qed.

Lemma words_aux_blank_suffix (q : jsstring) :
  blank q = true -> forall s cur, words_aux cur (s ++ q) = words_aux cur s.
Proof.
  intros Hq. induction s as [|c s IH]; intros cur; simpl.
  - revert cur. induction q as [|d q IHq]; intros cur; [reflexivity|].
    simpl in *. apply andb_true_iff in Hq as [Hd Hq]. rewrite Hd.
    specialize (IHq Hq). rewrite (IHq []). simpl. destruct cur; reflexivity.
  - destruct (isSpace c); [destruct cur|]; now rewrite IH.
Qed.

Lemma words_blank_prefix (p s : jsstring) :
  blank p = true -> words (p ++ s) = words s.
Proof.
  unfold words. induction p as [|c p IH]; simpl; intros H; [reflexivity|].
  apply andb_true_iff in H as [Hc Hp]. rewrite Hc. auto.
Qed.

Lemma words_trim (s : jsstring) : words (trim s) = words s.
Proof.
  unfold trim.
  destruct (trimStart_decomp s) as [p [E B]].
  destruct (trimEnd_decomp (trimStart s)) as [q [E' B']].
  rewrite E at 2. rewrite words_blank_prefix by exact B.
  rewrite E' at 2. unfold words. now rewrite words_aux_blank_suffix.
Qed.

Lemma countWords_words (s : jsstring) : countWords s = length (words s).
Proof.
  unfold countWords, split.
  change (fun word : jsstring => 0 <? length word) with nonEmpty.
  rewrite (proj1 (split_spaces_words (trim s))).
  change (words_aux [] (trim s)) with (words (trim s)).
  now rewrite words_trim.
Qed.

Lemma words_aux_app_sep (w : char) (b : jsstring) :
  isSpace w = true ->
  forall a cur, words_aux cur (a ++ w :: b) = words_aux cur a ++ words b.
Proof.
  intros Hw. induction a as [|c a IH]; intros cur; simpl.
  - rewrite Hw. destruct cur; reflexivity.
  - destruct (isSpace c); [destruct cur|]; rewrite IH; reflexivity.
Qed.

Lemma words_app_sep (w : char) (a b : jsstring) :
  isSpace w = true -> words (a ++ w :: b) = words a ++ words b.
Proof. intros Hw. now apply words_aux_app_sep. Qed.

Lemma countWords_app_sep (w : char) (a b : jsstring) :
  isSpace w = true -> countWords (a ++ w :: b) = countWords a + countWords b.
Proof.
  intros Hw. rewrite !countWords_words, (words_app_sep w a b Hw). apply length_app.
Qed.

Lemma countWords_trim (s : jsstring) : countWords (trim s) = countWords s.
Proof. now rewrite !countWords_words, words_trim. Qed.

Lemma words_aux_nonempty_cur (s : jsstring) (c : char) (cur : jsstring) :
  words_aux (c :: cur) s <> [].
Proof.
  revert c cur. induction s as [|d s IH]; intros c cur; simpl; [discriminate|].
  destruct (isSpace d); [discriminate | apply IH].
Qed.

Lemma words_nil_blank (s : jsstring) : words s = [] <-> blank s = true.
Proof.
  unfold words. induction s as [|c s IH]; simpl; [tauto|].
  destruct (isSpace c); simpl; [exact IH|].
  split; [|discriminate]. intros H. now apply words_aux_nonempty_cur in H.
Qed.

Lemma countWords_zero_blank (s : jsstring) : countWords s = 0 <-> blank s = true.
Proof.
  rewrite countWords_words, <- words_nil_blank. apply length_zero_iff_nil.
Qed.

Lemma solid_not_blank (s : jsstring) : solid s = true -> blank s = false.
Proof.
  destruct s as [|c s]; [discriminate|]. unfold solid. simpl.
  intros H. apply andb_true_iff in H as [H _]. apply negb_true_iff in H.
  now rewrite H.
Qed.

Lemma countWords_solid (s : jsstring) : solid s = true -> 1 <= countWords s.
Proof.
  intros H. apply solid_not_blank in H.
  destruct (countWords s) eqn:E; [|lia].
  apply countWords_zero_blank in E. congruence.
Qed.

Lemma truthy_trim_countWords (s : jsstring) :
  truthy (trim s) = (0 <? countWords s).
Proof.
  destruct (countWords s) eqn:E.
  - apply countWords_zero_blank in E. now rewrite trim_blank.
  - destruct (trim s) eqn:T; [|reflexivity].
    apply trim_nil_blank, countWords_zero_blank in T. lia.
Qed.

(** *** Pieces of a split *)

Section SplitFacts.

Variable matcher : option char -> jsstring -> option nat.

(** A text of white space only splits into pieces of white space only. *)
Lemma split_loop_blank (s : jsstring) :
  blank s = true ->
  forall prev cur skip,
    blank cur = true ->
    forallb blank (split_loop matcher prev cur skip s) = true.
Proof.
  induction s as [|c s IH]; intros Hs prev cur skip Hcur; simpl.
  - now rewrite blank_rev, Hcur.
  - simpl in Hs. apply andb_true_iff in Hs as [Hc Hs].
    destruct skip as [|k]; [|now apply IH].
    destruct (matcher prev (c :: s)) as [[|k]|].
    + apply IH; [assumption|]. simpl. now rewrite Hc.
    + simpl. rewrite blank_rev, Hcur. now apply IH.
    + apply IH; [assumption|]. simpl. now rewrite Hc.
Qed.

(** The separator consumes white space only. *)
Hypothesis matcher_spaces :
  forall prev s k, matcher prev s = Some (S k) -> S k <= spanLen isSpace s.

(** Then no text is lost: some piece holds a unit that is not white space
    as soon as the text does. *)
Lemma split_loop_keeps_text (s : jsstring) :
  forall prev cur skip,
    skip <= spanLen isSpace s ->
    blank cur && blank s = false ->
    existsb (fun piece => negb (blank piece))
            (split_loop matcher prev cur skip s) = true.
Proof.
  induction s as [|c s IH]; intros prev cur skip Hskip Htext; simpl.
  - rewrite blank_rev. rewrite andb_true_r in Htext. now rewrite Htext.
  - simpl in Hskip, Htext. destruct skip as [|k].
    + destruct (matcher prev (c :: s)) as [[|k]|] eqn:Hm.
      * apply IH; [lia|]. simpl.
        destruct (isSpace c), (blank cur), (blank s); auto.
      * apply matcher_spaces in Hm. simpl in Hm.
        destruct (isSpace c); [|lia]. simpl in *.
        rewrite blank_rev. destruct (blank cur); [|reflexivity]. simpl in *.
        apply IH; [lia | exact Htext].
      * apply IH; [lia|]. simpl.
        destruct (isSpace c), (blank cur), (blank s); auto.
    + destruct (isSpace c); [|lia]. simpl in Htext.
      apply IH; [lia | exact Htext].
Qed.

End SplitFacts.

Lemma re_spaces_spaces prev s k :
  re_spaces prev s = Some (S k) -> S k <= spanLen isSpace s.
Proof.
  unfold re_spaces. destruct (spanLen isSpace s); [discriminate|].
  intros H. injection H as <-. lia.
Qed.

Lemma re_sentence_end_spaces prev s k :
  re_sentence_end prev s = Some (S k) -> S k <= spanLen isSpace s.
Proof.
  unfold re_sentence_end. destruct prev as [p|]; [|discriminate].
  destruct (isTerminal p); [apply re_spaces_spaces | discriminate].
Qed.

Lemma lastNewline_le n s k : lastNewline n s = Some k -> k <= n.
Proof.
  revert s k. induction n as [|n IH]; intros [|c s] k; simpl; try discriminate.
  destruct (lastNewline n s) as [j|] eqn:E.
  - intros H. injection H as <-. specialize (IH _ _ E). lia.
  - destruct (c =? NEWLINE)%N; [|discriminate].
    intros H. injection H as <-. lia.
Qed.

Lemma re_blank_line_spaces prev s k :
  re_blank_line prev s = Some (S k) -> S k <= spanLen isSpace s.
Proof.
  unfold re_blank_line. destruct s as [|c s]; [discriminate|].
  destruct (c =? NEWLINE)%N eqn:Hc; [|discriminate].
  apply N.eqb_eq in Hc. subst c.
  destruct (lastNewline (spanLen isSpace s) s) as [j|] eqn:E; [|discriminate].
  intros H. injection H as <-. apply lastNewline_le in E.
  change (spanLen isSpace (NEWLINE :: s)) with (S (spanLen isSpace s)). lia.
Qed.

(** *** Sentences *)

Lemma splitIntoSentences_solid (text sentence : jsstring) :
  In sentence (splitIntoSentences text) -> solid sentence = true.
Proof.
  unfold splitIntoSentences. intros H.
  apply filter_In in H as [H Hne]. apply in_map_iff in H as [piece [<- _]].
  destruct (trim_nil_or_solid piece) as [E|E]; [|exact E].
  rewrite E in Hne. discriminate.
Qed.

Lemma filter_nil_forallb {A : Type} (f : A -> bool) (l : list A) :
  filter f l = [] <-> forallb (fun x => negb (f x)) l = true.
Proof.
  induction l as [|x l IH]; simpl; [tauto|].
  destruct (f x); simpl; [|exact IH].
  split; discriminate.
Qed.

Lemma nonEmpty_trim_blank (s : jsstring) :
  negb (0 <? length (trim s)) = blank s.
Proof.
  destruct (blank s) eqn:B.
  - now rewrite trim_blank.
  - destruct (trim s) eqn:T; [|reflexivity].
    apply trim_nil_blank in T. congruence.
Qed.

Lemma trimmed_pieces_empty (pieces : list jsstring) :
  filter (fun sentence => 0 <? length sentence) (map trim pieces) = []
  <-> forallb blank pieces = true.
Proof.
  rewrite filter_nil_forallb.
  induction pieces as [|p pieces IH]; simpl; [tauto|].
  rewrite nonEmpty_trim_blank, !andb_true_iff, IH. tauto.
Qed.

(** The splitter returns no sentence exactly for a text of white space. *)
Lemma splitIntoSentences_nil (text : jsstring) :
  splitIntoSentences text = [] <-> blank text = true.
Proof.
  unfold splitIntoSentences. rewrite trimmed_pieces_empty.
  split.
  - intros H. destruct (blank text) eqn:B; [reflexivity|]. exfalso.
    assert (K := split_loop_keeps_text re_sentence_end re_sentence_end_spaces
                   text None [] 0 (Nat.le_0_l _) B).
    apply existsb_exists in K as [piece [Hin Hp]].
    rewrite forallb_forall in H. apply H in Hin. rewrite Hin in Hp. discriminate.
  - intros B. now apply split_loop_blank.
Qed.

(** *** Sections *)

Lemma section_step_fold (parts : list jsstring) (acc : list Section) :
  fold_left section_step parts acc = acc ++ fold_left section_step parts [].
Proof.
  revert acc. induction parts as [|p parts IH]; intros acc; simpl.
  - now rewrite app_nil_r.
  - rewrite IH, (IH (section_step [] p)). unfold section_step.
    destruct (length (trim p) =? 0); simpl; [reflexivity|].
    now rewrite <- app_assoc.
Qed.

Lemma splitSongIntoSections_In (lyrics : jsstring) (s : Section) :
  In s (splitSongIntoSections lyrics) ->
  solid (s_content s) = true /\ s_type s = sectionType (s_content s).
Proof.
  unfold splitSongIntoSections.
  induction (split re_blank_line lyrics) as [|p parts IH]; simpl; [tauto|].
  rewrite section_step_fold. intros H. apply in_app_or in H as [H|H]; [|auto].
  unfold section_step in H. destruct (length (trim p) =? 0) eqn:E; [destruct H|].
  destruct H as [<-|[]]. simpl. split; [|reflexivity].
  destruct (trim_nil_or_solid p) as [T|T]; [|exact T].
  rewrite T in E. discriminate.
Qed.

Lemma splitSongIntoSections_blank (lyrics : jsstring) :
  blank lyrics = true -> splitSongIntoSections lyrics = [].
Proof.
  intros B. unfold splitSongIntoSections, split.
  assert (H := split_loop_blank re_blank_line lyrics B None [] 0 eq_refl).
  induction (split_loop re_blank_line None [] 0 lyrics) as [|p parts IH];
    [reflexivity|].
  simpl in *. apply andb_true_iff in H as [Hp Hparts].
  unfold section_step at 2. rewrite (trim_blank _ Hp). simpl. auto.
Qed.

(** * The merge pass *)

Lemma nth_error_skipn_cons {A : Type} (l : list A) (i : nat) (x : A) :
  nth_error l i = Some x -> skipn i l = x :: skipn (S i) l.
Proof.
  revert i. induction l as [|y l IH]; intros [|i]; simpl; try discriminate.
  - intros H. now injection H as ->.
  - apply IH.
Qed.

(** The loop of [mergeSmallChunks] from index [i] on computes the recursive
    pass on the chunks from [i] on, whenever the fuel covers them. *)
Lemma merge_loop_spec (fuel : nat) :
  forall chunks i acc,
    length chunks - i <= fuel ->
    merge_loop fuel chunks i acc = acc ++ merge_pass (skipn i chunks).
Proof.
  induction fuel as [|fuel IH]; intros chunks i acc Hfuel.
  - simpl. rewrite skipn_all2 by lia. now rewrite app_nil_r.
  - cbn [merge_loop]. destruct (nth_error chunks i) as [cur|] eqn:Hi.
    2:{ apply nth_error_None in Hi. rewrite skipn_all2 by lia.
        now rewrite app_nil_r. }
    assert (Hlt : i < length chunks) by (apply nth_error_Some; congruence).
    rewrite (nth_error_skipn_cons _ _ _ Hi).
    destruct (nth_error chunks (i + 1)) as [next|] eqn:Hn.
    + assert (Hlt' : i + 1 < length chunks) by (apply nth_error_Some; congruence).
      replace (S i) with (i + 1) by lia.
      rewrite (nth_error_skipn_cons _ _ _ Hn).
      replace (S (i + 1)) with (i + 2) by lia.
      assert (Hi1 : (i <? length chunks - 1) = true) by (apply Nat.ltb_lt; lia).
      rewrite Hi1, andb_true_r. cbn [merge_pass]. unfold mergeable.
      destruct (wordCount cur <? MIN_WORDS_PER_SLIDE); cbn [andb].
      * destruct (wordCount cur + wordCount next <=? MAX_WORDS_PER_SLIDE).
        -- rewrite IH by lia. rewrite <- app_assoc. reflexivity.
        -- rewrite IH by lia. rewrite <- app_assoc. cbn [app].
           rewrite (nth_error_skipn_cons _ _ _ Hn).
           replace (S (i + 1)) with (i + 2) by lia. reflexivity.
      * rewrite IH by lia. rewrite <- app_assoc. cbn [app].
        rewrite (nth_error_skipn_cons _ _ _ Hn).
        replace (S (i + 1)) with (i + 2) by lia. reflexivity.
    + apply nth_error_None in Hn.
      assert (Hi1 : (i <? length chunks - 1) = false) by (apply Nat.ltb_ge; lia).
      rewrite Hi1, andb_false_r. rewrite IH by lia.
      rewrite (skipn_all2 (n := S i) chunks) by lia.
      rewrite skipn_all2 by lia. rewrite <- app_assoc. reflexivity.
Qed.

Lemma mergeSmallChunks_pass (chunks : list Chunk) :
  mergeSmallChunks chunks = merge_pass chunks.
Proof.
  unfold mergeSmallChunks. rewrite merge_loop_spec by lia. reflexivity.
Qed.

Lemma merge_trace_chunks (chunks : list Chunk) :
  map snd (merge_trace chunks) = merge_pass chunks
  /\ forall c, map snd (merge_trace (c :: chunks)) = merge_pass (c :: chunks).
Proof.
  induction chunks as [|d rest [IH IH']]; split; try reflexivity.
  - apply IH'.
  - intros c. simpl. destruct (mergeable c d); simpl; f_equal.
    + destruct rest as [|e rest]; [reflexivity|]. exact IH.
    + apply IH'.
Qed.

Lemma merge_trace_head (c : Chunk) (rest : list Chunk) (b : Chunk) tl :
  merge_trace (c :: rest) = (false, b) :: tl -> b = c.
Proof.
  simpl. destruct rest as [|d rest].
  - intros H. now injection H.
  - destruct (mergeable c d); intros H; [discriminate | now injection H].
Qed.

Lemma merge_trace_neighbours (chunks : list Chunk) :
  (forall a b, unmergedNeighbours (merge_trace chunks) a b -> mergeable a b = false)
  /\ forall c a b, unmergedNeighbours (merge_trace (c :: chunks)) a b ->
                   mergeable a b = false.
Proof.
  induction chunks as [|d rest [IH IH']]; split.
  - intros a b [pre [post H]]. destruct pre; discriminate.
  - intros c a b [pre [post H]]. simpl in H.
    destruct pre as [|p [|q pre]]; discriminate.
  - apply IH'.
  - intros c a b [pre [post H]].
    change (merge_trace (c :: d :: rest))
      with (if mergeable c d then (true, mergedChunk c d) :: merge_trace rest
            else (false, c) :: merge_trace (d :: rest)) in H.
    destruct (mergeable c d) eqn:M.
    + destruct pre as [|p pre]; [discriminate|].
      injection H as _ H. apply IH. now exists pre, post.
    + destruct pre as [|p pre].
      * injection H as <- H. apply merge_trace_head in H. now subst b.
      * injection H as _ H. apply (IH' d). now exists pre, post.
Qed.

(** * Runs of units *)

Lemma join_cons (sep x : jsstring) (l : list jsstring) :
  l <> [] -> join sep (x :: l) = x ++ sep ++ join sep l.
Proof. destruct l; [congruence | reflexivity]. Qed.

Lemma join_app (sep : jsstring) (r1 r2 : list jsstring) :
  r1 <> [] -> r2 <> [] ->
  join sep (r1 ++ r2) = join sep r1 ++ sep ++ join sep r2.
Proof.
  intros H1 H2. induction r1 as [|x r1 IH]; [congruence|].
  destruct r1 as [|y r1].
  - simpl app. now rewrite join_cons.
  - change ((x :: y :: r1) ++ r2) with (x :: (y :: r1) ++ r2).
    rewrite join_cons by discriminate. rewrite IH by discriminate.
    rewrite (join_cons sep x (y :: r1)) by discriminate.
    now rewrite <- !app_assoc.
Qed.

Lemma runWords_app (r1 r2 : list jsstring) :
  runWords (r1 ++ r2) = runWords r1 + runWords r2.
Proof. unfold runWords. now rewrite map_app, list_sum_app. Qed.

Lemma solid_join (sep : jsstring) (run : list jsstring) :
  Forall (fun u => solid u = true) run -> run <> [] ->
  solid (join sep run) = true.
Proof.
  induction 1 as [|x run Hx Hrun IH]; [congruence|]. intros _.
  destruct run as [|y run]; [exact Hx|].
  rewrite join_cons by discriminate. apply solid_app; [exact Hx|].
  apply IH. discriminate.
Qed.

Lemma countWords_nil : countWords [] = 0.
Proof. reflexivity. Qed.

Lemma countWords_join (w : char) (run : list jsstring) :
  isSpace w = true -> countWords (join [w] run) = runWords run.
Proof.
  intros Hw. induction run as [|x run IH]; [reflexivity|].
  destruct run as [|y run].
  - unfold runWords. simpl. lia.
  - rewrite join_cons by discriminate.
    change (x ++ [w] ++ join [w] (y :: run))
      with (x ++ w :: join [w] (y :: run)).
    rewrite (countWords_app_sep w x _ Hw), IH. reflexivity.
Qed.

(** On units that are not empty the accumulated string is the join. *)
Lemma foldUnits_snoc (sep : jsstring) (run : list jsstring) (u : jsstring) :
  foldUnits sep (run ++ [u]) = appendUnit sep (foldUnits sep run) u.
Proof. unfold foldUnits. now rewrite fold_left_app. Qed.

Lemma join_snoc_append (sep : jsstring) (run : list jsstring) (u : jsstring) :
  Forall (fun x => solid x = true) run ->
  join sep (run ++ [u]) = appendUnit sep (join sep run) u.
Proof.
  intros H. unfold appendUnit. destruct run as [|x run]; [reflexivity|].
  rewrite join_app by discriminate.
  rewrite (truthy_solid _ (solid_join sep _ H ltac:(discriminate))).
  reflexivity.
Qed.

(** In general the two differ by line feeds in front, which [trim] removes. *)
Lemma join_foldUnits (w : char) (run : list jsstring) :
  exists k, join [w] run = repeat w k ++ foldUnits [w] run.
Proof.
  induction run as [|u run IH] using rev_ind; [now exists 0|].
  destruct IH as [k E]. rewrite foldUnits_snoc. unfold appendUnit.
  destruct run as [|x run]; [now exists 0|].
  rewrite join_app by discriminate. rewrite E.
  destruct (foldUnits [w] (x :: run)) as [|c t].
  - exists (S k). simpl. rewrite app_nil_r.
    change (w :: u) with ([w] ++ u). rewrite app_assoc.
    change [w] with (repeat w 1). rewrite <- repeat_app.
    replace (k + 1) with (S k) by lia. reflexivity.
  - exists k. simpl truthy. cbv iota. now rewrite <- !app_assoc.
Qed.

Lemma blank_repeat (w : char) (k : nat) :
  isSpace w = true -> blank (repeat w k) = true.
Proof. intros Hw. induction k; simpl; [reflexivity | now rewrite Hw]. Qed.

Lemma trim_foldUnits (w : char) (run : list jsstring) :
  isSpace w = true -> trim (foldUnits [w] run) = trim (join [w] run).
Proof.
  intros Hw. destruct (join_foldUnits w run) as [k E]. rewrite E.
  symmetry. apply trim_blank_prefix. now apply blank_repeat.
Qed.

Lemma countWords_foldUnits (w : char) (run : list jsstring) :
  isSpace w = true -> countWords (foldUnits [w] run) = runWords run.
Proof.
  intros Hw. rewrite <- countWords_trim, (trim_foldUnits _ _ Hw).
  rewrite countWords_trim. now apply countWords_join.
Qed.

(** * Reading mode packs whole sentences *)

Section Reading.

Variable units : list jsstring.
Hypothesis units_solid : Forall (fun u => solid u = true) units.

Lemma incl_solid (acc : list jsstring) :
  incl acc units -> Forall (fun u => solid u = true) acc.
Proof.
  intros H. apply Forall_forall. intros x Hx.
  rewrite Forall_forall in units_solid. auto.
Qed.

Lemma pushChunk_whole (chunks : list Chunk) (acc : list jsstring) :
  Forall (wholeUnits units [SPACE]) chunks ->
  incl acc units ->
  Forall (wholeUnits units [SPACE])
         (pushChunk chunks (join [SPACE] acc) (runWords acc)).
Proof.
  intros Hc Hacc. unfold pushChunk. destruct acc as [|x acc]; [exact Hc|].
  assert (S : solid (join [SPACE] (x :: acc)) = true)
    by (apply solid_join; [now apply incl_solid | discriminate]).
  rewrite (solid_trim _ S), (truthy_solid _ S).
  apply Forall_app. split; [exact Hc|]. constructor; [|constructor].
  exists (x :: acc). repeat split; [discriminate | exact Hacc].
Qed.

Lemma pack_sentence_inv (st : PackState) (sentence : jsstring) :
  In sentence units -> readingInv units st ->
  readingInv units (pack_sentence st sentence).
Proof.
  intros Hin [Hchunks [acc [Hacc [Ecur Ecount]]]].
  assert (Happ : appendUnit [SPACE] (currentChunk st) sentence
                 = join [SPACE] (acc ++ [sentence])).
  { rewrite Ecur. symmetry. apply join_snoc_append. now apply incl_solid. }
  assert (Hincl : incl (acc ++ [sentence]) units).
  { apply incl_app; [exact Hacc|]. intros x [<-|[]]. exact Hin. }
  assert (Hsum : currentWordCount st + countWords sentence
                 = runWords (acc ++ [sentence])).
  { rewrite runWords_app, Ecount. unfold runWords. simpl. lia. }
  unfold pack_sentence.
  destruct ((MAX_WORDS_PER_SLIDE <? currentWordCount st + countWords sentence)
            && (0 <? currentWordCount st)).
  - split; simpl.
    + destruct ((currentWordCount st <? MIN_WORDS_PER_SLIDE)
                && (countWords sentence <=? 15)).
      * rewrite Happ, Hsum. now apply pushChunk_whole.
      * rewrite Ecur, Ecount. now apply pushChunk_whole.
    + exists [sentence]. repeat split.
      * intros x [<-|[]]. exact Hin.
      * unfold runWords. simpl. lia.
  - split; simpl; [exact Hchunks|].
    exists (acc ++ [sentence]). auto.
Qed.

Lemma fold_pack_sentence_inv (l : list jsstring) :
  incl l units ->
  forall st, readingInv units st ->
             readingInv units (fold_left pack_sentence l st).
Proof.
  induction l as [|x l IH]; intros Hl st Hst; [exact Hst|].
  simpl. apply IH.
  - intros y Hy. apply Hl. now right.
  - apply pack_sentence_inv; [apply Hl; now left | exact Hst].
Qed.

Lemma packSentences_whole :
  Forall (wholeUnits units [SPACE]) (packSentences units).
Proof.
  unfold packSentences.
  destruct (fold_pack_sentence_inv units (incl_refl units) (mkPack [] [] 0))
    as [Hchunks [acc [Hacc [Ecur Ecount]]]].
  { split; [constructor|]. exists []. repeat split. apply incl_nil_l. }
  rewrite Ecur, Ecount. now apply pushChunk_whole.
Qed.

Lemma mergedChunk_whole (c d : Chunk) :
  wholeUnits units [SPACE] c -> wholeUnits units [SPACE] d ->
  wholeUnits units [SPACE] (mergedChunk c d).
Proof.
  intros [r1 [N1 [I1 [C1 W1]]]] [r2 [N2 [I2 [C2 W2]]]].
  exists (r1 ++ r2). repeat split.
  - destruct r1; [congruence | discriminate].
  - now apply incl_app.
  - simpl. rewrite C1, C2. symmetry. now apply join_app.
  - simpl. rewrite W1, W2. symmetry. apply runWords_app.
Qed.

Lemma merge_pass_whole (chunks : list Chunk) :
  (Forall (wholeUnits units [SPACE]) chunks ->
   Forall (wholeUnits units [SPACE]) (merge_pass chunks))
  /\ forall c, Forall (wholeUnits units [SPACE]) (c :: chunks) ->
               Forall (wholeUnits units [SPACE]) (merge_pass (c :: chunks)).
Proof.
  induction chunks as [|d rest [IH IH']]; split.
  - auto.
  - auto.
  - apply IH'.
  - intros c H. inversion H as [|? ? Hc Hrest]; subst.
    inversion Hrest as [|? ? Hd Hrest']; subst.
    change (merge_pass (c :: d :: rest))
      with (if mergeable c d then mergedChunk c d :: merge_pass rest
            else c :: merge_pass (d :: rest)).
    destruct (mergeable c d); constructor; auto using mergedChunk_whole.
Qed.

Lemma wholeUnits_wellFormed (c : Chunk) :
  wholeUnits units [SPACE] c -> wellFormed c.
Proof.
  intros [run [N [I [C W]]]].
  assert (S : solid (content c) = true)
    by (rewrite C; apply solid_join; [now apply incl_solid | exact N]).
  assert (E : wordCount c = countWords (content c))
    by (rewrite W, C; symmetry; now apply countWords_join).
  repeat split.
  - now apply solid_nonempty.
  - now apply solid_trim.
  - exact E.
  - rewrite E. now apply countWords_solid.
Qed.

End Reading.

(** * The packer of the specification *)

Ltac acc_simpl :=
  cbn [Spec42.run Spec42.emitted Spec42.run_count] in *.

Section PackerFacts.

Variable U : Type.
Variable wc : U -> nat.
Variable overflow : bool.

Lemma runCount_app (r1 r2 : list U) :
  runCount wc (r1 ++ r2) = runCount wc r1 + runCount wc r2.
Proof. unfold runCount. now rewrite map_app, list_sum_app. Qed.

Lemma runCount_single (u : U) : runCount wc [u] = wc u.
Proof. unfold runCount. simpl. lia. Qed.

Lemma step_inv (done : list U) (a : Spec42.Acc U) (u : U) :
  packInv wc done a ->
  packInv wc (done ++ [u]) (Spec42.step wc overflow a u).
Proof.
  intros [Hdone [Hcount Hruns]]. unfold Spec42.step.
  assert (Happend :
            packInv wc (done ++ [u])
              (Spec42.mkAcc (Spec42.emitted a) (Spec42.run a ++ [u])
                            (Spec42.run_count a + wc u))).
  { repeat split; acc_simpl.
    - now rewrite app_assoc, Hdone.
    - now rewrite runCount_app, runCount_single, Hcount.
    - exact Hruns. }
  destruct (MAX_WORDS_PER_SLIDE <? Spec42.run_count a + wc u);
    cbn [andb]; [|exact Happend].
  destruct (0 <? Spec42.run_count a) eqn:Hpos; [|exact Happend].
  apply Nat.ltb_lt in Hpos.
  destruct (overflow && (Spec42.run_count a <? MIN_WORDS_PER_SLIDE)
            && (wc u <=? 15)); repeat split; acc_simpl.
  - rewrite concat_app. cbn [concat]. rewrite !app_nil_r, <- Hdone.
    now rewrite app_assoc.
  - apply Forall_app. split; [exact Hruns|]. constructor; [|constructor].
    rewrite runCount_app, <- Hcount. lia.
  - rewrite concat_app. cbn [concat]. rewrite app_nil_r, <- Hdone.
    now rewrite <- app_assoc.
  - now rewrite runCount_single.
  - apply Forall_app. split; [exact Hruns|]. constructor; [|constructor].
    rewrite <- Hcount. exact Hpos.
Qed.

Lemma fold_step_inv (units : list U) :
  forall done a,
    packInv wc done a ->
    packInv wc (done ++ units) (fold_left (Spec42.step wc overflow) units a).
Proof.
  induction units as [|u units IH]; intros done a H; simpl.
  - now rewrite app_nil_r.
  - replace (done ++ u :: units) with ((done ++ [u]) ++ units)
      by now rewrite <- app_assoc.
    apply IH. now apply step_inv.
Qed.

(** The runs hold every unit once, in order, except units without words at
    the very end; each run has words. *)
Lemma greedy_pack_partition (units : list U) :
  exists rest,
    concat (Spec42.greedy_pack wc overflow units) ++ rest = units /\
    runCount wc rest = 0 /\
    Forall (fun r => 0 < runCount wc r) (Spec42.greedy_pack wc overflow units).
Proof.
  unfold Spec42.greedy_pack, Spec42.finish.
  destruct (fold_step_inv units [] (Spec42.mkAcc [] [] 0))
    as [Hdone [Hcount Hruns]].
  { repeat split. constructor. }
  simpl in Hdone.
  destruct (0 <? Spec42.run_count _) eqn:Hpos.
  - exists []. apply Nat.ltb_lt in Hpos. repeat split.
    + now rewrite concat_app, app_nil_r; cbn; rewrite app_nil_r.
    + apply Forall_app. split; [exact Hruns|]. constructor; [|constructor].
      now rewrite <- Hcount.
  - exists (Spec42.run (fold_left (Spec42.step wc overflow) units
                                   (Spec42.mkAcc [] [] 0))).
    apply Nat.ltb_ge in Hpos. repeat split.
    + exact Hdone.
    + rewrite <- Hcount. lia.
    + exact Hruns.
Qed.

(** When the last unit has words, nothing is left out. *)
Lemma greedy_pack_partition_exact (init : list U) (l : U) :
  0 < wc l ->
  concat (Spec42.greedy_pack wc overflow (init ++ [l])) = init ++ [l].
Proof.
  intros Hl. unfold Spec42.greedy_pack, Spec42.finish.
  destruct (fold_step_inv (init ++ [l]) [] (Spec42.mkAcc [] [] 0))
    as [Hdone [Hcount _]].
  { repeat split. constructor. }
  cbn [app] in Hdone.
  destruct (0 <? Spec42.run_count _) eqn:Hpos.
  - rewrite concat_app. cbn [concat]. now rewrite app_nil_r.
  - apply Nat.ltb_ge in Hpos.
    destruct (Spec42.run _) as [|x run] eqn:Hrun.
    + now rewrite app_nil_r in Hdone.
    + exfalso.
      destruct (exists_last (l := x :: run) ltac:(discriminate))
        as [run' [y Ey]].
      rewrite Ey, app_assoc in Hdone. apply app_inj_tail in Hdone as [_ ->].
      rewrite Hcount, Ey, runCount_app, runCount_single in Hpos. lia.
Qed.

(** Units that fit together are appended one after the other. *)
Lemma fold_step_fits (units : list U) :
  forall a,
    Spec42.run_count a + runCount wc units <= MAX_WORDS_PER_SLIDE ->
    fold_left (Spec42.step wc overflow) units a
    = Spec42.mkAcc (Spec42.emitted a) (Spec42.run a ++ units)
                   (Spec42.run_count a + runCount wc units).
Proof.
  induction units as [|u units IH]; intros a H; simpl.
  - rewrite app_nil_r. unfold runCount. simpl. rewrite Nat.add_0_r.
    now destruct a.
  - unfold runCount in H. simpl in H. fold (runCount wc units) in H.
    assert (E : Spec42.step wc overflow a u
                = Spec42.mkAcc (Spec42.emitted a) (Spec42.run a ++ [u])
                               (Spec42.run_count a + wc u)).
    { unfold Spec42.step.
      replace (MAX_WORDS_PER_SLIDE <? Spec42.run_count a + wc u) with false
        by (symmetry; apply Nat.ltb_ge; lia).
      reflexivity. }
    rewrite E, IH by (simpl; lia). simpl.
    rewrite <- app_assoc. unfold runCount. simpl. f_equal. lia.
Qed.

Lemma greedy_pack_fits (units : list U) :
  0 < runCount wc units -> runCount wc units <= MAX_WORDS_PER_SLIDE ->
  Spec42.greedy_pack wc overflow units = [units].
Proof.
  intros Hpos Hmax. unfold Spec42.greedy_pack.
  rewrite fold_step_fits by (simpl; lia). unfold Spec42.finish. simpl.
  apply Nat.ltb_lt in Hpos. now rewrite Hpos.
Qed.

(** A single unit with words is a run of its own, whatever its count. *)
Lemma greedy_pack_fits_or_single (u : U) :
  0 < runCount wc [u] -> Spec42.greedy_pack wc overflow [u] = [[u]].
Proof.
  rewrite runCount_single. intros Hpos.
  unfold Spec42.greedy_pack. cbn [fold_left]. unfold Spec42.step. acc_simpl.
  change (0 <? 0) with false. rewrite andb_false_r.
  unfold Spec42.finish. acc_simpl. cbn [app plus].
  apply Nat.ltb_lt in Hpos. now rewrite Hpos.
Qed.

End PackerFacts.

(** * Song mode follows the packer without the overflow exception *)

Lemma verseOfRun_fold (ty : SectionType) (run : list jsstring) :
  mkVerse (trim (foldUnits [NEWLINE] run)) (runWords run) ty = verseOfRun ty run.
Proof. unfold verseOfRun. now rewrite (trim_foldUnits NEWLINE). Qed.

Lemma pack_line_sim (ty : SectionType) (pre : list Verse) (st : SongState)
      (a : Spec42.Acc jsstring) (line : jsstring) :
  songSim ty pre st a ->
  songSim ty pre (pack_line ty st line) (Spec42.step countWords false a line).
Proof.
  intros [Hverses [Hcur [Hcount Hsum]]].
  unfold pack_line, Spec42.step. rewrite Hcount. cbn [andb].
  destruct ((MAX_WORDS_PER_SLIDE <? Spec42.run_count a + countWords line)
            && (0 <? Spec42.run_count a)); repeat split; acc_simpl; simpl.
  - rewrite Hverses, Hcur, Hsum, map_app, <- app_assoc. simpl.
    now rewrite verseOfRun_fold.
  - unfold runWords. simpl. lia.
  - exact Hverses.
  - now rewrite foldUnits_snoc, Hcur.
  - rewrite runWords_app, Hsum. unfold runWords. simpl. lia.
Qed.

Lemma fold_pack_line_sim (ty : SectionType) (pre : list Verse)
      (lines : list jsstring) :
  forall st a,
    songSim ty pre st a ->
    songSim ty pre (fold_left (pack_line ty) lines st)
            (fold_left (Spec42.step countWords false) lines a).
Proof.
  induction lines as [|line lines IH]; intros st a H; [exact H|].
  simpl. apply IH. now apply pack_line_sim.
Qed.

(** The path of [optimizeSongForWordCount] that divides a section. *)
Lemma song_lines_spec (ty : SectionType) (pre : list Verse)
      (lines : list jsstring) :
  (let st := fold_left (pack_line ty) lines (mkSong pre [] 0) in
   if truthy (trim (currentVerse st))
   then optimizedVerses st ++
        [mkVerse (trim (currentVerse st)) (currentLineCount st) ty]
   else optimizedVerses st)
  = pre ++ map (verseOfRun ty) (Spec42.greedy_pack countWords false lines).
Proof.
  cbv zeta.
  destruct (fold_pack_line_sim ty pre lines (mkSong pre [] 0)
              (Spec42.mkAcc [] [] 0)) as [Hverses [Hcur [Hcount Hsum]]].
  { repeat split. simpl. now rewrite app_nil_r. }
  unfold Spec42.greedy_pack, Spec42.finish.
  rewrite truthy_trim_countWords, Hverses, Hcur, Hcount.
  rewrite (countWords_foldUnits NEWLINE) by reflexivity. rewrite <- Hsum.
  destruct (0 <? Spec42.run_count _).
  - rewrite map_app, app_assoc, Hsum. simpl. now rewrite verseOfRun_fold.
  - reflexivity.
Qed.

(** *** Lines of a section *)

Lemma split_loop_not_nil matcher prev cur skip s :
  split_loop matcher prev cur skip s <> [].
Proof.
  revert prev cur skip. induction s as [|c s IH]; intros prev cur skip; simpl.
  - discriminate.
  - destruct skip; [|apply IH].
    destruct (matcher prev (c :: s)) as [[|k]|]; try apply IH. discriminate.
Qed.

(** Joining the lines with line feeds gives the text back. *)
Lemma split_newline_join (s : jsstring) :
  forall prev cur,
    join [NEWLINE] (split_loop sep_newline prev cur 0 s) = rev cur ++ s.
Proof.
  induction s as [|c s IH]; intros prev cur; simpl.
  - now rewrite app_nil_r.
  - destruct (c =? NEWLINE)%N eqn:Hc.
    + apply N.eqb_eq in Hc. subst c.
      rewrite join_cons by apply split_loop_not_nil.
      rewrite IH. reflexivity.
    + rewrite IH. simpl. now rewrite <- app_assoc.
Qed.

Lemma join_split_newline (s : jsstring) :
  join [NEWLINE] (split sep_newline s) = s.
Proof. apply (split_newline_join s None []). Qed.

(** A text without line feed is a single line. *)
Lemma split_newline_single (s : jsstring) :
  existsb (N.eqb NEWLINE) s = false ->
  forall prev cur, split_loop sep_newline prev cur 0 s = [rev cur ++ s].
Proof.
  induction s as [|c s IH]; intros H prev cur.
  - simpl. now rewrite app_nil_r.
  - cbn [existsb] in H. apply orb_false_iff in H as [Hc Hs].
    cbn [split_loop sep_newline]. rewrite N.eqb_sym, Hc.
    rewrite IH by exact Hs. cbn [rev]. now rewrite <- app_assoc.
Qed.

Lemma runWords_lines (s : jsstring) :
  runWords (split sep_newline s) = countWords s.
Proof.
  rewrite <- (countWords_join NEWLINE) by reflexivity.
  now rewrite join_split_newline.
Qed.

(** The last line of a trimmed section has words. *)
Lemma lines_last_words (c : jsstring) :
  solid c = true ->
  exists init l, split sep_newline c = init ++ [l] /\ 0 < countWords l.
Proof.
  intros Hsolid.
  destruct (exists_last (split_loop_not_nil sep_newline None [] 0 c))
    as [init [l E]].
  exists init, l. split; [exact E|].
  assert (J := join_split_newline c). unfold split in J. rewrite E in J.
  destruct init as [|x init].
  - simpl in J. subst l. now apply countWords_solid.
  - rewrite join_app in J by discriminate.
    change (join [NEWLINE] [l]) with l in J. subst c.
    unfold solid in Hsolid. apply andb_true_iff in Hsolid as [_ Hend].
    rewrite !rev_app_distr in Hend.
    destruct (countWords l) eqn:Hl; [|lia]. exfalso.
    apply countWords_zero_blank in Hl. rewrite <- blank_rev in Hl.
    destruct (rev l) as [|d t]; [vm_compute in Hend; discriminate|].
    cbn [app headText] in Hend. cbn [blank forallb] in Hl.
    apply negb_true_iff in Hend. rewrite Hend in Hl. discriminate.
Qed.

(** The chunks of a section are those of the packer without the overflow
    exception on the lines of the section, on both paths. *)
Lemma sectionVerses_spec (s : Section) :
  solid (s_content s) = true ->
  sectionVerses s
  = map (verseOfRun (s_type s))
        (Spec42.greedy_pack countWords false (split sep_newline (s_content s))).
Proof.
  intros Hsolid. unfold sectionVerses, pack_section.
  destruct (countWords (s_content s) <=? MAX_WORDS_PER_SLIDE) eqn:Hfit.
  - apply Nat.leb_le in Hfit.
    rewrite greedy_pack_fits.
    + simpl. unfold verseOfRun.
      now rewrite join_split_newline, runWords_lines, (solid_trim _ Hsolid).
    + change (runCount countWords) with runWords. rewrite runWords_lines.
      now apply countWords_solid.
    + change (runCount countWords) with runWords. now rewrite runWords_lines.
  - apply (song_lines_spec (s_type s) []).
Qed.

Lemma pack_section_app (pre : list Verse) (s : Section) :
  pack_section pre s = pre ++ sectionVerses s.
Proof.
  unfold sectionVerses, pack_section.
  destruct (countWords (s_content s) <=? MAX_WORDS_PER_SLIDE); [reflexivity|].
  rewrite (song_lines_spec (s_type s) pre), (song_lines_spec (s_type s) []).
  reflexivity.
Qed.

(** The chunks of a song are the chunks of its sections, one section after
    the other. *)
Lemma optimizeSong_sections (lyrics : jsstring) :
  optimizeSongForWordCount lyrics
  = flat_map sectionVerses (splitSongIntoSections lyrics).
Proof.
  unfold optimizeSongForWordCount.
  assert (H : forall l pre,
             fold_left pack_section l pre = pre ++ flat_map sectionVerses l).
  { induction l as [|s l IH]; intros pre; simpl.
    - now rewrite app_nil_r.
    - now rewrite IH, pack_section_app, <- app_assoc. }
  apply (H _ []).
Qed.

Lemma verseOfRun_wellFormed (ty : SectionType) (run : list jsstring) :
  0 < runWords run -> wellFormedVerse (verseOfRun ty run).
Proof.
  intros Hpos. unfold wellFormedVerse, wellFormed. simpl.
  assert (E : countWords (trim (join [NEWLINE] run)) = runWords run)
    by (rewrite countWords_trim; now apply countWords_join).
  repeat split.
  - intros T. apply trim_nil_blank, countWords_zero_blank in T.
    rewrite (countWords_join NEWLINE) in T by reflexivity. lia.
  - apply trim_trim.
  - now rewrite E.
  - lia.
Qed.

(** * Classification of sections *)

Lemma hd_split_newline (s : jsstring) :
  forall prev cur,
    hd [] (split_loop sep_newline prev cur 0 s) = rev cur ++ takeLine s.
Proof.
  induction s as [|c s IH]; intros prev cur.
  - simpl. now rewrite app_nil_r.
  - cbn [split_loop sep_newline takeLine].
    destruct (c =? NEWLINE)%N.
    + simpl. now rewrite app_nil_r.
    + rewrite IH. cbn [rev]. now rewrite <- app_assoc.
Qed.

Lemma firstLine_takeLine (s : jsstring) : firstLine s = takeLine s.
Proof. apply (hd_split_newline s None []). Qed.

(** A prefix without line feed is a prefix of the first line. *)
Lemma startsWith_takeLine (pat : jsstring) :
  existsb (N.eqb NEWLINE) pat = false ->
  forall s, startsWith (takeLine s) pat = startsWith s pat.
Proof.
  induction pat as [|p pat IH]; intros Hpat s.
  - now destruct (takeLine s), s.
  - cbn [existsb] in Hpat. apply orb_false_iff in Hpat as [Hp Hpat].
    destruct s as [|c s]; [reflexivity|].
    cbn [takeLine]. destruct (c =? NEWLINE)%N eqn:Hc.
    + apply N.eqb_eq in Hc. subst c. cbn [startsWith]. now rewrite Hp.
    + cbn [startsWith]. now rewrite IH.
Qed.

Lemma digitsThenDot_takeLine (s : jsstring) :
  digitsThenDot (takeLine s) = digitsThenDot s.
Proof.
  induction s as [|c s IH]; [reflexivity|].
  cbn [takeLine]. destruct (c =? NEWLINE)%N eqn:Hc.
  - apply N.eqb_eq in Hc. now subst c.
  - cbn [digitsThenDot]. now rewrite IH.
Qed.

Lemma matchNumber_takeLine (s : jsstring) :
  matchNumber (takeLine s) = matchNumber s.
Proof. unfold matchNumber. now rewrite digitsThenDot_takeLine. Qed.

Lemma digitsThenDot_spec (s digits : jsstring) :
  digitsThenDot s = Some digits <->
  forallb isDigit digits = true /\ exists rest, s = digits ++ lit "." ++ rest.
Proof.
  split.
  - revert digits. induction s as [|c s IH]; intros digits; [discriminate|].
    cbn [digitsThenDot]. destruct (isDigit c) eqn:Hd.
    + destruct (digitsThenDot s) as [ds|]; [|discriminate].
      intros H. injection H as <-. destruct (IH ds eq_refl) as [Hds [rest ->]].
      split; [simpl; now rewrite Hd|]. now exists rest.
    + destruct (c =? 46)%N eqn:Hc; [|discriminate].
      apply N.eqb_eq in Hc. subst c. intros H. injection H as <-.
      split; [reflexivity|]. now exists s.
  - intros [Hd [rest ->]]. induction digits as [|d ds IH]; [reflexivity|].
    cbn [forallb] in Hd. apply andb_true_iff in Hd as [Hd Hds].
    change ((d :: ds) ++ lit "." ++ rest) with (d :: ds ++ lit "." ++ rest).
    cbn [digitsThenDot]. now rewrite Hd, (IH Hds).
Qed.

Lemma matchNumber_spec (s : jsstring) :
  (exists digits, matchNumber s = Some digits) <-> startsWithNumeral s.
Proof.
  unfold matchNumber, startsWithNumeral. split.
  - intros [digits H].
    destruct (digitsThenDot s) as [[|d ds]|] eqn:E; try discriminate.
    apply digitsThenDot_spec in E as [Hd [rest ->]].
    exists (d :: ds), rest. repeat split; [discriminate | exact Hd].
  - intros [digits [rest [Hne [Hd ->]]]].
    rewrite (proj2 (digitsThenDot_spec _ digits))
      by (split; [exact Hd | now exists rest]).
    destruct digits; [congruence|]. eauto.
Qed.

(** The tests on the start of a section see its first line only; the search
    for "refrain" reads the whole section. *)
Lemma sectionType_lines (c : jsstring) :
  sectionType c
  = if startsWith (firstLine c) (lit "R/")
       || includes (toLowerCase c) (lit "refrain")
    then refrain
    else match matchNumber (firstLine c) with
         | Some _ => numbered_verse
         | None => verse
         end.
Proof.
  unfold sectionType. rewrite firstLine_takeLine.
  rewrite startsWith_takeLine by reflexivity.
  now rewrite matchNumber_takeLine.
Qed.

(** * Titles *)

Lemma mapi_from_length {A B : Type} (f : A -> nat -> B) (l : list A) :
  forall k, length (mapi_from f k l) = length l.
Proof. induction l as [|x l IH]; intros k; simpl; [reflexivity | now rewrite IH]. Qed.

Lemma mapi_from_nth {A B : Type} (f : A -> nat -> B) (l : list A) :
  forall k i x,
    nth_error l i = Some x ->
    nth_error (mapi_from f k l) i = Some (f x (k + i)).
Proof.
  induction l as [|y l IH]; intros k [|i] x; simpl; try discriminate.
  - intros H. injection H as ->. now rewrite Nat.add_0_r.
  - intros H. rewrite (IH (S k) i x H). f_equal. f_equal. lia.
Qed.

Lemma uintChars_inj (d e : Decimal.uint) : uintChars d = uintChars e -> d = e.
Proof.
  revert e. induction d; destruct e; simpl; intros H;
    try discriminate; try reflexivity;
    injection H as H; f_equal; auto.
Qed.

Lemma numberToString_inj (n m : nat) :
  numberToString n = numberToString m -> n = m.
Proof.
  unfold numberToString. intros H. apply uintChars_inj in H.
  rewrite <- (DecimalNat.Unsigned.of_to n), <- (DecimalNat.Unsigned.of_to m).
  now rewrite H.
Qed.

Lemma titleSuffix_inj (p q total : nat) :
  titleSuffix p total = titleSuffix q total -> p = q.
Proof.
  unfold titleSuffix. intros H. apply app_inv_head in H.
  apply app_inv_tail in H. now apply numberToString_inj.
Qed.

Lemma title_suffix (v : Verse) (songTitle : jsstring) (index total : nat) :
  exists base,
    generateOptimizedVerseTitle v songTitle index total
    = base ++ titleSuffix index total.
Proof. unfold generateOptimizedVerseTitle, titleSuffix. eauto. Qed.

(** * The properties of the design document *)

Lemma optimizeContent_pass (text : jsstring) :
  optimizeContentForWordCount text
  = merge_pass (packSentences (splitIntoSentences text)).
Proof. apply mergeSmallChunks_pass. Qed.

Lemma sentences_solid (text : jsstring) :
  Forall (fun u => solid u = true) (splitIntoSentences text).
Proof. apply Forall_forall. apply splitIntoSentences_solid. Qed.

Lemma optimizeContent_whole (text : jsstring) :
  Forall (wholeUnits (splitIntoSentences text) [SPACE])
         (optimizeContentForWordCount text).
Proof.
  rewrite optimizeContent_pass. apply merge_pass_whole.
  apply packSentences_whole. apply sentences_solid.
Qed.

Lemma mergeable_spec (c d : Chunk) :
  mergeable c d = true <->
  wordCount c < 80 /\ wordCount c + wordCount d <= 90.
Proof.
  unfold mergeable. rewrite andb_true_iff, Nat.ltb_lt, Nat.leb_le. reflexivity.
Qed.

(** C6. The merge pass of reading mode.  It keeps an empty list and a single
    chunk; at the head of a longer list it merges the first chunk with its
    successor exactly when the first has fewer than 80 words and the two
    together at most 90, joining the contents by one blank and adding the
    counts, and then goes on behind the pair, so that a merged chunk is not
    looked at again; otherwise it keeps the first chunk and goes on with the
    second.  In the result no two neighbours that were both taken over
    unchanged have fewer than 80 words each and at most 90 together.  Song
    mode returns the chunks of its sections as packed, without this pass:
    there are lyrics whose chunks the pass would change. *)
Theorem merge_pass_once_left_to_right :
  mergeSmallChunks [] = []
  /\ (forall c, mergeSmallChunks [c] = [c])
  /\ (forall c d rest,
         mergeSmallChunks (c :: d :: rest)
         = if mergeable c d
           then mkChunk (content c ++ lit " " ++ content d)
                        (wordCount c + wordCount d)
                :: mergeSmallChunks rest
           else c :: mergeSmallChunks (d :: rest))
  /\ (forall c d,
         mergeable c d = true <->
         wordCount c < 80 /\ wordCount c + wordCount d <= 90)
  /\ (forall chunks fuel,
         length chunks <= fuel ->
         merge_loop fuel chunks 0 [] = mergeSmallChunks chunks)
  /\ (forall chunks, map snd (merge_trace chunks) = mergeSmallChunks chunks)
  /\ (forall chunks a b,
         unmergedNeighbours (merge_trace chunks) a b ->
         ~ (wordCount a < 80 /\ wordCount b < 80
            /\ wordCount a + wordCount b <= 90))
  /\ (forall lyrics,
         optimizeSongForWordCount lyrics
         = flat_map sectionVerses (splitSongIntoSections lyrics))
  /\ (exists lyrics,
         let chunks := map chunkOfVerse (optimizeSongForWordCount lyrics) in
         mergeSmallChunks chunks <> chunks).
Proof.
  split; [reflexivity|].
  split; [intros c; now rewrite mergeSmallChunks_pass|].
  split; [intros c d rest; now rewrite !mergeSmallChunks_pass|].
  split; [apply mergeable_spec|].
  split.
  { intros chunks fuel H. rewrite mergeSmallChunks_pass.
    now rewrite merge_loop_spec by lia. }
  split.
  { intros chunks. rewrite mergeSmallChunks_pass. apply merge_trace_chunks. }
  split.
  { intros chunks a b H [Ha [_ Hab]].
    apply (proj1 (merge_trace_neighbours chunks)) in H.
    assert (M : mergeable a b = true) by now apply mergeable_spec.
    congruence. }
  split; [apply optimizeSong_sections|].
  exists (lit "a" ++ [NEWLINE; NEWLINE] ++ lit "b"). vm_compute. discriminate.
Qed.

(** Three chunks of 30 words: the first two are merged, and the merged chunk
    of 60 words is not merged with the third. *)
Lemma merge_pass_once_left_to_right_witness :
  mergeSmallChunks
    [mkChunk (lit "un") 30; mkChunk (lit "deux") 30; mkChunk (lit "trois") 30]
  = [mkChunk (lit "un deux") 60; mkChunk (lit "trois") 30].
Proof.
  exact (proj1 (proj2 (proj2 merge_pass_once_left_to_right))
           (mkChunk (lit "un") 30) (mkChunk (lit "deux") 30)
           [mkChunk (lit "trois") 30]).
Defined.


(** C9. The sentence splitter returns at least one sentence for a text that
    is not white space only, and none for an empty or white-space-only text.
    A text without sentences gives no chunk in reading mode; lyrics without
    sections, in particular empty or white-space-only lyrics, give no chunk
    and no title in song mode.  Every operation is a total function; the one
    loop that is bounded by fuel, the merge pass, has left its loop within the
    length of its input. *)
Theorem empty_input_gives_no_chunk :
  (forall text, blank text = false -> 1 <= length (splitIntoSentences text))
  /\ (forall text, blank text = true -> splitIntoSentences text = [])
  /\ (forall text,
         splitIntoSentences text = [] -> optimizeContentForWordCount text = [])
  /\ (forall lyrics,
         splitSongIntoSections lyrics = [] ->
         optimizeSongForWordCount lyrics = [])
  /\ (forall songTitle lyrics,
         blank lyrics = true ->
         optimizeSongForWordCount lyrics = []
         /\ songSlideTitles (mkSongRecord songTitle lyrics) = [])
  /\ (forall chunks fuel,
         length chunks <= fuel ->
         merge_loop fuel chunks 0 [] = mergeSmallChunks chunks).
Proof.
  split.
  { intros text B. destruct (splitIntoSentences text) eqn:E; [|simpl; lia].
    apply splitIntoSentences_nil in E. congruence. }
  split; [intros text B; now apply splitIntoSentences_nil|].
  split.
  { intros text E. unfold optimizeContentForWordCount. now rewrite E. }
  split.
  { intros lyrics E. unfold optimizeSongForWordCount. now rewrite E. }
  split.
  { intros songTitle lyrics B.
    unfold songSlideTitles, optimizeSongForWordCount. simpl.
    now rewrite splitSongIntoSections_blank. }
  intros chunks fuel H. rewrite mergeSmallChunks_pass.
  now rewrite merge_loop_spec by lia.
Qed.

Lemma empty_input_gives_no_chunk_witness :
  blank (lit "Amen.") = false
  /\ 1 <= length (splitIntoSentences (lit "Amen."))
  /\ blank (lit "  ") = true
  /\ splitIntoSentences (lit "  ") = [].
Proof.
  split; [reflexivity|].
  split; [exact (proj1 empty_input_gives_no_chunk (lit "Amen.") eq_refl)|].
  split; [reflexivity|].
  exact (proj1 (proj2 empty_input_gives_no_chunk) (lit "  ") eq_refl).
Defined.


(** C10. Every chunk that the pipeline returns, in reading mode (merged
    chunks included) and in song mode, has a content that is not empty and is
    trimmed, and a word count equal to the number of words of its content,
    which is at least 1. *)
Theorem chunks_well_formed :
  (forall text c, In c (optimizeContentForWordCount text) -> wellFormed c)
  /\ (forall lyrics v,
         In v (optimizeSongForWordCount lyrics) -> wellFormedVerse v).
Proof.
  split.
  - intros text c Hin.
    apply (wholeUnits_wellFormed _ (sentences_solid text)).
    assert (H := optimizeContent_whole text).
    rewrite Forall_forall in H. auto.
  - intros lyrics v Hin. rewrite optimizeSong_sections in Hin.
    apply in_flat_map in Hin as [s [Hs Hv]].
    destruct (splitSongIntoSections_In _ _ Hs) as [Hsolid _].
    rewrite (sectionVerses_spec _ Hsolid) in Hv.
    apply in_map_iff in Hv as [run [<- Hrun]].
    apply verseOfRun_wellFormed.
    destruct (greedy_pack_partition _ countWords false
                (split sep_newline (s_content s))) as [rest [_ [_ Hruns]]].
    rewrite Forall_forall in Hruns. now apply Hruns.
Qed.

Lemma chunks_well_formed_witness :
  In (mkChunk (sentenceN 12) 12) (optimizeContentForWordCount text91)
  /\ wellFormed (mkChunk (sentenceN 12) 12).
Proof.
  assert (H : In (mkChunk (sentenceN 12) 12)
                 (optimizeContentForWordCount text91))
    by (vm_compute; right; left; reflexivity).
  split; [exact H|].
  exact (proj1 chunks_well_formed text91 _ H).
Defined.


(** *** A sentence of more than 90 words *)

Lemma pushChunk_In (chunks : list Chunk) (current : jsstring) (count : nat)
      (c : Chunk) :
  In c chunks -> In c (pushChunk chunks current count).
Proof.
  unfold pushChunk. destruct (truthy (trim current)); [|auto].
  intros H. apply in_or_app. now left.
Qed.

Lemma pack_sentence_keeps (st : PackState) (sentence : jsstring) (c : Chunk) :
  In c (optimizedChunks st) ->
  In c (optimizedChunks (pack_sentence st sentence)).
Proof.
  unfold pack_sentence.
  destruct ((MAX_WORDS_PER_SLIDE <? currentWordCount st + countWords sentence)
            && (0 <? currentWordCount st)); simpl; [apply pushChunk_In | auto].
Qed.

Lemma fold_pack_sentence_keeps (l : list jsstring) (c : Chunk) :
  forall st,
    In c (optimizedChunks st) ->
    In c (optimizedChunks (fold_left pack_sentence l st)).
Proof.
  induction l as [|x l IH]; intros st H; [exact H|].
  simpl. apply IH. now apply pack_sentence_keeps.
Qed.

Lemma runWords_zero_nil (acc : list jsstring) :
  Forall (fun u => solid u = true) acc -> runWords acc = 0 -> acc = [].
Proof.
  destruct 1 as [|x acc Hx _]; [reflexivity|].
  unfold runWords. simpl. apply countWords_solid in Hx. lia.
Qed.

(** Reading an oversized sentence always opens a chunk that holds it alone. *)
Lemma pack_sentence_oversized (units : list jsstring) (st : PackState)
      (u : jsstring) :
  Forall (fun x => solid x = true) units ->
  readingInv units st ->
  MAX_WORDS_PER_SLIDE < countWords u ->
  exists chunks, pack_sentence st u = mkPack chunks u (countWords u).
Proof.
  intros Hsolid [_ [acc [Hacc [Ecur Ecount]]]] Hbig. unfold pack_sentence.
  replace (MAX_WORDS_PER_SLIDE <? currentWordCount st + countWords u)
    with true by (symmetry; apply Nat.ltb_lt; lia).
  cbn [andb]. destruct (0 <? currentWordCount st) eqn:Hpos; [eauto|].
  apply Nat.ltb_ge in Hpos.
  assert (acc = []) as ->
      by (apply runWords_zero_nil; [now apply (incl_solid units) | lia]).
  rewrite Ecur, Ecount. simpl. eauto.
Qed.

(** Whatever follows, that chunk is pushed as it is. *)
Lemma oversized_pushed (u : jsstring) (post : list jsstring)
      (chunks : list Chunk) :
  solid u = true ->
  MAX_WORDS_PER_SLIDE < countWords u ->
  let st := fold_left pack_sentence post (mkPack chunks u (countWords u)) in
  In (mkChunk u (countWords u))
     (pushChunk (optimizedChunks st) (currentChunk st) (currentWordCount st)).
Proof.
  intros Hsolid Hbig. destruct post as [|v post]; cbv zeta.
  - simpl. unfold pushChunk.
    rewrite (solid_trim _ Hsolid), (truthy_solid _ Hsolid).
    apply in_or_app. right. now left.
  - apply pushChunk_In. simpl fold_left. apply fold_pack_sentence_keeps.
    unfold pack_sentence. cbn [currentWordCount currentChunk optimizedChunks].
    replace (MAX_WORDS_PER_SLIDE <? countWords u + countWords v)
      with true by (symmetry; apply Nat.ltb_lt; lia).
    replace (0 <? countWords u)
      with true by (symmetry; apply Nat.ltb_lt; unfold MAX_WORDS_PER_SLIDE in *; lia).
    replace (countWords u <? MIN_WORDS_PER_SLIDE) with false
      by (symmetry; apply Nat.ltb_ge;
          unfold MAX_WORDS_PER_SLIDE, MIN_WORDS_PER_SLIDE in *; lia).
    cbn [andb optimizedChunks]. unfold pushChunk.
    rewrite (solid_trim _ Hsolid), (truthy_solid _ Hsolid).
    apply in_or_app. right. now left.
Qed.

Lemma packSentences_oversized (pre post : list jsstring) (u : jsstring) :
  Forall (fun x => solid x = true) (pre ++ u :: post) ->
  MAX_WORDS_PER_SLIDE < countWords u ->
  In (mkChunk u (countWords u)) (packSentences (pre ++ u :: post)).
Proof.
  intros Hsolid Hbig. unfold packSentences.
  rewrite fold_left_app. cbn [fold_left].
  assert (Hinv : readingInv (pre ++ u :: post)
                   (fold_left pack_sentence pre (mkPack [] [] 0))).
  { apply fold_pack_sentence_inv; [exact Hsolid | now apply incl_appl, incl_refl |].
    split; [constructor|]. exists []. repeat split. apply incl_nil_l. }
  destruct (pack_sentence_oversized _ _ u Hsolid Hinv Hbig) as [chunks ->].
  apply oversized_pushed; [|exact Hbig].
  rewrite Forall_forall in Hsolid. apply Hsolid, in_elt.
Qed.

(** The merge pass leaves a chunk of more than 90 words as it is. *)
Lemma merge_pass_oversized (c : Chunk) :
  MAX_WORDS_PER_SLIDE < wordCount c ->
  forall chunks,
    (In c chunks -> In c (merge_pass chunks))
    /\ forall c0, In c (c0 :: chunks) -> In c (merge_pass (c0 :: chunks)).
Proof.
  intros Hbig. induction chunks as [|d rest [IH IH']]; split.
  - auto.
  - auto.
  - apply IH'.
  - intros c0 Hin.
    change (merge_pass (c0 :: d :: rest))
      with (if mergeable c0 d then mergedChunk c0 d :: merge_pass rest
            else c0 :: merge_pass (d :: rest)).
    destruct (mergeable c0 d) eqn:M.
    + apply mergeable_spec in M. unfold MAX_WORDS_PER_SLIDE in Hbig.
      destruct Hin as [->|[->|Hin]]; [lia | lia | right; auto].
    + destruct Hin as [->|Hin]; [now left | right; auto].
Qed.

(** *** An oversized line in song mode *)

Section PackerOversized.

Variable U : Type.
Variable wc : U -> nat.

Lemma step_keeps_emitted (a : Spec42.Acc U) (u : U) (r : list U) :
  In r (Spec42.emitted a) ->
  In r (Spec42.emitted (Spec42.step wc false a u)).
Proof.
  intros Hin. unfold Spec42.step. cbn [andb].
  destruct (_ && _); acc_simpl; [|exact Hin].
  apply in_or_app. now left.
Qed.

Lemma finish_keeps_emitted (l : list U) :
  forall (a : Spec42.Acc U) (r : list U),
    In r (Spec42.emitted a) ->
    In r (Spec42.finish (fold_left (Spec42.step wc false) l a)).
Proof.
  induction l as [|u l IH]; intros a r Hin; cbn [fold_left].
  - unfold Spec42.finish. destruct (0 <? Spec42.run_count a); [|exact Hin].
    apply in_or_app. now left.
  - apply IH. now apply step_keeps_emitted.
Qed.

(** A run of more than 90 words is closed by the next unit, or by the end. *)
Lemma oversized_run_closed (a : Spec42.Acc U) (post : list U) :
  MAX_WORDS_PER_SLIDE < Spec42.run_count a ->
  In (Spec42.run a)
     (Spec42.finish (fold_left (Spec42.step wc false) post a)).
Proof.
  intros Hbig. unfold MAX_WORDS_PER_SLIDE in Hbig.
  destruct post as [|v post]; cbn [fold_left].
  - unfold Spec42.finish.
    replace (0 <? Spec42.run_count a) with true
      by (symmetry; apply Nat.ltb_lt; lia).
    apply in_or_app. right. now left.
  - apply finish_keeps_emitted. unfold Spec42.step. cbn [andb].
    replace (MAX_WORDS_PER_SLIDE <? Spec42.run_count a + wc v) with true
      by (symmetry; apply Nat.ltb_lt; unfold MAX_WORDS_PER_SLIDE; lia).
    replace (0 <? Spec42.run_count a) with true
      by (symmetry; apply Nat.ltb_lt; lia).
    cbn [andb]. acc_simpl. apply in_or_app. right. now left.
Qed.

(** A unit of more than 90 words closes the run before it when that run has
    words, and stands at the end of a run that is closed right after it. *)
Lemma greedy_pack_oversized (pre post : list U) (u : U) :
  MAX_WORDS_PER_SLIDE < wc u ->
  exists zs,
    runCount wc zs = 0
    /\ In (zs ++ [u]) (Spec42.greedy_pack wc false (pre ++ u :: post)).
Proof.
  intros Hbig. unfold Spec42.greedy_pack.
  rewrite fold_left_app. cbn [fold_left].
  set (a := fold_left (Spec42.step wc false) pre (Spec42.mkAcc [] [] 0)).
  assert (Hinv : packInv wc ([] ++ pre) a).
  { apply fold_step_inv. repeat split; acc_simpl; constructor. }
  destruct Hinv as [_ [Hcount _]].
  assert (S : exists zs,
             runCount wc zs = 0
             /\ Spec42.run (Spec42.step wc false a u) = zs ++ [u]
             /\ MAX_WORDS_PER_SLIDE
                < Spec42.run_count (Spec42.step wc false a u)).
  { unfold Spec42.step. cbn [andb].
    replace (MAX_WORDS_PER_SLIDE <? Spec42.run_count a + wc u) with true
      by (symmetry; apply Nat.ltb_lt; lia).
    cbn [andb]. destruct (0 <? Spec42.run_count a) eqn:Hpos; acc_simpl.
    - exists []. split; [reflexivity|]. split; [reflexivity | exact Hbig].
    - apply Nat.ltb_ge in Hpos. exists (Spec42.run a).
      split; [rewrite <- Hcount; lia|]. split; [reflexivity | lia]. }
  destruct S as [zs [Hz [Hrun Hover]]]. exists zs. split; [exact Hz|].
  rewrite <- Hrun. now apply oversized_run_closed.
Qed.

End PackerOversized.

(** Lines without words before a line leave no trace in the chunk. *)
Lemma verseOfRun_zero_prefix (ty : SectionType) (zs : list jsstring)
      (u : jsstring) :
  runCount countWords zs = 0 ->
  verseOfRun ty (zs ++ [u]) = mkVerse (trim u) (countWords u) ty.
Proof.
  intros Hz. unfold verseOfRun. f_equal.
  - induction zs as [|z zs IH]; [reflexivity|].
    change (runCount countWords (z :: zs))
      with (countWords z + runCount countWords zs) in Hz.
    change ((z :: zs) ++ [u]) with (z :: (zs ++ [u])).
    rewrite join_cons by (destruct zs; discriminate).
    rewrite trim_blank_prefix by (apply countWords_zero_blank; lia).
    change ([NEWLINE] ++ join [NEWLINE] (zs ++ [u]))
      with ([NEWLINE] ++ join [NEWLINE] (zs ++ [u])).
    rewrite (trim_blank_prefix [NEWLINE]) by reflexivity.
    apply IH. lia.
  - change (runWords (zs ++ [u])) with (runCount countWords (zs ++ [u])).
    rewrite runCount_app, runCount_single. lia.
Qed.

(** An oversized line of a section is a chunk of the song, alone. *)
Lemma song_line_oversized (lyrics : jsstring) (s : Section)
      (pre post : list jsstring) (u : jsstring) :
  In s (splitSongIntoSections lyrics) ->
  split sep_newline (s_content s) = pre ++ u :: post ->
  MAX_WORDS_PER_SLIDE < countWords u ->
  In (mkVerse (trim u) (countWords u) (s_type s))
     (optimizeSongForWordCount lyrics).
Proof.
  intros Hs E Hbig. rewrite optimizeSong_sections.
  apply in_flat_map. exists s. split; [exact Hs|].
  destruct (splitSongIntoSections_In _ _ Hs) as [Hsolid _].
  rewrite (sectionVerses_spec _ Hsolid), E.
  destruct (greedy_pack_oversized _ countWords pre post u Hbig)
    as [zs [Hz Hin]].
  rewrite <- (verseOfRun_zero_prefix (s_type s) zs u Hz).
  now apply in_map.
Qed.

(** Lyrics without line feed are one section of one line. *)
Lemma split_blank_line_single (s : jsstring) :
  existsb (N.eqb NEWLINE) s = false ->
  forall prev cur, split_loop re_blank_line prev cur 0 s = [rev cur ++ s].
Proof.
  induction s as [|c s IH]; intros H prev cur.
  - simpl. now rewrite app_nil_r.
  - cbn [existsb] in H. apply orb_false_iff in H as [Hc Hs].
    cbn [split_loop re_blank_line]. rewrite N.eqb_sym, Hc.
    rewrite IH by exact Hs. cbn [rev]. now rewrite <- app_assoc.
Qed.

Lemma trim_no_newline (s : jsstring) :
  existsb (N.eqb NEWLINE) s = false ->
  existsb (N.eqb NEWLINE) (trim s) = false.
Proof.
  intros H. unfold trim.
  destruct (trimStart_decomp s) as [p [Ep _]].
  destruct (trimEnd_decomp (trimStart s)) as [q [Eq _]].
  rewrite Ep, Eq, !existsb_app in H.
  apply orb_false_iff in H as [_ H]. now apply orb_false_iff in H as [H _].
Qed.

Lemma section_one_line (s : Section) :
  solid (s_content s) = true ->
  existsb (N.eqb NEWLINE) (s_content s) = false ->
  sectionVerses s
  = [mkVerse (s_content s) (countWords (s_content s)) (s_type s)].
Proof.
  intros Hsolid Hline.
  rewrite (sectionVerses_spec _ Hsolid). unfold split.
  rewrite (split_newline_single _ Hline). cbn [rev app].
  assert (Hpos := countWords_solid _ Hsolid).
  rewrite greedy_pack_fits_or_single
    by (rewrite runCount_single; exact Hpos).
  cbn [map]. unfold verseOfRun. cbn [join].
  change (runWords [s_content s]) with (runCount countWords [s_content s]).
  now rewrite runCount_single, (solid_trim _ Hsolid).
Qed.

(** Lyrics that are one line give one chunk, whatever the length of the
    line. *)
Lemma song_one_line (lyrics : jsstring) :
  existsb (N.eqb NEWLINE) lyrics = false ->
  blank lyrics = false ->
  optimizeSongForWordCount lyrics
  = [mkVerse (trim lyrics) (countWords lyrics) (sectionType (trim lyrics))].
Proof.
  intros Hline Hblank.
  assert (Hsec : splitSongIntoSections lyrics
                 = [mkSection (trim lyrics) (sectionType (trim lyrics))]).
  { unfold splitSongIntoSections, split.
    rewrite (split_blank_line_single _ Hline). cbn [rev app fold_left].
    unfold section_step.
    destruct (trim lyrics) as [|c t] eqn:T; [|reflexivity].
    apply trim_nil_blank in T. congruence. }
  rewrite optimizeSong_sections, Hsec. cbn [flat_map]. rewrite app_nil_r.
  rewrite section_one_line.
  - cbn [s_content s_type]. now rewrite countWords_trim.
  - cbn [s_content]. destruct (trim_nil_or_solid lyrics) as [T|T]; [|exact T].
    apply trim_nil_blank in T. congruence.
  - cbn [s_content]. now apply trim_no_newline.
Qed.

(** C8. No unit is split, and an oversized unit is kept whole.  In reading
    mode every chunk is a run of whole sentences joined by blanks.  In song
    mode the chunks of a section are runs of whole lines that, one after the
    other, are exactly the lines of the section, and the chunks of the song
    are those of its sections.  A text that is one sentence gives exactly one
    chunk, that sentence with its full word count, and so does a section that
    is one line; a sentence of more than 90 words among others, in reading
    mode, and a line of more than 90 words among the lines of its section, in
    song mode, stands alone in a chunk with its full word count; and lyrics
    that are one line give exactly one chunk with the full word count. *)
Theorem units_never_split :
  (forall text,
      Forall (wholeUnits (splitIntoSentences text) [SPACE])
             (optimizeContentForWordCount text))
  /\ (forall lyrics,
         optimizeSongForWordCount lyrics
         = flat_map sectionVerses (splitSongIntoSections lyrics))
  /\ (forall lyrics s,
         In s (splitSongIntoSections lyrics) ->
         exists runs,
           concat runs = split sep_newline (s_content s) /\
           Forall (fun r => 0 < runWords r) runs /\
           sectionVerses s = map (verseOfRun (s_type s)) runs)
  /\ (forall text u,
         splitIntoSentences text = [u] ->
         optimizeContentForWordCount text = [mkChunk u (countWords u)])
  /\ (forall lyrics s,
         In s (splitSongIntoSections lyrics) ->
         existsb (N.eqb NEWLINE) (s_content s) = false ->
         sectionVerses s
         = [mkVerse (s_content s) (countWords (s_content s)) (s_type s)])
  /\ (forall text pre u post,
         splitIntoSentences text = pre ++ u :: post ->
         90 < countWords u ->
         In (mkChunk u (countWords u)) (optimizeContentForWordCount text))
  /\ (forall lyrics s pre u post,
         In s (splitSongIntoSections lyrics) ->
         split sep_newline (s_content s) = pre ++ u :: post ->
         90 < countWords u ->
         In (mkVerse (trim u) (countWords u) (s_type s))
            (optimizeSongForWordCount lyrics))
  /\ (forall lyrics,
         existsb (N.eqb NEWLINE) lyrics = false ->
         blank lyrics = false ->
         optimizeSongForWordCount lyrics
         = [mkVerse (trim lyrics) (countWords lyrics)
                    (sectionType (trim lyrics))]).
Proof.
  split; [apply optimizeContent_whole|].
  split; [apply optimizeSong_sections|].
  split.
  { intros lyrics s Hs.
    destruct (splitSongIntoSections_In _ _ Hs) as [Hsolid _].
    destruct (lines_last_words _ Hsolid) as [init [l [E Hl]]].
    exists (Spec42.greedy_pack countWords false (split sep_newline (s_content s))).
    split; [|split].
    - rewrite E. now apply greedy_pack_partition_exact.
    - now destruct (greedy_pack_partition _ countWords false
                      (split sep_newline (s_content s))) as [rest [_ [_ H]]].
    - now apply sectionVerses_spec. }
  split.
  { intros text u E.
    assert (Hsolid : solid u = true)
      by (apply (splitIntoSentences_solid text); rewrite E; now left).
    rewrite optimizeContent_pass, E. unfold packSentences.
    cbn [fold_left]. unfold pack_sentence.
    cbn [currentWordCount currentChunk optimizedChunks].
    change (0 <? 0) with false. rewrite andb_false_r.
    cbn [currentWordCount currentChunk optimizedChunks].
    unfold appendUnit, pushChunk. cbn [truthy app].
    rewrite (solid_trim _ Hsolid), (truthy_solid _ Hsolid).
    reflexivity. }
  split.
  { intros lyrics s Hs Hline.
    destruct (splitSongIntoSections_In _ _ Hs) as [Hsolid _].
    rewrite (sectionVerses_spec _ Hsolid). unfold split.
    rewrite (split_newline_single _ Hline). cbn [rev app].
    assert (Hpos := countWords_solid _ Hsolid).
    rewrite greedy_pack_fits_or_single
      by (rewrite runCount_single; exact Hpos).
    cbn [map]. unfold verseOfRun. cbn [join].
    change (runWords [s_content s]) with (runCount countWords [s_content s]).
    now rewrite runCount_single, (solid_trim _ Hsolid). }
  split.
  { intros text pre u post E Hbig. rewrite optimizeContent_pass.
    apply (merge_pass_oversized (mkChunk u (countWords u)) Hbig).
    rewrite E. apply packSentences_oversized; [|exact Hbig].
    rewrite <- E. apply sentences_solid. }
  split.
  { intros lyrics s pre u post Hs E Hbig.
    exact (song_line_oversized lyrics s pre post u Hs E Hbig). }
  exact song_one_line.
Qed.

Lemma units_never_split_witness :
  (splitIntoSentences (sentenceN 200) = [] ++ sentenceN 200 :: []
   /\ 90 < countWords (sentenceN 200)
   /\ In (mkChunk (sentenceN 200) (countWords (sentenceN 200)))
         (optimizeContentForWordCount (sentenceN 200)))
  /\ (In (mkSection lyrics123 verse) (splitSongIntoSections lyrics123)
      /\ split sep_newline lyrics123 = [lineN 2] ++ lineN 120 :: [lineN 1]
      /\ 90 < countWords (lineN 120)
      /\ map v_wordCount (optimizeSongForWordCount lyrics123) = [2; 120; 1]
      /\ In (mkVerse (trim (lineN 120)) (countWords (lineN 120)) verse)
            (optimizeSongForWordCount lyrics123)).
Proof.
  assert (E : splitIntoSentences (sentenceN 200) = [] ++ sentenceN 200 :: [])
    by (vm_compute; reflexivity).
  assert (B : 90 < countWords (sentenceN 200))
    by (vm_compute; repeat constructor).
  assert (Hs : In (mkSection lyrics123 verse)
                  (splitSongIntoSections lyrics123))
    by (vm_compute; left; reflexivity).
  assert (El : split sep_newline (s_content (mkSection lyrics123 verse))
               = [lineN 2] ++ lineN 120 :: [lineN 1])
    by (vm_compute; reflexivity).
  assert (Bl : 90 < countWords (lineN 120))
    by (vm_compute; repeat constructor).
  split.
  - split; [exact E|]. split; [exact B|].
    exact (proj1 (proj2 (proj2 (proj2 (proj2 (proj2 units_never_split)))))
             (sentenceN 200) [] (sentenceN 200) [] E B).
  - split; [exact Hs|]. split; [exact El|]. split; [exact Bl|].
    split; [vm_compute; reflexivity|].
    exact (proj1 (proj2 (proj2 (proj2 (proj2 (proj2 (proj2
             units_never_split))))))
             lyrics123 (mkSection lyrics123 verse) [lineN 2] (lineN 120)
             [lineN 1] Hs El Bl).
Defined.

(** *** Evaluating the loop of reading mode *)

Lemma foldUnits_join (sep : jsstring) (run : list jsstring) :
  Forall (fun u => solid u = true) run -> foldUnits sep run = join sep run.
Proof.
  induction run as [|u run IH] using rev_ind; intros H; [reflexivity|].
  apply Forall_app in H as [Hrun _].
  now rewrite foldUnits_snoc, IH, join_snoc_append.
Qed.

Lemma pack_sentence_append (st : PackState) (sentence : jsstring) :
  currentWordCount st + countWords sentence <= MAX_WORDS_PER_SLIDE ->
  pack_sentence st sentence
  = mkPack (optimizedChunks st)
           (appendUnit [SPACE] (currentChunk st) sentence)
           (currentWordCount st + countWords sentence).
Proof.
  intros H. unfold pack_sentence.
  replace (MAX_WORDS_PER_SLIDE <? currentWordCount st + countWords sentence)
    with false by (symmetry; apply Nat.ltb_ge; lia).
  reflexivity.
Qed.

Lemma pack_sentence_close (st : PackState) (sentence : jsstring) :
  MAX_WORDS_PER_SLIDE < currentWordCount st + countWords sentence ->
  MIN_WORDS_PER_SLIDE <= currentWordCount st ->
  pack_sentence st sentence
  = mkPack (pushChunk (optimizedChunks st) (currentChunk st)
                      (currentWordCount st))
           sentence (countWords sentence).
Proof.
  intros Hmax Hmin. unfold pack_sentence.
  replace (MAX_WORDS_PER_SLIDE <? currentWordCount st + countWords sentence)
    with true by (symmetry; apply Nat.ltb_lt; lia).
  replace (0 <? currentWordCount st) with true
    by (symmetry; apply Nat.ltb_lt; unfold MIN_WORDS_PER_SLIDE in Hmin; lia).
  replace (currentWordCount st <? MIN_WORDS_PER_SLIDE) with false
    by (symmetry; apply Nat.ltb_ge; lia).
  reflexivity.
Qed.

(** Sentences that fit together fill one chunk. *)
Lemma fold_pack_sentence_fits (run : list jsstring) :
  runWords run <= MAX_WORDS_PER_SLIDE ->
  fold_left pack_sentence run (mkPack [] [] 0)
  = mkPack [] (foldUnits [SPACE] run) (runWords run).
Proof.
  induction run as [|u run IH] using rev_ind; intros H; [reflexivity|].
  rewrite runWords_app in H.
  rewrite fold_left_app, IH by lia. cbn [fold_left].
  rewrite pack_sentence_append.
  - cbn [optimizedChunks currentChunk currentWordCount].
    rewrite foldUnits_snoc, runWords_app. unfold runWords at 3.
    simpl. now rewrite Nat.add_0_r.
  - cbn [currentWordCount]. unfold runWords in H at 2. simpl in H. lia.
Qed.

Lemma pushChunk_solid (chunks : list Chunk) (current : jsstring) (count : nat) :
  solid current = true ->
  pushChunk chunks current count = chunks ++ [mkChunk current count].
Proof.
  intros H. unfold pushChunk. now rewrite (solid_trim _ H), (truthy_solid _ H).
Qed.

(** C7. The worked example.  When a text splits into five sentences of 20
    words each, the packer closes a first chunk of 80 words with sentences 1
    to 4 and a second chunk with the fifth sentence alone; the merge pass does
    not merge them, and the result is these two chunks, with word counts 80
    and 20. *)
Theorem five_sentences_of_twenty_words (text s1 s2 s3 s4 s5 : jsstring) :
  splitIntoSentences text = [s1; s2; s3; s4; s5] ->
  countWords s1 = 20 -> countWords s2 = 20 -> countWords s3 = 20 ->
  countWords s4 = 20 -> countWords s5 = 20 ->
  let first := mkChunk (join (lit " ") [s1; s2; s3; s4]) 80 in
  let second := mkChunk s5 20 in
  packSentences (splitIntoSentences text) = [first; second]
  /\ mergeable first second = false
  /\ optimizeContentForWordCount text = [first; second]
  /\ map wordCount (optimizeContentForWordCount text) = [80; 20].
Proof.
  intros E H1 H2 H3 H4 H5 first second.
  assert (Hsolid := sentences_solid text). rewrite E in Hsolid.
  assert (Hrun : Forall (fun u => solid u = true) [s1; s2; s3; s4]).
  { inversion Hsolid as [|? ? A1 T1]; inversion T1 as [|? ? A2 T2];
    inversion T2 as [|? ? A3 T3]; inversion T3 as [|? ? A4 T4].
    repeat constructor; assumption. }
  assert (H5solid : solid s5 = true).
  { rewrite Forall_forall in Hsolid. apply Hsolid. simpl. tauto. }
  assert (Hcount : runWords [s1; s2; s3; s4] = 80).
  { unfold runWords. simpl. rewrite H1, H2, H3, H4. reflexivity. }
  assert (Hpack : packSentences (splitIntoSentences text) = [first; second]).
  { rewrite E. unfold packSentences.
    change [s1; s2; s3; s4; s5] with ([s1; s2; s3; s4] ++ [s5]).
    rewrite fold_left_app, fold_pack_sentence_fits
      by (rewrite Hcount; unfold MAX_WORDS_PER_SLIDE; lia).
    cbn [fold_left]. rewrite pack_sentence_close.
    - cbn [optimizedChunks currentChunk currentWordCount].
      rewrite foldUnits_join, Hcount, H5 by exact Hrun.
      rewrite (pushChunk_solid [])
        by (apply solid_join; [exact Hrun | discriminate]).
      now rewrite pushChunk_solid.
    - cbn [currentWordCount]. rewrite Hcount, H5.
      unfold MAX_WORDS_PER_SLIDE. lia.
    - cbn [currentWordCount]. rewrite Hcount.
      unfold MIN_WORDS_PER_SLIDE. lia. }
  split; [exact Hpack|]. split; [reflexivity|].
  assert (Hall : optimizeContentForWordCount text = [first; second]).
  { rewrite optimizeContent_pass, Hpack. reflexivity. }
  split; [exact Hall|]. now rewrite Hall.
Qed.

Lemma five_sentences_of_twenty_words_witness :
  splitIntoSentences text100
  = [sentenceN 20; sentenceN 20; sentenceN 20; sentenceN 20; sentenceN 20]
  /\ countWords (sentenceN 20) = 20
  /\ map wordCount (optimizeContentForWordCount text100) = [80; 20].
Proof.
  assert (E : splitIntoSentences text100
              = [sentenceN 20; sentenceN 20; sentenceN 20; sentenceN 20;
                 sentenceN 20]) by (vm_compute; reflexivity).
  assert (H : countWords (sentenceN 20) = 20) by (vm_compute; reflexivity).
  split; [exact E|]. split; [exact H|].
  exact (proj2 (proj2 (proj2
           (five_sentences_of_twenty_words text100 _ _ _ _ _ E H H H H H)))).
Defined.

(** * Content preservation away from the overflow exception *)

Lemma words_space_cons (c : char) (s : jsstring) :
  isSpace c = true -> words (c :: s) = words s.
Proof. intros H. unfold words. simpl. now rewrite H. Qed.

(** A separator of white space keeps the words of the text. *)
Lemma split_loop_words matcher :
  (forall prev s k, matcher prev s = Some (S k) -> S k <= spanLen isSpace s) ->
  forall s,
    (forall prev cur,
        concat (map words (split_loop matcher prev cur 0 s))
        = words (rev cur ++ s))
    /\ (forall prev k,
           k <= spanLen isSpace s ->
           concat (map words (split_loop matcher prev [] k s)) = words s).
Proof.
  intros Hm. induction s as [|c s [IH0 IHk]].
  - split; intros; simpl; now rewrite ?app_nil_r.
  - assert (Main : forall prev cur,
               concat (map words (split_loop matcher prev cur 0 (c :: s)))
               = words (rev cur ++ c :: s)).
    { intros prev cur. cbn [split_loop].
      assert (Keep : concat (map words (split_loop matcher (Some c) (c :: cur) 0 s))
                     = words (rev cur ++ c :: s)).
      { rewrite IH0. cbn [rev]. now rewrite <- app_assoc. }
      destruct (matcher prev (c :: s)) as [[|k]|] eqn:E; try exact Keep.
      apply Hm in E. cbn [spanLen] in E.
      destruct (isSpace c) eqn:Hc; [|lia].
      cbn [map concat]. rewrite IHk by lia.
      now rewrite (words_app_sep c (rev cur) s Hc). }
    split; [exact Main|].
    intros prev [|k] Hk; [apply (Main prev [])|].
    cbn [split_loop]. cbn [spanLen] in Hk.
    destruct (isSpace c) eqn:Hc; [|lia].
    rewrite IHk by lia. symmetry. now apply words_space_cons.
Qed.

Lemma words_blank (s : jsstring) : blank s = true -> words s = [].
Proof. apply words_nil_blank. Qed.

Lemma trimmed_pieces_words (pieces : list jsstring) :
  concat (map words (filter (fun p => 0 <? length p) (map trim pieces)))
  = concat (map words pieces).
Proof.
  induction pieces as [|p pieces IH]; [reflexivity|].
  cbn [map filter]. destruct (0 <? length (trim p)) eqn:L.
  - cbn [map concat]. now rewrite IH, words_trim.
  - cbn [map concat]. rewrite IH.
    apply Nat.ltb_ge in L. assert (T : trim p = [])
      by (apply length_zero_iff_nil; lia).
    apply trim_nil_blank, words_blank in T. now rewrite T.
Qed.

(** The sentences hold the words of the text, in order. *)
Lemma splitIntoSentences_words (text : jsstring) :
  concat (map words (splitIntoSentences text)) = words text.
Proof.
  unfold splitIntoSentences. rewrite trimmed_pieces_words.
  apply (proj1 (split_loop_words re_sentence_end re_sentence_end_spaces text)
           None []).
Qed.

Lemma words_join (w : char) (l : list jsstring) :
  isSpace w = true -> words (join [w] l) = concat (map words l).
Proof.
  intros Hw. induction l as [|x l IH]; [reflexivity|].
  destruct l as [|y l].
  - simpl. now rewrite app_nil_r.
  - rewrite join_cons by discriminate.
    change (x ++ [w] ++ join [w] (y :: l)) with (x ++ w :: join [w] (y :: l)).
    now rewrite (words_app_sep w x _ Hw), IH.
Qed.

Lemma chunkWords_app (a b : list Chunk) :
  chunkWords (a ++ b) = chunkWords a ++ chunkWords b.
Proof. unfold chunkWords. now rewrite map_app, concat_app. Qed.

(** The merge pass keeps the words of the chunks. *)
Lemma merge_pass_words (chunks : list Chunk) :
  chunkWords (merge_pass chunks) = chunkWords chunks
  /\ forall c, chunkWords (merge_pass (c :: chunks)) = chunkWords (c :: chunks).
Proof.
  induction chunks as [|d rest [IH IH']]; split; try reflexivity.
  - apply IH'.
  - intros c.
    change (merge_pass (c :: d :: rest))
      with (if mergeable c d then mergedChunk c d :: merge_pass rest
            else c :: merge_pass (d :: rest)).
    destruct (mergeable c d).
    + change (chunkWords (mergedChunk c d :: merge_pass rest))
        with (words (content c ++ SPACE :: content d)
              ++ chunkWords (merge_pass rest)).
      rewrite IH, (words_app_sep SPACE) by reflexivity.
      unfold chunkWords. cbn [map concat]. now rewrite <- app_assoc.
    + change (chunkWords (c :: merge_pass (d :: rest)))
        with (words (content c) ++ chunkWords (merge_pass (d :: rest))).
      now rewrite IH'.
Qed.

Lemma chunkOfRun_fold (run : list jsstring) :
  mkChunk (trim (foldUnits [SPACE] run)) (runWords run) = chunkOfRun run.
Proof. unfold chunkOfRun. now rewrite (trim_foldUnits SPACE). Qed.

Lemma pushChunk_run (chunks : list Chunk) (run : list jsstring) :
  pushChunk chunks (foldUnits [SPACE] run) (runWords run)
  = if 0 <? runWords run then chunks ++ [chunkOfRun run] else chunks.
Proof.
  unfold pushChunk. rewrite truthy_trim_countWords.
  rewrite (countWords_foldUnits SPACE) by reflexivity.
  now rewrite chunkOfRun_fold.
Qed.

(** On a sentence of more than 15 words the loop of reading mode does what
    the packer without the overflow exception does. *)
Lemma pack_sentence_sim (st : PackState) (a : Spec42.Acc jsstring)
      (sentence : jsstring) :
  15 < countWords sentence ->
  readSim st a ->
  readSim (pack_sentence st sentence)
          (Spec42.step countWords false a sentence).
Proof.
  intros Hlong [Hchunks [Hcur [Hcount Hsum]]].
  unfold pack_sentence, Spec42.step. rewrite Hcount. cbn [andb].
  replace (countWords sentence <=? 15) with false
    by (symmetry; apply Nat.leb_gt; lia).
  rewrite andb_false_r.
  destruct (MAX_WORDS_PER_SLIDE <? Spec42.run_count a + countWords sentence);
    cbn [andb].
  - destruct (0 <? Spec42.run_count a) eqn:Hpos.
    + repeat split; acc_simpl;
        cbn [optimizedChunks currentChunk currentWordCount].
      * rewrite Hcur, Hsum, pushChunk_run, <- Hsum, Hpos, Hchunks.
        now rewrite map_app.
      * unfold runWords. simpl. lia.
    + repeat split; acc_simpl;
        cbn [optimizedChunks currentChunk currentWordCount].
      * exact Hchunks.
      * now rewrite foldUnits_snoc, Hcur.
      * rewrite runWords_app, Hsum. unfold runWords. simpl. lia.
  - repeat split; acc_simpl;
      cbn [optimizedChunks currentChunk currentWordCount].
    + exact Hchunks.
    + now rewrite foldUnits_snoc, Hcur.
    + rewrite runWords_app, Hsum. unfold runWords. simpl. lia.
Qed.

Lemma fold_pack_sentence_sim (sentences : list jsstring) :
  Forall (fun u => 15 < countWords u) sentences ->
  forall st a,
    readSim st a ->
    readSim (fold_left pack_sentence sentences st)
            (fold_left (Spec42.step countWords false) sentences a).
Proof.
  induction 1 as [|u sentences Hu _ IH]; intros st a H; [exact H|].
  simpl. apply IH. now apply pack_sentence_sim.
Qed.

Lemma packSentences_runs (sentences : list jsstring) :
  Forall (fun u => 15 < countWords u) sentences ->
  packSentences sentences
  = map chunkOfRun (Spec42.greedy_pack countWords false sentences).
Proof.
  intros Hlong. unfold packSentences, Spec42.greedy_pack, Spec42.finish.
  destruct (fold_pack_sentence_sim sentences Hlong (mkPack [] [] 0)
              (Spec42.mkAcc [] [] 0)) as [Hchunks [Hcur [Hcount Hsum]]].
  { repeat split. }
  rewrite Hchunks, Hcur, Hcount, Hsum, pushChunk_run, <- Hsum.
  destruct (0 <? Spec42.run_count _); [|reflexivity].
  now rewrite map_app.
Qed.

Lemma chunkWords_runs (runs : list (list jsstring)) :
  chunkWords (map chunkOfRun runs) = concat (map words (concat runs)).
Proof.
  induction runs as [|run runs IH]; [reflexivity|].
  cbn [map concat]. rewrite map_app, concat_app, <- IH.
  unfold chunkWords. cbn [map concat content chunkOfRun].
  now rewrite words_trim, (words_join SPACE) by reflexivity.
Qed.

Lemma runCount_zero_words (rest : list jsstring) :
  runCount countWords rest = 0 -> concat (map words rest) = [].
Proof.
  induction rest as [|x rest IH]; [reflexivity|].
  change (runCount countWords (x :: rest))
    with (countWords x + runCount countWords rest).
  intros H. assert (Hx : countWords x = 0) by lia.
  apply countWords_zero_blank, words_blank in Hx.
  cbn [map concat]. rewrite Hx. apply IH. lia.
Qed.

(** When every sentence of the text has more than 15 words, so that the
    overflow exception cannot apply, the chunks hold exactly the words of
    the text, in order: their contents joined by blanks, with white space
    collapsed, are the collapsed text. *)
Lemma content_preserved_without_overflow (text : jsstring) :
  Forall (fun u => 15 < countWords u) (splitIntoSentences text) ->
  collapse (join [SPACE] (map content (optimizeContentForWordCount text)))
  = collapse text.
Proof.
  intros Hlong. unfold collapse. f_equal.
  rewrite (words_join SPACE) by reflexivity. rewrite map_map.
  change (concat (map (fun c => words (content c))
                      (optimizeContentForWordCount text)))
    with (chunkWords (optimizeContentForWordCount text)).
  rewrite optimizeContent_pass, (proj1 (merge_pass_words _)).
  rewrite (packSentences_runs _ Hlong), chunkWords_runs.
  destruct (greedy_pack_partition _ countWords false (splitIntoSentences text))
    as [rest [Hcat [Hrest _]]].
  rewrite <- splitIntoSentences_words. rewrite <- Hcat at 2.
  rewrite map_app, concat_app, (runCount_zero_words _ Hrest).
  now rewrite app_nil_r.
Qed.

(** * Where the code departs from the design document *)

(** C3. In song mode the chunks of every section are the runs that the
    greedy packer makes of the lines of the section when it runs WITHOUT the
    overflow exception of step 3a (steps 1, 2, 3b, 4 and 5 only), each run
    joined by line feeds and trimmed, with the sum of its lines' word counts
    and the type of the section. *)
Theorem song_sections_packed_without_overflow (lyrics : jsstring) (s : Section) :
  In s (splitSongIntoSections lyrics) ->
  sectionVerses s
  = map (verseOfRun (s_type s))
        (Spec42.greedy_pack countWords false (split sep_newline (s_content s))).
Proof.
  intros Hs. apply sectionVerses_spec.
  now destruct (splitSongIntoSections_In _ _ Hs).
Qed.

Lemma song_sections_packed_without_overflow_witness :
  In (mkSection lyrics91 verse) (splitSongIntoSections lyrics91)
  /\ sectionVerses (mkSection lyrics91 verse)
     = map (verseOfRun verse)
           (Spec42.greedy_pack countWords false (split sep_newline lyrics91)).
Proof.
  assert (H : In (mkSection lyrics91 verse) (splitSongIntoSections lyrics91))
    by (vm_compute; left; reflexivity).
  split; [exact H|].
  exact (song_sections_packed_without_overflow lyrics91 _ H).
Defined.

(** Counterexample to C3 as stated.  With the overflow exception the packer
    of the design puts the 79-word
    line and the 12-word line of [lyrics91] into one chunk of 91 words; song
    mode returns two chunks, of 79 and of 12 words. *)
Lemma song_ignores_overflow_exception :
  In (mkSection lyrics91 verse) (splitSongIntoSections lyrics91)
  /\ map v_wordCount (sectionVerses (mkSection lyrics91 verse)) = [79; 12]
  /\ map (runCount countWords)
         (Spec42.greedy_pack countWords true (split sep_newline lyrics91))
     = [91]
  /\ sectionVerses (mkSection lyrics91 verse)
     <> map (verseOfRun verse)
            (Spec42.greedy_pack countWords true (split sep_newline lyrics91)).
Proof.
  split; [vm_compute; left; reflexivity|].
  split; [vm_compute; reflexivity|].
  split; [vm_compute; reflexivity|].
  vm_compute. discriminate.
Qed.

Lemma mapi_from_suffix {A : Type} (g : A -> nat -> jsstring)
      (h : nat -> jsstring) (l : list A) :
  forall k,
    mapi_from (fun x index => g x (index + 1) ++ h (index + 1)) k l
    = map (fun bp => fst bp ++ h (snd bp))
          (combine (mapi_from (fun x index => g x (index + 1)) k l)
                   (seq (k + 1) (length l))).
Proof.
  induction l as [|x l IH]; intros k; [reflexivity|].
  cbn [mapi_from length seq combine map fst snd]. rewrite IH.
  replace (S k + 1) with (S (k + 1)) by lia. reflexivity.
Qed.

(** C4. Position and total of a slide title are counted over the whole song:
    the title of the chunk at 1-based position p among all the chunks of the
    song ends with " (p/total)", where total is the number of chunks of the
    whole song.  For a song of total chunks the suffixes are, in order,
    (1/total) to (total/total), and they differ from one another. *)
Theorem song_titles_count_over_whole_song (song : Song) :
  let verses := optimizeSongForWordCount (lyrics song) in
  let total := length verses in
  length (songSlideTitles song) = total
  /\ (exists bases,
         length bases = total /\
         songSlideTitles song
         = map (fun bp => fst bp ++ titleSuffix (snd bp) total)
               (combine bases (seq 1 total)))
  /\ (forall i v,
         nth_error verses i = Some v ->
         nth_error (songSlideTitles song) i
         = Some (baseTitle v (title song) (i + 1) ++ titleSuffix (i + 1) total))
  /\ (forall p q, titleSuffix p total = titleSuffix q total -> p = q).
Proof.
  intros verses total. unfold songSlideTitles. fold verses. fold total.
  split; [apply mapi_from_length|].
  split.
  { exists (mapi_from (fun v index => baseTitle v (title song) (index + 1))
                      0 verses).
    split; [apply mapi_from_length|].
    apply (mapi_from_suffix
             (fun v index => baseTitle v (title song) index)
             (fun p => titleSuffix p total) verses 0). }
  split.
  { intros i v H.
    apply (mapi_from_nth
             (fun v index =>
                generateOptimizedVerseTitle v (title song) (index + 1) total)
             verses 0 i v H). }
  intros p q. apply titleSuffix_inj.
Qed.

Lemma song_titles_count_over_whole_song_witness :
  nth_error (optimizeSongForWordCount (lyrics songAB)) 1
  = Some (mkVerse (lit "b") 1 verse)
  /\ nth_error (songSlideTitles songAB) 1 = Some (lit "T - Partie 2 (2/2)").
Proof.
  assert (H : nth_error (optimizeSongForWordCount (lyrics songAB)) 1
              = Some (mkVerse (lit "b") 1 verse)) by (vm_compute; reflexivity).
  split; [exact H|].
  exact (proj1 (proj2 (proj2 (song_titles_count_over_whole_song songAB)))
           1 _ H).
Defined.


(** Counterexample to C4 as stated.  The song [songAB] has two sections of
    one chunk each; the titles end
    with (1/2) and (2/2), where counting within each section gives (1/1)
    twice. *)
Lemma titles_not_per_section :
  map (fun s => length (sectionVerses s))
      (splitSongIntoSections (lyrics songAB)) = [1; 1]
  /\ songSlideTitles songAB
     = [lit "T - Partie 1 (1/2)"; lit "T - Partie 2 (2/2)"]
  /\ perSectionTitles songAB
     = [lit "T - Partie 1 (1/1)"; lit "T - Partie 1 (1/1)"]
  /\ songSlideTitles songAB <> perSectionTitles songAB.
Proof.
  split; [vm_compute; reflexivity|].
  split; [vm_compute; reflexivity|].
  split; [vm_compute; reflexivity|].
  vm_compute. discriminate.
Qed.

(** C5. A section is classified on its trimmed content: it is a refrain if
    and only if its first line starts with "R/" or the word "refrain" occurs,
    in any case of letters, anywhere in the section, on whatever line;
    otherwise it is a numbered verse if and only if its first line starts
    with a numeral followed by a full stop; otherwise it is a verse. *)
Theorem section_classified_on_whole_content (lyrics : jsstring) (s : Section) :
  In s (splitSongIntoSections lyrics) ->
  let line := firstLine (s_content s) in
  let isRefrain :=
    startsWith line (lit "R/") = true
    \/ includes (toLowerCase (s_content s)) (lit "refrain") = true in
  (s_type s = refrain <-> isRefrain)
  /\ (s_type s = numbered_verse <-> ~ isRefrain /\ startsWithNumeral line)
  /\ (s_type s = verse <-> ~ isRefrain /\ ~ startsWithNumeral line).
Proof.
  intros Hs line isRefrain.
  destruct (splitSongIntoSections_In _ _ Hs) as [_ ->].
  rewrite sectionType_lines. fold line.
  assert (Hr : isRefrain <->
               startsWith line (lit "R/")
               || includes (toLowerCase (s_content s)) (lit "refrain") = true)
    by (unfold isRefrain; now rewrite orb_true_iff).
  assert (Hn := matchNumber_spec line).
  destruct (startsWith line (lit "R/")
            || includes (toLowerCase (s_content s)) (lit "refrain")).
  - assert (isRefrain) by now apply Hr.
    repeat split; try tauto; discriminate.
  - assert (~ isRefrain) by (intros K; apply Hr in K; discriminate).
    destruct (matchNumber line) as [digits|].
    + assert (startsWithNumeral line) by (apply Hn; eauto).
      repeat split; try tauto; discriminate.
    + assert (~ startsWithNumeral line)
        by (intros K; apply Hn in K as [digits K]; discriminate).
      repeat split; try tauto; discriminate.
Qed.

Lemma section_classified_on_whole_content_witness :
  In (mkSection (lit "R/ Gloria") refrain) (splitSongIntoSections lyricsRefrain)
  /\ (refrain = refrain <->
      startsWith (firstLine (lit "R/ Gloria")) (lit "R/") = true
      \/ includes (toLowerCase (lit "R/ Gloria")) (lit "refrain") = true).
Proof.
  assert (H : In (mkSection (lit "R/ Gloria") refrain)
                 (splitSongIntoSections lyricsRefrain))
    by (vm_compute; left; reflexivity).
  split; [exact H|].
  exact (proj1 (section_classified_on_whole_content lyricsRefrain _ H)).
Defined.

(** Counterexample to C5 as stated.  The section [lyricsCouplet] is a
    refrain for the code, because of the
    word "refrain" on its second line; its first line alone makes it a
    verse. *)
Lemma refrain_found_below_first_line :
  In (mkSection lyricsCouplet refrain) (splitSongIntoSections lyricsCouplet)
  /\ firstLine lyricsCouplet = lit "Couplet"
  /\ firstLineType lyricsCouplet = verse
  /\ sectionType lyricsCouplet <> firstLineType lyricsCouplet.
Proof.
  split; [vm_compute; left; reflexivity|].
  split; [vm_compute; reflexivity|].
  split; [vm_compute; reflexivity|].
  vm_compute. discriminate.
Qed.

(** * The overflow exception repeats its sentence *)

Lemma pack_sentence_forced (st : PackState) (sentence : jsstring) :
  MAX_WORDS_PER_SLIDE < currentWordCount st + countWords sentence ->
  0 < currentWordCount st ->
  currentWordCount st < MIN_WORDS_PER_SLIDE ->
  countWords sentence <= 15 ->
  pack_sentence st sentence
  = mkPack (pushChunk (optimizedChunks st)
                      (appendUnit [SPACE] (currentChunk st) sentence)
                      (currentWordCount st + countWords sentence))
           sentence (countWords sentence).
Proof.
  intros Hmax Hpos Hmin Hshort. unfold pack_sentence.
  replace (MAX_WORDS_PER_SLIDE <? currentWordCount st + countWords sentence)
    with true by (symmetry; apply Nat.ltb_lt; lia).
  replace (0 <? currentWordCount st) with true
    by (symmetry; apply Nat.ltb_lt; lia).
  replace (currentWordCount st <? MIN_WORDS_PER_SLIDE) with true
    by (symmetry; apply Nat.ltb_lt; lia).
  replace (countWords sentence <=? 15) with true
    by (symmetry; apply Nat.leb_le; lia).
  reflexivity.
Qed.

(** C2. Whenever the overflow exception applies (the sentence would pass 90
    words, the chunk holds between 1 and 79 words, the sentence has at most
    15), the loop of reading mode appends the sentence to the chunk and closes
    it, with at most 90 + 15 words, and then starts the next chunk with that
    same sentence.  On [text91], a sentence of 79 words followed by one of 12
    words, the result is a chunk of 91 words with both sentences, followed by
    a chunk with the second sentence again: the sentence is returned twice,
    and the chunk after the closed one does not begin with a later unit. *)
Theorem overflow_sentence_returned_twice :
  (forall st sentence,
      MAX_WORDS_PER_SLIDE < currentWordCount st + countWords sentence ->
      0 < currentWordCount st ->
      currentWordCount st < MIN_WORDS_PER_SLIDE ->
      countWords sentence <= 15 ->
      pack_sentence st sentence
      = mkPack (pushChunk (optimizedChunks st)
                          (appendUnit [SPACE] (currentChunk st) sentence)
                          (currentWordCount st + countWords sentence))
               sentence (countWords sentence)
      /\ currentWordCount st + countWords sentence <= MAX_WORDS_PER_SLIDE + 15)
  /\ splitIntoSentences text91 = [sentenceN 79; sentenceN 12]
  /\ optimizeContentForWordCount text91
     = [mkChunk (sentenceN 79 ++ lit " " ++ sentenceN 12) 91;
        mkChunk (sentenceN 12) 12].
Proof.
  split.
  { intros st sentence Hmax Hpos Hmin Hshort.
    split; [now apply pack_sentence_forced|].
    unfold MIN_WORDS_PER_SLIDE, MAX_WORDS_PER_SLIDE in *. lia. }
  split; vm_compute; reflexivity.
Qed.

(** C1. Content preservation holds on every text whose sentences all have
    more than 15 words, where the overflow exception cannot apply: the
    contents of the chunks, joined by blanks and with white space collapsed,
    are the collapsed text.  It fails on [text91], where the exception
    applies: there the chunks hold the collapsed text followed by its last
    sentence once more, 103 words for 91. *)
Theorem content_not_preserved_on_overflow :
  (forall text,
      Forall (fun u => 15 < countWords u) (splitIntoSentences text) ->
      collapse (join (lit " ") (map content (optimizeContentForWordCount text)))
      = collapse text)
  /\ (let out :=
        join (lit " ") (map content (optimizeContentForWordCount text91)) in
      collapse out <> collapse text91
      /\ collapse out = collapse (text91 ++ lit " " ++ sentenceN 12)
      /\ length (words out) = 103
      /\ length (words text91) = 91).
Proof.
  split; [exact content_preserved_without_overflow|].
  cbv zeta. split; [vm_compute; discriminate|].
  split; [vm_compute; reflexivity|].
  split; vm_compute; reflexivity.
Qed.


(** * The liturgical calendar *)

Module LiturgyFacts.
Import Liturgy.
Local Open Scope Z_scope.

Lemma easter_vars year :
  0 <= year ->
  exists a b c d e f g h i k l m, EasterVars year a b c d e f g h i k l m.
Proof.
  intros Hy.
  pose (a := year mod 19). pose (b := year / 100). pose (c := year mod 100).
  pose (d := b / 4). pose (e := b mod 4). pose (f := (b + 8) / 25).
  pose (g := (b - f + 1) / 3). pose (h := (19 * a + b - d - g + 15) mod 30).
  pose (i := c / 4). pose (k := c mod 4).
  pose (l := (32 + 2 * e + 2 * i - h - k) mod 7).
  pose (m := (a + 11 * h + 22 * l) / 451).
  exists a, b, c, d, e, f, g, h, i, k, l, m.
  constructor; try reflexivity.
  assert (0 <= a < 19) by (apply Z.mod_pos_bound; lia).
  assert (0 <= b) by (apply Z.div_pos; lia).
  assert (0 <= c < 100) by (apply Z.mod_pos_bound; lia).
  assert (0 <= 19 * a + b - d - g + 15).
  { subst d g f. Z.div_mod_to_equations. lia. }
  assert (0 <= h < 30) by (apply Z.mod_pos_bound; lia).
  assert (0 <= e < 4) by (apply Z.mod_pos_bound; lia).
  assert (0 <= k < 4) by (apply Z.mod_pos_bound; lia).
  assert (0 <= i) by (apply Z.div_pos; lia).
  assert (0 <= l < 7) by (apply Z.mod_pos_bound; lia).
  assert (0 <= h + l - 7 * m + 114).
  { subst m. Z.div_mod_to_equations. lia. }
  unfold easterMonthDay. cbv zeta.
  rewrite (Z.rem_mod_nonneg year 19), (Z.rem_mod_nonneg year 100) by lia.
  fold a b c. rewrite (Z.rem_mod_nonneg b 4) by lia. fold d e f g.
  rewrite (Z.rem_mod_nonneg (19 * a + b - d - g + 15) 30) by lia. fold h.
  rewrite (Z.rem_mod_nonneg c 4) by lia. fold i k.
  rewrite (Z.rem_mod_nonneg (32 + 2 * e + 2 * i - h - k) 7) by lia. fold l m.
  rewrite (Z.rem_mod_nonneg (h + l - 7 * m + 114) 31) by lia.
  reflexivity.
Qed.

Lemma easter_month_day_range (year : Z) :
  0 <= year ->
  (fst (easterMonthDay year) = 3 /\ 22 <= snd (easterMonthDay year) <= 31)
  \/ (fst (easterMonthDay year) = 4 /\ 1 <= snd (easterMonthDay year) <= 25).
Proof.
  intros Hy.
  destruct (easter_vars year Hy)
    as (a & b & c & d & e & f & g & h & i & k & l & m & V).
  destruct V as [Ha _ _ _ _ _ _ Hh _ _ Hl Hm Hmd]. rewrite Hmd.
  cbn [fst snd].
  assert (0 <= a < 19) by (subst a; apply Z.mod_pos_bound; lia).
  assert (0 <= h < 30) by (subst h; apply Z.mod_pos_bound; lia).
  assert (0 <= l < 7) by (subst l; apply Z.mod_pos_bound; lia).
  clear Ha Hh Hl Hmd.
  subst m. Z.div_mod_to_equations. lia.
Qed.

(** X1. For every year from 0 on, [getEasterDate] computes a day from 22
    March to 25 April, the range that the comment of [getLiturgicalSeason]
    gives for Easter: the month is 3 with a day from 22 to 31, or 4 with a day
    from 1 to 25. *)
Theorem easter_in_spring (year : Z) :
  0 <= year ->
  (fst (easterMonthDay year) = 3 /\ 22 <= snd (easterMonthDay year) <= 31)
  \/ (fst (easterMonthDay year) = 4 /\ 1 <= snd (easterMonthDay year) <= 25).
Proof. exact (easter_month_day_range year). Qed.

Lemma easter_in_spring_witness :
  0 <= 2025 /\ easterMonthDay 2025 = (4, 20)
  /\ ((fst (easterMonthDay 2025) = 3 /\ 22 <= snd (easterMonthDay 2025) <= 31)
      \/ (fst (easterMonthDay 2025) = 4
          /\ 1 <= snd (easterMonthDay 2025) <= 25)).
Proof.
  split; [lia|]. split; [reflexivity|].
  apply (easter_in_spring 2025). lia.
Defined.

Lemma DayFromYear_succ y : DayFromYear (y + 1) = DayFromYear y + DaysInYear y.
Proof.
  unfold DayFromYear, DaysInYear.
  destruct (y mod 4 =? 0) eqn:H4; destruct (y mod 100 =? 0) eqn:H100;
    destruct (y mod 400 =? 0) eqn:H400; cbn [negb];
    rewrite ?Z.eqb_eq, ?Z.eqb_neq in *;
    Z.div_mod_to_equations; lia.
Qed.

Lemma InLeapYear_days y : InLeapYear y = DaysInYear y - 365.
Proof.
  unfold InLeapYear, DaysInYear.
  destruct (negb (y mod 4 =? 0)), (negb (y mod 100 =? 0)),
    (negb (y mod 400 =? 0)); reflexivity.
Qed.

Lemma InLeapYear_range y : 0 <= InLeapYear y <= 1.
Proof. unfold InLeapYear. destruct (DaysInYear y =? 366); lia. Qed.

(** [YearFromDay] computes the year that ECMAScript defines: the day lies
    from the first day of that year to the day before the first day of the
    next one. *)
Lemma YearFromDay_spec (day : Z) :
  DayFromYear (YearFromDay day) <= day < DayFromYear (YearFromDay day + 1).
Proof.
  unfold YearFromDay. cbv zeta.
  set (q := 400 * (day + 719162) / 146097).
  assert (Hq : 146097 * q <= 400 * (day + 719162) < 146097 * (q + 1)).
  { unfold q. Z.div_mod_to_equations. lia. }
  clearbody q.
  destruct (DayFromYear (q + 1 + 1) <=? day) eqn:C1.
  - apply Z.leb_le in C1. split; [exact C1|].
    unfold DayFromYear in *. Z.div_mod_to_equations. lia.
  - apply Z.leb_gt in C1.
    destruct (DayFromYear (q + 1) <=? day) eqn:C2.
    + apply Z.leb_le in C2. split; [exact C2 | exact C1].
    + apply Z.leb_gt in C2.
      replace (q + 1 - 1 + 1) with (q + 1) by lia. split; [|exact C2].
      unfold DayFromYear in *. Z.div_mod_to_equations. lia.
Qed.

Lemma time_split (t : Z) :
  t = Day t * msPerDay + TimeWithinDay t /\ 0 <= TimeWithinDay t < msPerDay.
Proof.
  unfold Day, TimeWithinDay, msPerDay. Z.div_mod_to_equations. lia.
Qed.

Lemma Day_shift (t k : Z) : Day (t + k * msPerDay) = Day t + k.
Proof. unfold Day, msPerDay. Z.div_mod_to_equations. lia. Qed.

Lemma Day_midnight (day : Z) : Day (day * msPerDay) = day.
Proof. unfold Day, msPerDay. Z.div_mod_to_equations. lia. Qed.

Lemma Day_lt (t day : Z) : Day t < day <-> t < day * msPerDay.
Proof. unfold Day, msPerDay. Z.div_mod_to_equations. lia. Qed.

Lemma MonthFromTime_range (t : Z) : 0 <= MonthFromTime t <= 11.
Proof.
  unfold MonthFromTime. cbv zeta.
  repeat match goal with
         | |- context [if ?c then _ else _] => destruct c
         end; lia.
Qed.

Lemma MakeDay_month y mi d :
  0 <= mi <= 11 ->
  MakeDay y mi d = DayFromYear y + daysBeforeMonth (InLeapYear y) mi + d - 1.
Proof.
  intros Hmi. unfold MakeDay. cbv zeta.
  rewrite (Z.div_small mi 12), (Z.mod_small mi 12) by lia.
  now rewrite Z.add_0_r.
Qed.

(** [MakeDay] on the local fields of a time gives back its day, and counts
    the day of the month past the ends of the month. *)
Lemma MakeDay_fields (t k : Z) :
  MakeDay (YearFromTime t) (MonthFromTime t) (DateFromTime t + k) = Day t + k.
Proof.
  rewrite MakeDay_month by apply MonthFromTime_range.
  unfold DateFromTime, DayWithinYear. lia.
Qed.

(** The day number of a day of March or April. *)
Lemma MakeDay_spring y mi d :
  mi = 2 \/ mi = 3 ->
  MakeDay y mi d
  = 365 * y + y / 4 - y / 100 + y / 400 - 719469 + 31 * (mi - 2) + d.
Proof.
  intros Hmi. unfold MakeDay. cbv zeta.
  assert (Hq : mi / 12 = 0) by (destruct Hmi; subst; reflexivity).
  assert (Hr : mi mod 12 = mi) by (destruct Hmi; subst; reflexivity).
  rewrite Hq, Hr, Z.add_0_r.
  assert (L := InLeapYear_days y).
  assert (S := DayFromYear_succ y).
  assert (E : DayFromYear (y + 1)
              = 365 * y + y / 4 - y / 100 + y / 400 - 719162).
  { unfold DayFromYear. Z.div_mod_to_equations. lia. }
  destruct Hmi; subst mi; cbv [daysBeforeMonth Z.eqb Pos.eqb]; lia.
Qed.

Lemma MakeFullYear_id (year : Z) : 100 <= year -> MakeFullYear year = year.
Proof.
  intros Hy. unfold MakeFullYear.
  replace ((0 <=? year) && (year <=? 99)) with false
    by (symmetry; apply andb_false_iff; right; apply Z.leb_gt; lia).
  reflexivity.
Qed.

(** The day that [getEasterDate] asks for is a Sunday. *)
Lemma easter_day_sunday (year : Z) :
  100 <= year -> (easterDayNumber year + 4) mod 7 = 0.
Proof.
  intros Hy.
  destruct (easter_vars year ltac:(lia))
    as (a & b & c & d & e & f & g & h & i & k & l & m & V).
  assert (B := easter_month_day_range year ltac:(lia)).
  unfold easterDayNumber. destruct V. rewrite ev_md0 in *.
  cbn [fst snd] in B.
  set (n := h + l - 7 * m + 114) in *.
  rewrite MakeFullYear_id by lia.
  rewrite MakeDay_spring by lia.
  assert (Hn : 31 * (n / 31 - 1 - 2) + (n mod 31 + 1) = n - 92)
    by (Z.div_mod_to_equations; lia).
  replace (365 * year + year / 4 - year / 100 + year / 400 - 719469
           + 31 * (n / 31 - 1 - 2) + (n mod 31 + 1) + 4)
    with (365 * year + year / 4 - year / 100 + year / 400 - 719465 + (n - 92))
    by lia.
  assert (Y4 : year / 4 = 25 * b + i).
  { subst b i c. Z.div_mod_to_equations. lia. }
  assert (Y100 : year / 100 = b) by now subst b.
  assert (Y400 : year / 400 = d).
  { subst d b. Z.div_mod_to_equations. lia. }
  assert (Yc : year = 100 * b + c).
  { subst b c. Z.div_mod_to_equations. lia. }
  assert (Bd : b = 4 * d + e).
  { subst d e. Z.div_mod_to_equations. lia. }
  assert (Ci : c = 4 * i + k).
  { subst i k. Z.div_mod_to_equations. lia. }
  rewrite Y4, Y100, Y400.
  assert (Hl : exists q, 32 + 2 * e + 2 * i - h - k = 7 * q + l).
  { exists ((32 + 2 * e + 2 * i - h - k) / 7). subst l.
    Z.div_mod_to_equations. lia. }
  destruct Hl as [q Hl].
  replace (365 * year + (25 * b + i) - b + d - 719465 + (n - 92))
    with ((20871 * d + 5218 * e + 209 * i + 52 * k - 102773 - q - m) * 7)
    by (subst n; lia).
  apply Z.mod_mul. lia.
Qed.

(** The day number of Easter within its year. *)
Lemma easter_day_range (year : Z) :
  100 <= year ->
  DayFromYear year + InLeapYear year + 80
  <= easterDayNumber year
  <= DayFromYear year + InLeapYear year + 114.
Proof.
  intros Hy. assert (B := easter_month_day_range year ltac:(lia)).
  unfold easterDayNumber. destruct (easterMonthDay year) as [month day].
  cbn [fst snd] in B. rewrite MakeFullYear_id by lia.
  rewrite MakeDay_month by lia.
  destruct B as [[-> B]|[-> B]].
  - change (3 - 1) with 2. cbv [daysBeforeMonth Z.eqb Pos.eqb]. lia.
  - change (4 - 1) with 3. cbv [daysBeforeMonth Z.eqb Pos.eqb]. lia.
Qed.

(** Up to the year 275760 the days around Easter are days of [Date]. *)
Lemma easter_day_bounds (year : Z) :
  100 <= year <= 275760 ->
  -700000 <= easterDayNumber year <= 99999900.
Proof.
  intros Hy. assert (R := easter_day_range year ltac:(lia)).
  assert (L := InLeapYear_range year).
  unfold DayFromYear in R. Z.div_mod_to_equations. lia.
Qed.

Lemma TimeClip_days (t : Z) :
  -99999999 * msPerDay <= t <= 99999999 * msPerDay -> TimeClip t = Some t.
Proof.
  intros H. unfold TimeClip, maxTimeValue, msPerDay in *.
  replace (Z.abs t <=? 8640000000000000) with true; [reflexivity|].
  symmetry. apply Z.leb_le. lia.
Qed.

Lemma TimeClip_some (t u : Z) : TimeClip t = Some u -> u = t.
Proof.
  unfold TimeClip. destruct (Z.abs t <=? maxTimeValue); congruence.
Qed.

Section ZoneFacts.

Variable tz : TimeZone.

Lemma UTC_bound (t : Z) : t - msPerDay < UTC tz t < t + msPerDay.
Proof. unfold UTC. assert (B := LocalTZA_bound tz t false). lia. Qed.

Lemma LocalTime_bound (t : Z) : t - msPerDay < LocalTime tz t < t + msPerDay.
Proof. unfold LocalTime. assert (B := LocalTZA_bound tz t true). lia. Qed.

(** [d.setDate(d.getDate() + k)] asks for the local time of [d], [k] days
    later. *)
Lemma setDate_shift (u k : Z) (f : Z -> Z) :
  (forall n, f n = n + k) ->
  setDate tz (Some u) (option_map f (getDate tz (Some u)))
  = TimeClip (UTC tz (LocalTime tz u + k * msPerDay)).
Proof.
  intros Hf. cbn [getDate option_map setDate]. cbv zeta.
  rewrite Hf, MakeDay_fields.
  destruct (time_split (LocalTime tz u)) as [E _].
  f_equal. f_equal. rewrite E at 3. lia.
Qed.

Lemma getEasterDate_value (year : Z) :
  getEasterDate tz year
  = TimeClip (UTC tz (easterDayNumber year * msPerDay)).
Proof.
  unfold getEasterDate, easterDayNumber, newDate.
  now destruct (easterMonthDay year).
Qed.

Lemma getEasterDate_some (year : Z) :
  100 <= year <= 275760 ->
  getEasterDate tz year = Some (UTC tz (easterDayNumber year * msPerDay)).
Proof.
  intros Hy. rewrite getEasterDate_value. apply TimeClip_days.
  assert (B := easter_day_bounds year Hy).
  assert (U := UTC_bound (easterDayNumber year * msPerDay)).
  unfold msPerDay in *. lia.
Qed.

End ZoneFacts.

(** X2. For every year from 100 (a smaller year is read by [new Date] as
    1900 + year) to 275760 (the last year of [Date]), and in a time zone
    where converting a local time to UTC and back never leaves the calendar
    day, the date that [getEasterDate] returns is a Sunday; the three dates
    that [getLiturgicalSeason] derives from it fall on the week days that its
    comments name: 46 days before is a Wednesday (Ash Wednesday), 7 days
    before is a Sunday (Palm Sunday), and 49 days after is a Sunday
    (Pentecost). *)
Theorem easter_is_a_sunday (tz : TimeZone) (year : Z) :
  100 <= year <= 275760 ->
  keepsDay tz ->
  let easterDate := getEasterDate tz year in
  getDay tz easterDate = Some 0
  /\ getDay tz (setDate tz easterDate
                        (option_map (fun d => d - 46) (getDate tz easterDate)))
     = Some 3
  /\ getDay tz (setDate tz easterDate
                        (option_map (fun d => d - 7) (getDate tz easterDate)))
     = Some 0
  /\ getDay tz (setDate tz easterDate
                        (option_map (fun d => d + 49) (getDate tz easterDate)))
     = Some 0.
Proof.
  intros Hy K. cbv zeta.
  rewrite (getEasterDate_some tz year Hy).
  set (E := easterDayNumber year).
  assert (B : -700000 <= E <= 99999900) by apply (easter_day_bounds year Hy).
  assert (S0 : (E + 4) mod 7 = 0) by (apply easter_day_sunday; lia).
  set (u := UTC tz (E * msPerDay)).
  assert (D : Day (LocalTime tz u) = E)
    by (unfold u; rewrite K; apply Day_midnight).
  assert (W : forall k,
             -50 <= k <= 50 ->
             getDay tz (TimeClip (UTC tz (LocalTime tz u + k * msPerDay)))
             = Some ((E + k + 4) mod 7)).
  { intros k Hk.
    assert (Dk : Day (LocalTime tz u + k * msPerDay) = E + k)
      by (rewrite Day_shift; lia).
    rewrite TimeClip_days.
    - cbn [getDay option_map]. unfold WeekDay. now rewrite K, Dk.
    - destruct (time_split (LocalTime tz u + k * msPerDay)) as [Es Ts].
      assert (U := UTC_bound tz (LocalTime tz u + k * msPerDay)).
      rewrite Dk in Es. unfold msPerDay in *. lia. }
  split.
  - cbn [getDay option_map]. unfold WeekDay. now rewrite D, S0.
  - rewrite (setDate_shift tz u (-46)) by (intros; lia).
    rewrite (setDate_shift tz u (-7)) by (intros; lia).
    rewrite (setDate_shift tz u 49) by (intros; lia).
    rewrite !W by lia.
    repeat split; f_equal; Z.div_mod_to_equations; lia.
Qed.

(** The zone of the sample [beirut2024] keeps every local time on its day,
    also the times of the hour that its clocks skip. *)
Lemma beirut_keepsDay : keepsDay beirut2024.
Proof.
  intros t. unfold LocalTime, UTC. cbn [LocalTZA beirut2024].
  unfold beirutOffset, beirutChange, Day, msPerDay.
  destruct (t <? 19813 * 86400000 - 7200000 + 10800000) eqn:C1;
    [apply Z.ltb_lt in C1 | apply Z.ltb_ge in C1];
    destruct (_ <? 19813 * 86400000 - 7200000) eqn:C2;
    [apply Z.ltb_lt in C2 | apply Z.ltb_ge in C2
     | apply Z.ltb_lt in C2 | apply Z.ltb_ge in C2];
    Z.div_mod_to_equations; lia.
Qed.

(** In the zone of Beirut the Easter of 2024 is created at one in the
    morning of 31 March, the midnight being skipped; it is a Sunday. *)
Lemma easter_is_a_sunday_witness :
  100 <= 2024 <= 275760
  /\ option_map (fun tv => TimeWithinDay (LocalTime beirut2024 tv))
                (getEasterDate beirut2024 2024)
     = Some 3600000
  /\ getDay beirut2024 (getEasterDate beirut2024 2024) = Some 0.
Proof.
  split; [lia|]. split; [reflexivity|].
  apply (easter_is_a_sunday beirut2024 2024); [lia|].
  exact beirut_keepsDay.
Defined.

(** X3. [getLiturgicalSeason] never returns the season of Pentecost, in any
    time zone and for any date, valid or not: a date whose time value is
    that of Pentecost is not before Easter, so that the test of the Easter
    season, which includes its upper bound, has taken it. *)
Theorem pentecost_never_returned (tz : TimeZone) (date : JsDate) :
  getLiturgicalSeason tz date <> pentecost.
Proof.
  unfold getLiturgicalSeason.
  destruct date as [tv|]; cbn [getFullYear getMonth getDate option_map];
    [|discriminate].
  cbv zeta.
  set (e := getEasterDate tz (YearFromTime (LocalTime tz tv))).
  destruct (_ || _); [discriminate|].
  destruct (_ || _); [discriminate|].
  destruct (_ && _); [discriminate|].
  destruct (_ && _); [discriminate|].
  destruct (date_ge (Some tv) e && date_le (Some tv) _) eqn:T;
    [discriminate|].
  destruct (time_eq (Some tv) _) eqn:P; [|discriminate].
  exfalso. destruct e as [u|]; [|discriminate P].
  rewrite (setDate_shift tz u 49) in T, P by (intros; lia).
  destruct (TimeClip (UTC tz (LocalTime tz u + 49 * msPerDay))) as [p|] eqn:C;
    [|discriminate P].
  apply TimeClip_some in C. cbn [time_eq] in P. apply Z.eqb_eq in P.
  cbn [date_ge date_le] in T.
  assert (U := UTC_bound tz (LocalTime tz u + 49 * msPerDay)).
  assert (L := LocalTime_bound tz u).
  apply andb_false_iff in T.
  unfold msPerDay in *.
  destruct T as [T|T]; apply Z.leb_gt in T; lia.
Qed.

(** A day of the Easter cycle lies in none of the two windows of month and
    day that [getLiturgicalSeason] tests first. *)
Lemma easter_cycle_outside_windows (t : Z) :
  100 <= YearFromTime t ->
  easterDayNumber (YearFromTime t) - 46 <= Day t
  <= easterDayNumber (YearFromTime t) + 49 ->
  ((MonthFromTime t + 1 =? 11) && (27 <=? DateFromTime t)
   || (MonthFromTime t + 1 =? 12) && (DateFromTime t <=? 24)) = false
  /\ ((MonthFromTime t + 1 =? 12) && (25 <=? DateFromTime t)
      || (MonthFromTime t + 1 =? 1) && (DateFromTime t <=? 13)) = false.
Proof.
  intros Hy Hrange.
  assert (R := easter_day_range _ Hy).
  assert (L := InLeapYear_range (YearFromTime t)).
  assert (M : 1 <= MonthFromTime t <= 5).
  { unfold MonthFromTime, DayWithinYear. cbv zeta.
    repeat match goal with
           | |- context [if ?c <? ?d then _ else _] =>
               let C := fresh "C" in
               destruct (c <? d) eqn:C;
               [apply Z.ltb_lt in C | apply Z.ltb_ge in C]
           end; lia. }
  split; apply orb_false_iff; split; apply andb_false_iff; left;
    apply Z.eqb_neq; lia.
Qed.

(** X4. For a date of a year from 100 to 275760, in a time zone where the
    local days of Easter, of 46 and 7 days before it and of 49 days after it
    start at their midnights, the windows of Advent and of Christmas, which
    are tested first on month and day alone, never hide the Easter cycle of
    the year of the date: from 46 days before Easter to 8 days before it the
    season is Lent, for the 7 days before Easter it is Holy Week, from Easter
    to 48 days after it it is the Easter season; on the 49th day after
    Easter, Pentecost, it is the Easter season at the instant of the local
    midnight and ordinary time at any other instant of the day. *)
Theorem easter_cycle_seasons (tz : TimeZone) (tv : Z) :
  let t := LocalTime tz tv in
  let E := easterDayNumber (YearFromTime t) in
  100 <= YearFromTime t <= 275760 ->
  startsAtMidnight tz (E - 46) ->
  startsAtMidnight tz (E - 7) ->
  startsAtMidnight tz E ->
  startsAtMidnight tz (E + 49) ->
  (E - 46 <= Day t < E - 7 -> getLiturgicalSeason tz (Some tv) = lent)
  /\ (E - 7 <= Day t < E -> getLiturgicalSeason tz (Some tv) = holyWeek)
  /\ (E <= Day t < E + 49 -> getLiturgicalSeason tz (Some tv) = easter)
  /\ (Day t = E + 49 ->
      getLiturgicalSeason tz (Some tv)
      = if tv =? UTC tz ((E + 49) * msPerDay) then easter else ordinary).
Proof.
  intros t E Hy [_ Hl] [_ Hh] [He0 He] [_ Hp].
  assert (B : -700000 <= E <= 99999900) by apply (easter_day_bounds _ Hy).
  assert (G : forall k,
             -50 <= k <= 50 ->
             setDate tz (Some (UTC tz (E * msPerDay)))
                     (option_map (fun d => d + k)
                                 (getDate tz (Some (UTC tz (E * msPerDay)))))
             = Some (UTC tz ((E + k) * msPerDay))).
  { intros k Hk. rewrite (setDate_shift tz _ k) by reflexivity.
    rewrite He0.
    replace (E * msPerDay + k * msPerDay) with ((E + k) * msPerDay) by lia.
    apply TimeClip_days.
    assert (U := UTC_bound tz ((E + k) * msPerDay)).
    unfold msPerDay in *. lia. }
  assert (S : E - 46 <= Day t <= E + 49 ->
              getLiturgicalSeason tz (Some tv)
              = if (UTC tz ((E - 46) * msPerDay) <=? tv)
                   && (tv <? UTC tz ((E - 7) * msPerDay))
                then lent
                else if (UTC tz ((E - 7) * msPerDay) <=? tv)
                        && (tv <? UTC tz (E * msPerDay))
                then holyWeek
                else if (UTC tz (E * msPerDay) <=? tv)
                        && (tv <=? UTC tz ((E + 49) * msPerDay))
                then easter
                else if tv =? UTC tz ((E + 49) * msPerDay) then pentecost
                else ordinary).
  { intros Hrange.
    destruct (easter_cycle_outside_windows t ltac:(lia) Hrange) as [W1 W2].
    unfold getLiturgicalSeason.
    cbn [getFullYear getMonth getDate option_map]. cbv zeta.
    fold t. rewrite W1, W2. fold E.
    rewrite (getEasterDate_some tz _ Hy). fold E.
    change (fun d : Z => d - 46) with (fun d : Z => d + -46).
    change (fun d : Z => d - 7) with (fun d : Z => d + -7).
    rewrite !G by lia.
    replace (E + -46) with (E - 46) by lia.
    replace (E + -7) with (E - 7) by lia.
    reflexivity. }
  assert (Cl : forall day, (forall x, x < UTC tz (day * msPerDay)
                                      <-> Day (LocalTime tz x) < day) ->
                           (UTC tz (day * msPerDay) <=? tv) = (day <=? Day t)).
  { intros day H. specialize (H tv). fold t in H.
    destruct (day <=? Day t) eqn:C;
      [apply Z.leb_le in C; apply Z.leb_le
      | apply Z.leb_gt in C; apply Z.leb_gt]; lia. }
  assert (Cu : forall day, (forall x, x < UTC tz (day * msPerDay)
                                      <-> Day (LocalTime tz x) < day) ->
                           (tv <? UTC tz (day * msPerDay)) = (Day t <? day)).
  { intros day H. specialize (H tv). fold t in H.
    destruct (Day t <? day) eqn:C;
      [apply Z.ltb_lt in C; apply Z.ltb_lt
      | apply Z.ltb_ge in C; apply Z.ltb_ge]; lia. }
  repeat split; intros Hd; rewrite S by lia;
    rewrite (Cl _ Hl), (Cu _ Hh), (Cl _ Hh), (Cu _ He), (Cl _ He).
  - replace (E - 46 <=? Day t) with true by (symmetry; apply Z.leb_le; lia).
    replace (Day t <? E - 7) with true by (symmetry; apply Z.ltb_lt; lia).
    reflexivity.
  - replace (Day t <? E - 7) with false by (symmetry; apply Z.ltb_ge; lia).
    replace (E - 7 <=? Day t) with true by (symmetry; apply Z.leb_le; lia).
    replace (Day t <? E) with true by (symmetry; apply Z.ltb_lt; lia).
    rewrite andb_false_r. reflexivity.
  - replace (Day t <? E - 7) with false by (symmetry; apply Z.ltb_ge; lia).
    replace (Day t <? E) with false by (symmetry; apply Z.ltb_ge; lia).
    replace (E <=? Day t) with true by (symmetry; apply Z.leb_le; lia).
    rewrite !andb_false_r.
    replace (tv <=? UTC tz ((E + 49) * msPerDay)) with true; [reflexivity|].
    symmetry. apply Z.leb_le. apply Z.lt_le_incl, Hp. fold t. lia.
  - replace (Day t <? E - 7) with false by (symmetry; apply Z.ltb_ge; lia).
    replace (Day t <? E) with false by (symmetry; apply Z.ltb_ge; lia).
    replace (E <=? Day t) with true by (symmetry; apply Z.leb_le; lia).
    rewrite !andb_false_r. cbn [andb].
    assert (Hge : UTC tz ((E + 49) * msPerDay) <= tv).
    { destruct (Z.lt_ge_cases tv (UTC tz ((E + 49) * msPerDay))) as [C|C];
        [|exact C].
      apply Hp in C. fold t in C. lia. }
    destruct (tv =? UTC tz ((E + 49) * msPerDay)) eqn:Q.
    + apply Z.eqb_eq in Q.
      replace (tv <=? UTC tz ((E + 49) * msPerDay)) with true; [reflexivity|].
      symmetry. apply Z.leb_le. lia.
    + apply Z.eqb_neq in Q.
      replace (tv <=? UTC tz ((E + 49) * msPerDay)) with false; [reflexivity|].
      symmetry. apply Z.leb_gt. lia.
Qed.

(** In the zone of the sample [paris2025] every local day starts at its
    midnight: the hour that its clocks skip is from 2:00 to 3:00. *)
Lemma paris_startsAtMidnight (day : Z) : startsAtMidnight paris2025 day.
Proof.
  unfold startsAtMidnight, LocalTime, UTC. cbn [LocalTZA paris2025].
  unfold parisOffset, parisChange, Day, msPerDay. split.
  - destruct (day * 86400000 <? 20177 * 86400000 + 3600000 + 7200000) eqn:C1;
      [apply Z.ltb_lt in C1 | apply Z.ltb_ge in C1];
      destruct (_ <? 20177 * 86400000 + 3600000) eqn:C2;
      [apply Z.ltb_lt in C2 | apply Z.ltb_ge in C2
       | apply Z.ltb_lt in C2 | apply Z.ltb_ge in C2]; lia.
  - intros tv.
    destruct (day * 86400000 <? 20177 * 86400000 + 3600000 + 7200000) eqn:C1;
      [apply Z.ltb_lt in C1 | apply Z.ltb_ge in C1];
      destruct (tv <? 20177 * 86400000 + 3600000) eqn:C2;
      [apply Z.ltb_lt in C2 | apply Z.ltb_ge in C2
       | apply Z.ltb_lt in C2 | apply Z.ltb_ge in C2];
      Z.div_mod_to_equations; lia.
Qed.

(** Pentecost 2025 is 8 June, the day 20247; in the zone of Paris, at two in
    the morning of that day, which is midnight in UTC, the season is the
    ordinary time. *)
Lemma easter_cycle_seasons_witness :
  YearFromTime (LocalTime paris2025 (20247 * msPerDay)) = 2025
  /\ TimeWithinDay (LocalTime paris2025 (20247 * msPerDay)) = 7200000
  /\ Day (LocalTime paris2025 (20247 * msPerDay))
     = easterDayNumber 2025 + 49
  /\ getLiturgicalSeason paris2025 (Some (20247 * msPerDay)) = ordinary.
Proof.
  split; [reflexivity|]. split; [reflexivity|]. split; [reflexivity|].
  assert (Hd : Day (LocalTime paris2025 (20247 * msPerDay))
               = easterDayNumber
                   (YearFromTime (LocalTime paris2025 (20247 * msPerDay)))
                 + 49) by reflexivity.
  exact (proj2 (proj2 (proj2
           (easter_cycle_seasons paris2025 (20247 * msPerDay)
              ltac:(vm_compute; split; discriminate)
              (paris_startsAtMidnight _) (paris_startsAtMidnight _)
              (paris_startsAtMidnight _) (paris_startsAtMidnight _)))) Hd).
Defined.

End LiturgyFacts.

(** * The slides of a presentation *)

Lemma numberedFrom_app (start : nat) (xs ys : list Slide) :
  numberedFrom start xs -> numberedFrom (start + length xs) ys ->
  numberedFrom start (xs ++ ys).
Proof.
  unfold numberedFrom. intros Hx Hy.
  now rewrite map_app, length_app, seq_app, map_app, Hx, Hy.
Qed.

Lemma numberedFrom_single (start : nat) (texts : list jsstring) :
  numberedFrom start [texts ++ [numberToString start]].
Proof. unfold numberedFrom, slideNumberText. simpl. now rewrite last_last. Qed.

Lemma readingChunks_slides (reading : LiturgyReading) (total start : nat)
      (chunks : list Chunk) :
  forall index pptx count,
  exists new,
    forEach_from (readingChunkSlide reading total start) index chunks
                 (pptx, count)
    = (pptx ++ new, count + length chunks)
    /\ length new = length chunks
    /\ numberedFrom (start + count) new.
Proof.
  induction chunks as [|chunk chunks IH]; intros index pptx count.
  - exists []. simpl. rewrite app_nil_r, Nat.add_0_r. repeat split.
  - cbn [forEach_from]. unfold readingChunkSlide at 2. cbn [fst snd].
    set (slide := [_; _; _; _]).
    destruct (IH (S index) (pptx ++ [slide]) (S count)) as [new [E [L N]]].
    exists (slide :: new).
    split; [etransitivity; [exact E|]; rewrite <- app_assoc; cbn [length app];
            f_equal; lia|].
    split; [cbn [length]; now rewrite L|].
    apply (numberedFrom_app (start + count) [slide] new).
    + apply (numberedFrom_single (start + count)
               [r_title reading ++ lit " (" ++ numberToString (index + 1)
                  ++ lit "/" ++ numberToString total ++ lit ")";
                content chunk;
                numberToString (wordCount chunk) ++ lit " mots"]).
    + cbn [length]. now replace (start + count + 1) with (start + S count) by lia.
Qed.

Lemma songVerses_slides (song : SongEntry) (total start : nat)
      (verses : list Verse) :
  forall index pptx count,
  exists new,
    forEach_from (songVerseSlide song total start) index verses (pptx, count)
    = (pptx ++ new, count + length verses)
    /\ length new = length verses
    /\ numberedFrom (start + count) new.
Proof.
  induction verses as [|v verses IH]; intros index pptx count.
  - exists []. simpl. rewrite app_nil_r, Nat.add_0_r. repeat split.
  - cbn [forEach_from]. unfold songVerseSlide at 2. cbn [fst snd].
    set (slide := [_; _; _; _]).
    destruct (IH (S index) (pptx ++ [slide]) (S count)) as [new [E [L N]]].
    exists (slide :: new).
    split; [etransitivity; [exact E|]; rewrite <- app_assoc; cbn [length app];
            f_equal; lia|].
    split; [cbn [length]; now rewrite L|].
    apply (numberedFrom_app (start + count) [slide] new).
    + apply (numberedFrom_single (start + count)
               [generateOptimizedVerseTitle v (sg_title song) (index + 1) total;
                v_content v;
                numberToString (v_wordCount v) ++ lit " mots"]).
    + cbn [length]. now replace (start + count + 1) with (start + S count) by lia.
Qed.

Lemma createOptimizedReadingSlides_adds (pptx : Pptx)
      (reading : LiturgyReading) (start : nat) :
  addsSlides pptx start (createOptimizedReadingSlides pptx reading start)
             (1 + length (optimizeContentForWordCount (r_text reading))).
Proof.
  unfold createOptimizedReadingSlides. cbv zeta.
  set (chunks := optimizeContentForWordCount (r_text reading)).
  set (titleSlide := [_; _; _]).
  destruct (readingChunks_slides reading (length chunks) start chunks 0
              (pptx ++ [titleSlide]) 1) as [new [E [L N]]].
  exists (titleSlide :: new).
  split; [etransitivity; [exact E|]; now rewrite <- app_assoc|].
  split; [cbn [length]; now rewrite L|].
  apply (numberedFrom_app start [titleSlide] new); [|exact N].
  unfold titleSlide. rewrite Nat.add_0_r.
  apply (numberedFrom_single start [r_title reading; r_reference reading]).
Qed.

Lemma createOptimizedSongSlides_adds (pptx : Pptx) (song : SongEntry)
      (start : nat) :
  addsSlides pptx start (createOptimizedSongSlides pptx song start)
             (1 + length (optimizeSongForWordCount (sg_lyrics song))).
Proof.
  unfold createOptimizedSongSlides. cbv zeta.
  set (verses := optimizeSongForWordCount (sg_lyrics song)).
  set (subtitle := match filterBoolean _ with [] => [] | _ => _ end).
  set (titleSlide := [sg_title song] ++ subtitle ++ [numberToString (start + 0)]).
  destruct (songVerses_slides song (length verses) start verses 0
              (pptx ++ [titleSlide]) 1) as [new [E [L N]]].
  exists (titleSlide :: new).
  split; [etransitivity; [exact E|]; now rewrite <- app_assoc|].
  split; [cbn [length]; now rewrite L|].
  apply (numberedFrom_app start [titleSlide] new); [|exact N].
  unfold titleSlide. rewrite Nat.add_0_r, app_assoc.
  apply numberedFrom_single.
Qed.

Lemma exportItem_inv (presentation : LiturgyPresentation) (st : Pptx * nat)
      (slideItem : SlideItem) :
  exportInv st ->
  exportInv (exportItem presentation st slideItem)
  /\ length (fst (exportItem presentation st slideItem))
     = length (fst st) + itemSlideCount presentation slideItem.
Proof.
  intros [Hnum Hnext]. unfold exportItem, itemSlideCount.
  assert (Step : forall result count,
             addsSlides (fst st) (snd st) result count ->
             exportInv (let '(pptx, k) := result in (pptx, snd st + k))
             /\ length (fst (let '(pptx, k) := result in (pptx, snd st + k)))
                = length (fst st) + count).
  { intros result count [new [-> [L N]]]. cbn [fst snd].
    rewrite length_app, L. split; [|reflexivity]. split.
    - apply numberedFrom_app; [exact Hnum|]. now rewrite <- Hnext.
    - cbn [fst snd]. rewrite length_app, L, Hnext. lia. }
  destruct (si_type slideItem).
  - destruct (find _ (p_readings presentation)) as [reading|].
    + apply Step, createOptimizedReadingSlides_adds.
    + split; [now split | lia].
  - destruct (find _ (p_songs presentation)) as [song|].
    + apply Step, createOptimizedSongSlides_adds.
    + split; [now split | lia].
Qed.

Lemma exportItems_inv (presentation : LiturgyPresentation)
      (items : list SlideItem) :
  forall st,
    exportInv st ->
    exportInv (fold_left (exportItem presentation) items st)
    /\ length (fst (fold_left (exportItem presentation) items st))
       = length (fst st)
         + list_sum (map (itemSlideCount presentation) items).
Proof.
  induction items as [|item items IH]; intros st Hst.
  - simpl. split; [exact Hst | lia].
  - cbn [fold_left map list_sum].
    destruct (exportItem_inv presentation st item Hst) as [H1 L1].
    destruct (IH _ H1) as [H2 L2]. split; [exact H2|]. rewrite L2, L1.
    simpl. lia.
Qed.

Lemma insertByOrder_perm (x : SlideItem) (l : list SlideItem) :
  Permutation (insertByOrder x l) (x :: l).
Proof.
  induction l as [|y l IH]; simpl; [reflexivity|].
  destruct (si_order x <=? si_order y)%Z; [reflexivity|].
  rewrite IH. apply perm_swap.
Qed.

Lemma sortByOrder_perm (l : list SlideItem) : Permutation (sortByOrder l) l.
Proof.
  induction l as [|x l IH]; simpl; [reflexivity|].
  rewrite insertByOrder_perm. now constructor.
Qed.

Lemma list_sum_perm (l l' : list nat) :
  Permutation l l' -> list_sum l = list_sum l'.
Proof. induction 1; simpl; lia. Qed.

Lemma jsstring_eqb_eq (s t : jsstring) : jsstring_eqb s t = true <-> s = t.
Proof.
  revert t. induction s as [|c s IH]; intros [|d t]; simpl;
    try (split; [discriminate | discriminate]); [tauto|].
  rewrite andb_true_iff, N.eqb_eq, IH. split.
  - intros [-> ->]. reflexivity.
  - intros H. injection H as -> ->. auto.
Qed.

(** A slide item brings slides exactly when it names a reading or a song of
    the presentation. *)
Lemma itemSlideCount_resolved (presentation : LiturgyPresentation)
      (slideItem : SlideItem) :
  1 <= itemSlideCount presentation slideItem <-> resolved presentation slideItem.
Proof.
  unfold itemSlideCount, resolved. destruct (si_type slideItem).
  - destruct (find _ (p_readings presentation)) as [r|] eqn:F.
    + apply find_some in F as [Hin Hid]. apply jsstring_eqb_eq in Hid.
      split; [eauto | lia].
    + split; [lia|]. intros [r [Hin Hid]].
      apply (find_none _ _ F) in Hin. apply jsstring_eqb_eq in Hid. congruence.
  - destruct (find _ (p_songs presentation)) as [s|] eqn:F.
    + apply find_some in F as [Hin Hid]. apply jsstring_eqb_eq in Hid.
      split; [eauto | lia].
    + split; [lia|]. intros [s [Hin Hid]].
      apply (find_none _ _ F) in Hin. apply jsstring_eqb_eq in Hid. congruence.
Qed.

Lemma exported_slides_numbered_aux
      (toLocaleDateString : jsstring -> jsstring)
      (presentation : LiturgyPresentation) :
  let result := exportPresentation toLocaleDateString presentation in
  numberedFrom 1 (deck result)
  /\ slidesLogged result = length (deck result)
  /\ length (deck result)
     = 1 + list_sum (map (itemSlideCount presentation)
                         (p_slideOrder presentation)).
Proof.
  pose (titleSlide := [p_title presentation;
                       toLocaleDateString (p_date presentation);
                       numberToString 1]).
  pose (st := fold_left (exportItem presentation)
                        (sortByOrder (p_slideOrder presentation))
                        ([titleSlide], 2)).
  assert (H : exportInv st
              /\ length (fst st)
                 = 1 + list_sum (map (itemSlideCount presentation)
                                     (sortByOrder (p_slideOrder presentation)))).
  { apply (exportItems_inv presentation
             (sortByOrder (p_slideOrder presentation)) ([titleSlide], 2)).
    split; [|reflexivity].
    apply (numberedFrom_single 1
             [p_title presentation;
              toLocaleDateString (p_date presentation)]). }
  change (numberedFrom 1 (fst st)
          /\ snd st - 1 = length (fst st)
          /\ length (fst st)
             = 1 + list_sum (map (itemSlideCount presentation)
                                 (p_slideOrder presentation))).
  clearbody st. destruct H as [[Hnum Hnext] Hlen].
  split; [exact Hnum|]. split; [lia|].
  rewrite Hlen. f_equal.
  apply list_sum_perm, Permutation_map, sortByOrder_perm.
Qed.

(** X5. The slides of the file that [exportPresentation] writes carry, as the
    last text of each, the numbers 1, 2, 3, ... without gap or repeat, in the
    order of the slides, whatever the slide items name; the count that is
    logged at the end is the number of slides of the file; and that number is
    1 for the title slide plus, for each slide item that names a reading or a
    song of the presentation, 1 plus the number of its chunks (an item that
    names none adds no slide and takes no number). *)
Theorem exported_slides_numbered
        (toLocaleDateString : jsstring -> jsstring)
        (presentation : LiturgyPresentation) :
  let result := exportPresentation toLocaleDateString presentation in
  map slideNumberText (deck result)
  = map numberToString (seq 1 (length (deck result)))
  /\ slidesLogged result = length (deck result)
  /\ length (deck result)
     = 1 + list_sum (map (itemSlideCount presentation)
                         (p_slideOrder presentation)).
Proof. apply exported_slides_numbered_aux. Qed.

Lemma list_sum_positive {A : Type} (f : A -> nat) (l : list A) :
  (forall x, In x l -> 1 <= f x) ->
  list_sum (map f l) = length l + list_sum (map (fun x => f x - 1) l).
Proof.
  induction l as [|x l IH]; intros H; [reflexivity|].
  change (f x + list_sum (map f l)
          = S (length l)
            + ((f x - 1) + list_sum (map (fun x => f x - 1) l))).
  assert (H1 := H x (or_introl eq_refl)).
  rewrite IH by (intros y Hy; apply H; now right). lia.
Qed.

Lemma exported_count_resolved
        (toLocaleDateString : jsstring -> jsstring)
        (presentation : LiturgyPresentation) :
  (forall item, In item (p_slideOrder presentation) ->
                resolved presentation item) ->
  let exported :=
    length (deck (exportPresentation toLocaleDateString presentation)) in
  exported
  = previewTotalSlides presentation
    + list_sum (map (fun item => itemSlideCount presentation item - 1)
                    (p_slideOrder presentation))
  /\ previewTotalSlides presentation <= exported.
Proof.
  intros Hres exported.
  assert (E : exported
              = previewTotalSlides presentation
                + list_sum (map (fun item => itemSlideCount presentation item - 1)
                                (p_slideOrder presentation))).
  { unfold exported.
    rewrite (proj2 (proj2 (exported_slides_numbered_aux toLocaleDateString
                             presentation))).
    unfold previewTotalSlides.
    rewrite (list_sum_positive (itemSlideCount presentation)
               (p_slideOrder presentation)); [lia|].
    intros item Hin. now apply itemSlideCount_resolved, Hres. }
  split; [exact E | lia].
Qed.

(** X6. When every slide item names a reading or a song of the presentation,
    the file that is exported has at least as many slides as [PreviewPanel]
    announces: [totalSlides] counts one slide per item, the export adds to it
    one slide for each chunk of each item. *)
Theorem preview_counts_items_only
        (toLocaleDateString : jsstring -> jsstring)
        (presentation : LiturgyPresentation) :
  (forall item, In item (p_slideOrder presentation) ->
                resolved presentation item) ->
  let exported :=
    length (deck (exportPresentation toLocaleDateString presentation)) in
  exported
  = previewTotalSlides presentation
    + list_sum (map (fun item => itemSlideCount presentation item - 1)
                    (p_slideOrder presentation))
  /\ previewTotalSlides presentation <= exported.
Proof. exact (exported_count_resolved toLocaleDateString presentation). Qed.

Lemma preview_counts_items_only_witness :
  length (deck (exportPresentation (fun s => s) presentation91)) = 4
  /\ previewTotalSlides presentation91 = 2
  /\ previewTotalSlides presentation91
     <= length (deck (exportPresentation (fun s => s) presentation91)).
Proof.
  split; [vm_compute; reflexivity|]. split; [reflexivity|].
  apply (preview_counts_items_only (fun s => s) presentation91).
  intros item [<- | []].
  exists (mkReading (lit "r1") (lit "Lecture") (lit "Is 1") text91).
  split; [left; reflexivity | reflexivity].
Defined.

(** * Further properties of the packer *)

Lemma sections_contents (parts : list jsstring) :
  map s_content (fold_left section_step parts [])
  = filter (fun p => 0 <? length p) (map trim parts).
Proof.
  induction parts as [|p parts IH]; [reflexivity|].
  cbn [fold_left map filter]. rewrite section_step_fold, map_app, IH.
  unfold section_step. destruct (length (trim p)) eqn:L; reflexivity.
Qed.

(** The sections hold the words of the lyrics, in order. *)
Lemma sections_words (lyrics : jsstring) :
  concat (map (fun s => words (s_content s)) (splitSongIntoSections lyrics))
  = words lyrics.
Proof.
  rewrite <- (map_map s_content words). unfold splitSongIntoSections.
  rewrite sections_contents, trimmed_pieces_words.
  apply (proj1 (split_loop_words re_blank_line re_blank_line_spaces lyrics)
           None []).
Qed.

Lemma verseOfRun_words (ty : SectionType) (run : list jsstring) :
  words (v_content (verseOfRun ty run)) = concat (map words run).
Proof.
  unfold verseOfRun. cbn [v_content].
  now rewrite words_trim, (words_join NEWLINE) by reflexivity.
Qed.

Lemma concat_map_concat {A B : Type} (f : A -> list B) (ls : list (list A)) :
  concat (map (fun l => concat (map f l)) ls) = concat (map f (concat ls)).
Proof.
  induction ls as [|l ls IH]; [reflexivity|].
  cbn [map concat]. now rewrite map_app, concat_app, IH.
Qed.

(** The chunks of a section hold the words of the section, in order. *)
Lemma sectionVerses_words (s : Section) :
  solid (s_content s) = true ->
  concat (map (fun v => words (v_content v)) (sectionVerses s))
  = words (s_content s).
Proof.
  intros Hsolid. rewrite (sectionVerses_spec _ Hsolid), map_map.
  rewrite (map_ext _ (fun run => concat (map words run)))
    by (intros run; apply verseOfRun_words).
  rewrite concat_map_concat.
  destruct (lines_last_words _ Hsolid) as [init [l [E Hl]]].
  rewrite E, greedy_pack_partition_exact, <- E by exact Hl.
  rewrite <- (words_join NEWLINE) by reflexivity.
  now rewrite join_split_newline.
Qed.

Lemma flat_map_words (sections : list Section) :
  Forall (fun s => solid (s_content s) = true) sections ->
  concat (map (fun v => words (v_content v)) (flat_map sectionVerses sections))
  = concat (map (fun s => words (s_content s)) sections).
Proof.
  induction 1 as [|s sections Hs _ IH]; [reflexivity|].
  cbn [flat_map map concat].
  now rewrite map_app, concat_app, IH, sectionVerses_words.
Qed.

Lemma length_concat_words (l : list jsstring) :
  length (concat (map words l)) = runWords l.
Proof.
  induction l as [|x l IH]; [reflexivity|].
  cbn [map concat]. rewrite length_app, IH, <- countWords_words.
  reflexivity.
Qed.

(** X7. Song mode keeps the content: the words of the chunks that
    [optimizeSongForWordCount] returns, read chunk after chunk, are exactly
    the words of the lyrics, none lost, repeated or reordered; hence the
    contents joined by line feeds, with white space collapsed, are the
    collapsed lyrics, and the word counts of the chunks add up to the word
    count of the lyrics. *)
Theorem song_content_preserved (lyrics : jsstring) :
  let verses := optimizeSongForWordCount lyrics in
  concat (map (fun v => words (v_content v)) verses) = words lyrics
  /\ collapse (join [NEWLINE] (map v_content verses)) = collapse lyrics
  /\ list_sum (map v_wordCount verses) = countWords lyrics.
Proof.
  intros verses.
  assert (W : concat (map (fun v => words (v_content v)) verses) = words lyrics).
  { unfold verses. rewrite optimizeSong_sections, flat_map_words.
    - apply sections_words.
    - apply Forall_forall. intros s Hs.
      now destruct (splitSongIntoSections_In _ _ Hs). }
  split; [exact W|]. split.
  - unfold collapse. f_equal.
    rewrite (words_join NEWLINE) by reflexivity. now rewrite map_map.
  - rewrite countWords_words, <- W.
    assert (F : Forall wellFormedVerse verses).
    { apply Forall_forall. intros v Hv.
      assert (S : forall s, In s (splitSongIntoSections lyrics) ->
                            solid (s_content s) = true)
        by (intros s Hs; now destruct (splitSongIntoSections_In _ _ Hs)).
      unfold verses in Hv. rewrite optimizeSong_sections in Hv.
      apply in_flat_map in Hv as [s [Hs Hv]].
      rewrite (sectionVerses_spec _ (S s Hs)) in Hv.
      apply in_map_iff in Hv as [run [<- Hrun]].
      apply verseOfRun_wellFormed.
      destruct (greedy_pack_partition _ countWords false
                  (split sep_newline (s_content s))) as [rest [_ [_ Hruns]]].
      rewrite Forall_forall in Hruns. now apply Hruns. }
    clear W. induction F as [|v vs Hv _ IH]; [reflexivity|].
    cbn [map list_sum concat]. rewrite length_app, <- IH.
    destruct Hv as [_ [_ [Hc _]]]. cbn [chunkOfVerse content wordCount] in Hc.
    rewrite Hc, countWords_words. reflexivity.
Qed.

(** *** The band of reading mode *)

Lemma pushChunk_Forall (P : Chunk -> Prop) (chunks : list Chunk)
      (current : jsstring) (count : nat) :
  Forall P chunks ->
  (truthy (trim current) = true -> P (mkChunk (trim current) count)) ->
  Forall P (pushChunk chunks current count).
Proof.
  intros Hc Hp. unfold pushChunk. destruct (truthy (trim current)); [|exact Hc].
  apply Forall_app. split; [exact Hc|]. constructor; [auto | constructor].
Qed.

Lemma readingInv_empty (units : list jsstring) (st : PackState) :
  Forall (fun u => solid u = true) units ->
  readingInv units st -> currentWordCount st = 0 -> currentChunk st = [].
Proof.
  intros Hsolid [_ [acc [Hacc [Ecur Ecount]]]] H0.
  rewrite Ecur. replace acc with (@nil jsstring); [reflexivity|].
  symmetry. apply runWords_zero_nil; [now apply (incl_solid units) | lia].
Qed.

Lemma pack_sentence_band (units : list jsstring) (st : PackState)
      (sentence : jsstring) :
  Forall (fun u => solid u = true) units ->
  In sentence units -> bandInv units st ->
  bandInv units (pack_sentence st sentence).
Proof.
  intros Hsolid Hin [Hinv [Hchunks Hcur]].
  split; [now apply pack_sentence_inv|].
  assert (Ssolid : solid sentence = true)
    by (rewrite Forall_forall in Hsolid; auto).
  unfold pack_sentence.
  destruct (MAX_WORDS_PER_SLIDE <? currentWordCount st + countWords sentence)
    eqn:Hmax; cbn [andb].
  - destruct (0 <? currentWordCount st) eqn:Hpos.
    + cbn [optimizedChunks currentChunk currentWordCount].
      split; [|right; split; [exact Hin | reflexivity]].
      apply pushChunk_Forall; [exact Hchunks|]. intros _.
      destruct ((currentWordCount st <? MIN_WORDS_PER_SLIDE)
                && (countWords sentence <=? 15)) eqn:F.
      * left. cbn [wordCount]. apply andb_true_iff in F as [F1 F2].
        apply Nat.ltb_lt in F1. apply Nat.leb_le in F2.
        unfold MIN_WORDS_PER_SLIDE in F1. lia.
      * destruct Hcur as [Hle|[Hone Hcount]].
        -- left. cbn [wordCount]. unfold MAX_WORDS_PER_SLIDE in Hle. lia.
        -- right. cbn [content wordCount].
           assert (Csolid : solid (currentChunk st) = true)
             by (rewrite Forall_forall in Hsolid; auto).
           rewrite (solid_trim _ Csolid). auto.
    + cbn [optimizedChunks currentChunk currentWordCount].
      split; [exact Hchunks|]. right.
      apply Nat.ltb_ge in Hpos. assert (H0 : currentWordCount st = 0) by lia.
      rewrite (readingInv_empty units st Hsolid Hinv H0), H0.
      unfold appendUnit. cbn [truthy app plus]. auto.
  - cbn [optimizedChunks currentChunk currentWordCount].
    split; [exact Hchunks|]. left. now apply Nat.ltb_ge in Hmax.
Qed.

Lemma fold_pack_sentence_band (units l : list jsstring) :
  Forall (fun u => solid u = true) units -> incl l units ->
  forall st, bandInv units st -> bandInv units (fold_left pack_sentence l st).
Proof.
  intros Hsolid. induction l as [|x l IH]; intros Hl st Hst; [exact Hst|].
  cbn [fold_left]. apply IH.
  - intros y Hy. apply Hl. now right.
  - apply pack_sentence_band; [exact Hsolid | apply Hl; now left | exact Hst].
Qed.

Lemma packSentences_band (units : list jsstring) :
  Forall (fun u => solid u = true) units ->
  Forall (withinBand units) (packSentences units).
Proof.
  intros Hsolid. unfold packSentences.
  destruct (fold_pack_sentence_band units units Hsolid (incl_refl units)
              (mkPack [] [] 0)) as [_ [Hchunks Hcur]].
  { split; [|split; [constructor | left; cbn; lia]].
    split; [constructor|]. exists []. repeat split. apply incl_nil_l. }
  apply pushChunk_Forall; [exact Hchunks|]. intros _.
  destruct Hcur as [Hle|[Hone Hcount]].
  - left. cbn [wordCount]. unfold MAX_WORDS_PER_SLIDE in Hle. lia.
  - right. cbn [content wordCount].
    assert (Csolid : solid (currentChunk
              (fold_left pack_sentence units (mkPack [] [] 0))) = true)
      by (rewrite Forall_forall in Hsolid; auto).
    rewrite (solid_trim _ Csolid). auto.
Qed.

Lemma merge_pass_band (units : list jsstring) (chunks : list Chunk) :
  (Forall (withinBand units) chunks ->
   Forall (withinBand units) (merge_pass chunks))
  /\ forall c, Forall (withinBand units) (c :: chunks) ->
               Forall (withinBand units) (merge_pass (c :: chunks)).
Proof.
  induction chunks as [|d rest [IH IH']]; split.
  - auto.
  - auto.
  - apply IH'.
  - intros c H. inversion H as [|? ? Hc Hrest]; subst.
    inversion Hrest as [|? ? Hd Hrest']; subst.
    change (merge_pass (c :: d :: rest))
      with (if mergeable c d then mergedChunk c d :: merge_pass rest
            else c :: merge_pass (d :: rest)).
    destruct (mergeable c d) eqn:M; constructor; auto.
    left. apply mergeable_spec in M. cbn [mergedChunk wordCount]. lia.
Qed.

(** X8. Every chunk that reading mode returns has at most 94 words (the 90
    of the band, or up to 79 words and a forced sentence of at most 15), or is
    exactly one sentence of the text with its own word count: a slide is
    longer than that only when a single sentence is. *)
Theorem reading_chunks_within_band (text : jsstring) (c : Chunk) :
  In c (optimizeContentForWordCount text) ->
  wordCount c <= 94
  \/ (In (content c) (splitIntoSentences text)
      /\ wordCount c = countWords (content c)).
Proof.
  intros Hin.
  assert (H : Forall (withinBand (splitIntoSentences text))
                     (optimizeContentForWordCount text)).
  { rewrite optimizeContent_pass. apply merge_pass_band.
    apply packSentences_band, sentences_solid. }
  rewrite Forall_forall in H. exact (H c Hin).
Qed.

Lemma reading_chunks_within_band_witness :
  In (mkChunk (sentenceN 79 ++ lit " " ++ sentenceN 12) 91)
     (optimizeContentForWordCount text91)
  /\ (91 <= 94
      \/ (In (sentenceN 79 ++ lit " " ++ sentenceN 12)
             (splitIntoSentences text91)
          /\ 91 = countWords (sentenceN 79 ++ lit " " ++ sentenceN 12))).
Proof.
  assert (H : In (mkChunk (sentenceN 79 ++ lit " " ++ sentenceN 12) 91)
                 (optimizeContentForWordCount text91))
    by (vm_compute; left; reflexivity).
  split; [exact H|].
  exact (reading_chunks_within_band text91 _ H).
Defined.

(** *** The band of song mode *)

Section PackerBand.

Variable U : Type.
Variable wc : U -> nat.

Lemma step_band (a : Spec42.Acc U) (u : U) :
  packBandInv wc a -> packBandInv wc (Spec42.step wc false a u).
Proof.
  intros [Hcount [Hrun Hruns]]. unfold Spec42.step. cbn [andb].
  assert (Happend :
            MAX_WORDS_PER_SLIDE < Spec42.run_count a + wc u /\
            0 < Spec42.run_count a
            \/ packBandInv wc
                 (Spec42.mkAcc (Spec42.emitted a) (Spec42.run a ++ [u])
                               (Spec42.run_count a + wc u))).
  { destruct (Nat.le_gt_cases (Spec42.run_count a + wc u) MAX_WORDS_PER_SLIDE)
      as [Hle|Hgt].
    - right. repeat split; acc_simpl.
      + now rewrite runCount_app, runCount_single, Hcount.
      + left. now rewrite runCount_app, runCount_single, <- Hcount.
      + exact Hruns.
    - destruct (Nat.eq_0_gt_0_cases (Spec42.run_count a)) as [H0|Hpos];
        [right | left; split; assumption].
      repeat split; acc_simpl.
      + now rewrite runCount_app, runCount_single, Hcount.
      + right. exists (Spec42.run a), u. split; [reflexivity|].
        now rewrite <- Hcount.
      + exact Hruns. }
  destruct (MAX_WORDS_PER_SLIDE <? Spec42.run_count a + wc u) eqn:Hmax;
    cbn [andb].
  2:{ destruct Happend as [[H _]|H]; [|exact H].
      apply Nat.ltb_ge in Hmax. lia. }
  destruct (0 <? Spec42.run_count a) eqn:Hpos.
  2:{ destruct Happend as [[_ H]|H]; [|exact H].
      apply Nat.ltb_ge in Hpos. lia. }
  repeat split; acc_simpl.
  - now rewrite runCount_single.
  - right. exists [], u. split; reflexivity.
  - apply Forall_app. split; [exact Hruns|]. constructor; [exact Hrun|constructor].
Qed.

Lemma greedy_pack_band (units : list U) :
  Forall (runWithinBand wc) (Spec42.greedy_pack wc false units).
Proof.
  unfold Spec42.greedy_pack.
  assert (H : forall l a, packBandInv wc a ->
                          packBandInv wc (fold_left (Spec42.step wc false) l a)).
  { induction l as [|u l IH]; intros a Ha; [exact Ha|].
    cbn [fold_left]. apply IH. now apply step_band. }
  destruct (H units (Spec42.mkAcc [] [] 0)) as [_ [Hrun Hruns]].
  { repeat split; acc_simpl; [left; cbn; lia | constructor]. }
  unfold Spec42.finish. destruct (0 <? Spec42.run_count _); [|exact Hruns].
  apply Forall_app. split; [exact Hruns|]. constructor; [exact Hrun|constructor].
Qed.

End PackerBand.

(** X9. Every chunk that song mode returns has at most 90 words, or holds
    one line of its section and nothing else: its content is that line,
    trimmed, and its word count is the word count of the line.  A slide of a
    song passes 90 words only when a single line does. *)
Theorem song_chunks_within_band (lyrics : jsstring) (v : Verse) :
  In v (optimizeSongForWordCount lyrics) ->
  v_wordCount v <= 90
  \/ exists s line,
       In s (splitSongIntoSections lyrics)
       /\ In line (split sep_newline (s_content s))
       /\ v_wordCount v = countWords line
       /\ v_content v = trim line.
Proof.
  intros Hv. rewrite optimizeSong_sections in Hv.
  apply in_flat_map in Hv as [s [Hs Hv]].
  destruct (splitSongIntoSections_In _ _ Hs) as [Hsolid _].
  rewrite (sectionVerses_spec _ Hsolid) in Hv.
  apply in_map_iff in Hv as [run [<- Hrun]].
  assert (B := greedy_pack_band _ countWords (split sep_newline (s_content s))).
  rewrite Forall_forall in B.
  destruct (B run Hrun) as [Hle|[zs [line [Erun Hz]]]].
  - left. exact Hle.
  - right. exists s, line. split; [exact Hs|].
    split.
    + destruct (greedy_pack_partition _ countWords false
                  (split sep_newline (s_content s))) as [rest [Hcat _]].
      rewrite <- Hcat. apply in_or_app. left.
      apply in_concat. exists run. split; [exact Hrun|].
      rewrite Erun. apply in_or_app. right. now left.
    + rewrite Erun, (verseOfRun_zero_prefix (s_type s) zs line Hz).
      split; reflexivity.
Qed.

Lemma song_chunks_within_band_witness :
  In (mkVerse (lineN 120) 120 verse) (optimizeSongForWordCount lyrics123)
  /\ (120 <= 90
      \/ exists s line,
           In s (splitSongIntoSections lyrics123)
           /\ In line (split sep_newline (s_content s))
           /\ 120 = countWords line
           /\ lineN 120 = trim line).
Proof.
  assert (H : In (mkVerse (lineN 120) 120 verse)
                 (optimizeSongForWordCount lyrics123))
    by (vm_compute; right; left; reflexivity).
  split; [exact H|].
  exact (song_chunks_within_band lyrics123 _ H).
Defined.

(** *** What the merge pass keeps *)

Lemma merge_pass_counts (chunks : list Chunk) :
  list_sum (map wordCount (merge_pass chunks)) = list_sum (map wordCount chunks)
  /\ forall c,
       list_sum (map wordCount (merge_pass (c :: chunks)))
       = list_sum (map wordCount (c :: chunks)).
Proof.
  induction chunks as [|d rest [IH IH']]; split; try reflexivity.
  - apply IH'.
  - intros c.
    change (merge_pass (c :: d :: rest))
      with (if mergeable c d then mergedChunk c d :: merge_pass rest
            else c :: merge_pass (d :: rest)).
    destruct (mergeable c d).
    + change (wordCount c + wordCount d
              + list_sum (map wordCount (merge_pass rest))
              = wordCount c
                + (wordCount d + list_sum (map wordCount rest))).
      rewrite IH. lia.
    + change (wordCount c + list_sum (map wordCount (merge_pass (d :: rest)))
              = wordCount c + list_sum (map wordCount (d :: rest))).
      now rewrite IH'.
Qed.

Lemma merge_pass_length (chunks : list Chunk) :
  (length (merge_pass chunks) <= length chunks
   /\ length chunks <= 2 * length (merge_pass chunks))
  /\ forall c,
       length (merge_pass (c :: chunks)) <= length (c :: chunks)
       /\ length (c :: chunks) <= 2 * length (merge_pass (c :: chunks)).
Proof.
  induction chunks as [|d rest [IH IH']]; split.
  - simpl. lia.
  - intros c. simpl. lia.
  - apply IH'.
  - intros c.
    change (merge_pass (c :: d :: rest))
      with (if mergeable c d then mergedChunk c d :: merge_pass rest
            else c :: merge_pass (d :: rest)).
    destruct (mergeable c d); cbn [length].
    + lia.
    + specialize (IH' d). cbn [length] in IH'. lia.
Qed.

(** X10. The merge pass neither loses nor adds anything: the chunks it
    returns hold the same words in the same order and the same total of word
    counts as the chunks it was given; it returns at most as many chunks and
    at least half as many, since a chunk is merged with at most one
    neighbour. *)
Theorem merge_pass_conserves (chunks : list Chunk) :
  chunkWords (mergeSmallChunks chunks) = chunkWords chunks
  /\ list_sum (map wordCount (mergeSmallChunks chunks))
     = list_sum (map wordCount chunks)
  /\ length (mergeSmallChunks chunks) <= length chunks
  /\ length chunks <= 2 * length (mergeSmallChunks chunks).
Proof.
  rewrite mergeSmallChunks_pass.
  split; [apply merge_pass_words|].
  split; [apply merge_pass_counts|].
  apply merge_pass_length.
Qed.

Lemma merge_pass_fixed (chunks : list Chunk) :
  (merge_pass chunks = chunks <-> ~ hasMergeablePair chunks)
  /\ forall c,
       merge_pass (c :: chunks) = c :: chunks
       <-> ~ hasMergeablePair (c :: chunks).
Proof.
  induction chunks as [|d rest [IH IH']]; split.
  - split; [|reflexivity]. intros _ (pre & c & d & post & E & _).
    destruct pre; discriminate.
  - intros c. split; [|reflexivity]. intros _ (pre & x & y & post & E & _).
    destruct pre as [|p [|q pre]]; discriminate.
  - apply IH'.
  - intros c.
    change (merge_pass (c :: d :: rest))
      with (if mergeable c d then mergedChunk c d :: merge_pass rest
            else c :: merge_pass (d :: rest)).
    destruct (mergeable c d) eqn:M.
    + split.
      * intros E. exfalso.
        assert (L := proj1 (proj1 (merge_pass_length rest))).
        apply (f_equal (@length Chunk)) in E. cbn [length] in E. lia.
      * intros H. exfalso. apply H. now exists [], c, d, rest.
    + split.
      * intros E. injection E as E. apply IH' in E.
        intros (pre & x & y & post & Epre & Mxy).
        destruct pre as [|p pre].
        -- injection Epre as -> -> _. congruence.
        -- injection Epre as _ Epre. apply E. now exists pre, x, y, post.
      * intros H. f_equal. apply IH'.
        intros (pre & x & y & post & Epre & Mxy). apply H.
        exists (c :: pre), x, y, post. split; [now rewrite Epre | exact Mxy].
Qed.

(** X11. The merge pass returns its input unchanged exactly when no chunk of
    fewer than 80 words is directly followed by a chunk with which it has at
    most 90 words; in particular when every chunk has at least 80 words. *)
Theorem merge_pass_fixed_points (chunks : list Chunk) :
  (mergeSmallChunks chunks = chunks <-> ~ hasMergeablePair chunks)
  /\ (Forall (fun c => 80 <= wordCount c) chunks ->
      mergeSmallChunks chunks = chunks).
Proof.
  rewrite mergeSmallChunks_pass.
  split; [apply merge_pass_fixed|].
  intros Hbig. apply merge_pass_fixed.
  intros (pre & c & d & post & E & M). apply mergeable_spec in M.
  rewrite Forall_forall in Hbig.
  assert (H : 80 <= wordCount c)
    by (apply Hbig; rewrite E; apply in_or_app; right; now left).
  lia.
Qed.

Lemma merge_pass_fixed_points_witness :
  Forall (fun c => 80 <= wordCount c)
         [mkChunk (lit "un") 80; mkChunk (lit "deux") 85]
  /\ mergeSmallChunks [mkChunk (lit "un") 80; mkChunk (lit "deux") 85]
     = [mkChunk (lit "un") 80; mkChunk (lit "deux") 85].
Proof.
  assert (H : Forall (fun c => 80 <= wordCount c)
                     [mkChunk (lit "un") 80; mkChunk (lit "deux") 85])
    by (repeat constructor; cbn; lia).
  split; [exact H|].
  exact (proj2 (merge_pass_fixed_points _) H).
Defined.

(** *** A text that fits on one slide *)

Lemma runWords_sentences (text : jsstring) :
  runWords (splitIntoSentences text) = countWords text.
Proof.
  rewrite <- length_concat_words, splitIntoSentences_words.
  symmetry. apply countWords_words.
Qed.

(** X12. A text of at most 90 words that is not white space only gives
    exactly one chunk in reading mode: all its sentences joined by single
    blanks, with the word count of the text. *)
Theorem short_text_one_chunk (text : jsstring) :
  blank text = false ->
  countWords text <= 90 ->
  optimizeContentForWordCount text
  = [mkChunk (join (lit " ") (splitIntoSentences text)) (countWords text)].
Proof.
  intros Hb Hshort. rewrite optimizeContent_pass.
  assert (Hsolid := sentences_solid text).
  assert (Hne : splitIntoSentences text <> [])
    by (intros E; apply splitIntoSentences_nil in E; congruence).
  unfold packSentences.
  rewrite fold_pack_sentence_fits by now rewrite runWords_sentences.
  cbn [optimizedChunks currentChunk currentWordCount].
  rewrite foldUnits_join, runWords_sentences by exact Hsolid.
  rewrite pushChunk_solid by (now apply solid_join).
  reflexivity.
Qed.

Lemma short_text_one_chunk_witness :
  blank (sentenceN 30 ++ lit " " ++ sentenceN 30 ++ lit " " ++ sentenceN 30)
  = false
  /\ map wordCount
         (optimizeContentForWordCount
            (sentenceN 30 ++ lit " " ++ sentenceN 30 ++ lit " " ++ sentenceN 30))
     = [90].
Proof.
  split; [vm_compute; reflexivity|].
  rewrite (short_text_one_chunk
             (sentenceN 30 ++ lit " " ++ sentenceN 30 ++ lit " " ++ sentenceN 30));
    vm_compute; reflexivity.
Defined.

(** *** Sentences keep their punctuation *)

Lemma isTerminal_not_space (c : char) :
  isTerminal c = true -> isSpace c = false.
Proof.
  unfold isTerminal. rewrite !orb_true_iff, !N.eqb_eq.
  intros [[->| ->]| ->]; reflexivity.
Qed.

(** In [split] on [/(?<=[.!?])\s+/] every piece but the last ends with the
    character that the separator looked back at. *)
Lemma split_sentences_terminal (s : jsstring) :
  forall prev cur skip,
    pieceInv prev cur ->
    skip <= spanLen isSpace s ->
    (0 < skip -> cur = []) ->
    exists init final,
      split_loop re_sentence_end prev cur skip s = init ++ [final]
      /\ Forall endsWithTerminal init.
Proof.
  induction s as [|c s IH]; intros prev cur skip Hinv Hskip Hcur.
  - exists [], (rev cur). split; [reflexivity | constructor].
  - cbn [split_loop]. destruct skip as [|k].
    + destruct (re_sentence_end prev (c :: s)) as [[|k]|] eqn:M.
      * destruct (IH (Some c) (c :: cur) 0) as [init [final [E F]]];
          [reflexivity | lia | lia |]. eauto.
      * assert (Hk := re_sentence_end_spaces _ _ _ M). cbn [spanLen] in Hk.
        destruct (isSpace c) eqn:Hc; [|lia].
        destruct (IH (Some c) [] k) as [init [final [E F]]].
        { intros p Hp. now injection Hp as <-. }
        { lia. }
        { reflexivity. }
        exists (rev cur :: init), final. rewrite E. split; [reflexivity|].
        constructor; [|exact F].
        unfold re_sentence_end in M. destruct prev as [p|]; [|discriminate].
        destruct (isTerminal p) eqn:T; [|discriminate].
        destruct cur as [|x cur].
        -- specialize (Hinv p eq_refl).
           rewrite (isTerminal_not_space _ T) in Hinv. discriminate.
        -- cbn [pieceInv] in Hinv. injection Hinv as ->.
           exists (rev cur), x. split; [reflexivity | exact T].
      * destruct (IH (Some c) (c :: cur) 0) as [init [final [E F]]];
          [reflexivity | lia | lia |]. eauto.
    + cbn [spanLen] in Hskip. destruct (isSpace c) eqn:Hc; [|lia].
      rewrite (Hcur ltac:(lia)).
      destruct (IH (Some c) [] k) as [init [final [E F]]].
      { intros p Hp. now injection Hp as <-. }
      { lia. }
      { reflexivity. }
      eauto.
Qed.

Lemma trim_keeps_last (body : jsstring) (c : char) :
  isSpace c = false -> exists body', trim (body ++ [c]) = body' ++ [c].
Proof.
  intros Hc.
  assert (S : exists z, trimStart (body ++ [c]) = z ++ [c]).
  { induction body as [|b body IH]; cbn [app trimStart].
    - rewrite Hc. now exists [].
    - destruct (isSpace b); [exact IH|]. now exists (b :: body). }
  destruct S as [z Ez]. exists z. unfold trim, trimEnd.
  rewrite Ez, rev_app_distr. cbn [rev app trimStart]. rewrite Hc.
  change (c :: rev z) with ([c] ++ rev z).
  now rewrite rev_app_distr, rev_involutive.
Qed.

Lemma trimmed_pieces_terminal (init : list jsstring) :
  Forall endsWithTerminal init ->
  Forall endsWithTerminal
         (filter (fun sentence => 0 <? length sentence) (map trim init)).
Proof.
  induction 1 as [|p init [body [c [-> T]]] _ IH]; [constructor|].
  destruct (trim_keeps_last body c (isTerminal_not_space _ T)) as [body' E].
  cbn [map filter]. rewrite E.
  replace (0 <? length (body' ++ [c])) with true
    by (symmetry; apply Nat.ltb_lt; rewrite length_app; cbn [length]; lia).
  constructor; [|exact IH]. now exists body', c.
Qed.

(** X13. The sentence splitter cuts only behind a full stop, an exclamation
    mark or a question mark, which stays with its sentence: every sentence
    that [splitIntoSentences] returns, except the last one, ends with one of
    these three characters. *)
Theorem sentences_end_with_punctuation (text : jsstring)
        (init : list jsstring) (final : jsstring) :
  splitIntoSentences text = init ++ [final] ->
  Forall endsWithTerminal init.
Proof.
  unfold splitIntoSentences, split.
  destruct (split_sentences_terminal text None [] 0)
    as [pieces [tail [E F]]]; [intros p Hp; discriminate | lia | lia |].
  rewrite E, map_app, filter_app.
  assert (F' := trimmed_pieces_terminal pieces F).
  cbn [map filter]. destruct (0 <? length (trim tail)).
  - intros H. apply app_inj_tail in H as [<- _]. exact F'.
  - rewrite app_nil_r. intros H.
    assert (G : Forall endsWithTerminal (init ++ [final]))
      by (rewrite <- H; exact F').
    now apply Forall_app in G.
Qed.

Lemma sentences_end_with_punctuation_witness :
  splitIntoSentences (lit "Gloire a Dieu ! Paix aux hommes ? Amen")
  = [lit "Gloire a Dieu !"; lit "Paix aux hommes ?"] ++ [lit "Amen"]
  /\ Forall endsWithTerminal [lit "Gloire a Dieu !"; lit "Paix aux hommes ?"].
Proof.
  assert (H : splitIntoSentences (lit "Gloire a Dieu ! Paix aux hommes ? Amen")
              = [lit "Gloire a Dieu !"; lit "Paix aux hommes ?"] ++ [lit "Amen"])
    by (vm_compute; reflexivity).
  split; [exact H|].
  exact (sentences_end_with_punctuation _ _ _ H).
Defined.

(** ** The slide order kept by [App] *)

Lemma listed_true (slideOrder : list SlideItem) (id : jsstring) :
  listed slideOrder id = true <-> In id (map si_id slideOrder).
Proof.
  unfold listed. destruct (find _ slideOrder) as [item|] eqn:F.
  - apply find_some in F as [Hin Hid]. apply jsstring_eqb_eq in Hid.
    split; [intros _ | reflexivity]. rewrite <- Hid. now apply in_map.
  - split; [discriminate|]. intros Hin.
    apply in_map_iff in Hin as [item [Hid Hin]].
    apply (find_none _ _ F) in Hin. cbv beta in Hin. rewrite Hid in Hin.
    rewrite (proj2 (jsstring_eqb_eq id id) eq_refl) in Hin. discriminate.
Qed.

Lemma listed_by_keys (so1 so2 : list SlideItem) (id : jsstring) :
  map itemKey so1 = map itemKey so2 -> listed so1 id = listed so2 id.
Proof.
  intros K.
  assert (I : map si_id so1 = map si_id so2).
  { assert (H : map fst (map itemKey so1) = map fst (map itemKey so2))
      by now rewrite K.
    rewrite !map_map in H. exact H. }
  destruct (listed so1 id) eqn:L1, (listed so2 id) eqn:L2; try reflexivity.
  - apply listed_true in L1. rewrite I in L1. apply listed_true in L1.
    congruence.
  - apply listed_true in L2. rewrite <- I in L2. apply listed_true in L2.
    congruence.
Qed.

Lemma stillValid_names (readings : list LiturgyReading)
      (songs : list SongEntry) (item : SlideItem) :
  stillValid readings songs item = true
  <-> namesEntry readings songs (itemKey item).
Proof.
  unfold stillValid, namesEntry, itemKey. cbn [fst snd].
  destruct (si_type item).
  - destruct (find _ readings) as [r|] eqn:F.
    + apply find_some in F as [Hin Hid]. apply jsstring_eqb_eq in Hid.
      split; eauto.
    + split; [discriminate|]. intros [r [Hin Hid]].
      apply (find_none _ _ F) in Hin. apply jsstring_eqb_eq in Hid. congruence.
  - destruct (find _ songs) as [s|] eqn:F.
    + apply find_some in F as [Hin Hid]. apply jsstring_eqb_eq in Hid.
      split; eauto.
    + split; [discriminate|]. intros [s [Hin Hid]].
      apply (find_none _ _ F) in Hin. apply jsstring_eqb_eq in Hid. congruence.
Qed.

Lemma stillValid_by_key (readings : list LiturgyReading)
      (songs : list SongEntry) (a b : SlideItem) :
  itemKey a = itemKey b ->
  stillValid readings songs a = stillValid readings songs b.
Proof.
  unfold itemKey, stillValid. intros K. injection K as -> ->. reflexivity.
Qed.

Lemma filter_stillValid_by_keys (readings : list LiturgyReading)
      (songs : list SongEntry) (so1 : list SlideItem) :
  forall so2,
    map itemKey so1 = map itemKey so2 ->
    map itemKey (filter (stillValid readings songs) so1)
    = map itemKey (filter (stillValid readings songs) so2).
Proof.
  induction so1 as [|a so1 IH]; intros [|b so2] K; try discriminate;
    [reflexivity|].
  cbn [map] in K.
  assert (Kab := f_equal (hd (itemKey a)) K). cbn [hd] in Kab.
  apply (f_equal (@tl _)) in K. cbn [tl] in K.
  cbn [filter]. rewrite (stillValid_by_key readings songs a b Kab).
  destruct (stillValid readings songs b); cbn [map];
    now rewrite (IH so2 K), ?Kab.
Qed.

Lemma addNewReading_keys (slideOrder : list SlideItem)
      (readings : list LiturgyReading) :
  forall st,
    map itemKey (fst (fold_left (addNewReading slideOrder) readings st))
    = map itemKey (fst st)
      ++ map (fun r => (r_id r, reading_item))
             (filter (fun r => negb (listed slideOrder (r_id r))) readings).
Proof.
  induction readings as [|r rs IH]; intros st; cbn [fold_left filter map].
  - now rewrite app_nil_r.
  - rewrite IH. unfold addNewReading.
    destruct (negb (listed slideOrder (r_id r))); cbn [fst map];
      [|reflexivity].
    now rewrite map_app, <- app_assoc.
Qed.

Lemma addNewSong_keys (slideOrder : list SlideItem) (songs : list SongEntry) :
  forall st,
    map itemKey (fst (fold_left (addNewSong slideOrder) songs st))
    = map itemKey (fst st)
      ++ map (fun s => (sg_id s, song_item))
             (filter (fun s => negb (listed slideOrder (sg_id s))) songs).
Proof.
  induction songs as [|s ss IH]; intros st; cbn [fold_left filter map].
  - now rewrite app_nil_r.
  - rewrite IH. unfold addNewSong.
    destruct (negb (listed slideOrder (sg_id s))); cbn [fst map];
      [|reflexivity].
    now rewrite map_app, <- app_assoc.
Qed.

Lemma renumber_from_keys (l : list SlideItem) :
  forall n,
    map itemKey
        (mapi_from (fun item index =>
                      mkSlideItem (si_id item) (si_type item) (Z.of_nat index))
                   n l)
    = map itemKey l.
Proof.
  induction l as [|x l IH]; intros n; [reflexivity|].
  cbn [mapi_from map]. now rewrite IH.
Qed.

Lemma renumber_from_orders (l : list SlideItem) :
  forall n,
    map si_order
        (mapi_from (fun item index =>
                      mkSlideItem (si_id item) (si_type item) (Z.of_nat index))
                   n l)
    = map Z.of_nat (seq n (length l)).
Proof.
  induction l as [|x l IH]; intros n; [reflexivity|].
  cbn [mapi_from map length seq si_order]. now rewrite IH.
Qed.

Lemma renumber_from_by_keys (l1 : list SlideItem) :
  forall l2 n,
    map itemKey l1 = map itemKey l2 ->
    mapi_from (fun item index =>
                 mkSlideItem (si_id item) (si_type item) (Z.of_nat index))
              n l1
    = mapi_from (fun item index =>
                   mkSlideItem (si_id item) (si_type item) (Z.of_nat index))
                n l2.
Proof.
  induction l1 as [|a l1 IH]; intros [|b l2] n K; try discriminate;
    [reflexivity|].
  cbn [map] in K. injection K as Kid Kty K.
  cbn [mapi_from]. now rewrite Kid, Kty, (IH l2 (S n) K).
Qed.

Lemma renumber_from_fixed (l : list SlideItem) :
  forall n,
    map si_order l = map Z.of_nat (seq n (length l)) ->
    mapi_from (fun item index =>
                 mkSlideItem (si_id item) (si_type item) (Z.of_nat index))
              n l
    = l.
Proof.
  induction l as [|x l IH]; intros n H; [reflexivity|].
  cbn [map length seq] in H. injection H as Hx Hl.
  cbn [mapi_from]. rewrite (IH (S n) Hl), <- Hx. now destruct x.
Qed.

Lemma sortByOrder_numbered (l : list SlideItem) :
  forall n,
    map si_order l = map Z.of_nat (seq n (length l)) -> sortByOrder l = l.
Proof.
  induction l as [|x l IH]; intros n H; [reflexivity|].
  cbn [map length seq] in H. injection H as Hx Hl.
  cbn [sortByOrder]. rewrite (IH (S n) Hl).
  destruct l as [|y l]; [reflexivity|].
  cbn [map length seq] in Hl. injection Hl as Hy _.
  cbn [insertByOrder].
  replace (si_order x <=? si_order y)%Z with true; [reflexivity|].
  symmetry. apply Z.leb_le. lia.
Qed.

(** The keys of the new slide order: the items of the state that are still
    valid, then the readings and the songs that the state does not list. *)
Lemma updateSlideOrder_keys (readings : list LiturgyReading)
      (songs : list SongEntry) (slideOrder : list SlideItem) :
  map itemKey (updateSlideOrder readings songs slideOrder)
  = map itemKey (filter (stillValid readings songs) slideOrder)
    ++ map (fun r => (r_id r, reading_item))
           (filter (fun r => negb (listed slideOrder (r_id r))) readings)
    ++ map (fun s => (sg_id s, song_item))
           (filter (fun s => negb (listed slideOrder (sg_id s))) songs).
Proof.
  unfold updateSlideOrder, renumber.
  rewrite renumber_from_keys, map_app, addNewSong_keys, addNewReading_keys.
  reflexivity.
Qed.

Lemma updateSlideOrder_orders (readings : list LiturgyReading)
      (songs : list SongEntry) (slideOrder : list SlideItem) :
  map si_order (updateSlideOrder readings songs slideOrder)
  = map Z.of_nat
        (seq 0 (length (updateSlideOrder readings songs slideOrder))).
Proof.
  unfold updateSlideOrder, renumber.
  rewrite renumber_from_orders. f_equal. f_equal.
  rewrite <- (length_map itemKey (mapi_from _ _ _)), renumber_from_keys.
  now rewrite length_map.
Qed.

Lemma updateSlideOrder_key_iff (readings : list LiturgyReading)
      (songs : list SongEntry) (slideOrder : list SlideItem)
      (key : jsstring * ItemType) :
  In key (map itemKey (updateSlideOrder readings songs slideOrder))
  <-> namesEntry readings songs key
      /\ (In key (map itemKey slideOrder) \/ listed slideOrder (fst key) = false).
Proof.
  rewrite updateSlideOrder_keys, !in_app_iff. split.
  - intros [Hin | [Hin | Hin]]; apply in_map_iff in Hin as [x [K Hin]];
      apply filter_In in Hin as [Hin V].
    + apply stillValid_names in V. rewrite K in V. split; [exact V|].
      left. rewrite <- K. now apply in_map.
    + apply negb_true_iff in V. subst key. split; [now exists x | now right].
    + apply negb_true_iff in V. subst key. split; [now exists x | now right].
  - intros [N [Hin | L]].
    + left. apply in_map_iff in Hin as [item [K Hin]].
      apply in_map_iff. exists item.
      split; [exact K|]. apply filter_In. split; [exact Hin|].
      apply stillValid_names. now rewrite K.
    + right. destruct key as [id ty]. unfold namesEntry in N.
      cbn [fst snd] in N, L. destruct ty.
      * left. destruct N as [r [Hin Hid]]. apply in_map_iff. exists r.
        split; [now rewrite Hid|].
        apply filter_In. split; [exact Hin|]. now rewrite Hid, L.
      * right. destruct N as [s [Hin Hid]]. apply in_map_iff. exists s.
        split; [now rewrite Hid|].
        apply filter_In. split; [exact Hin|]. now rewrite Hid, L.
Qed.

Lemma updateSlideOrder_by_keys (readings : list LiturgyReading)
      (songs : list SongEntry) (so1 so2 : list SlideItem) :
  map itemKey so1 = map itemKey so2 ->
  updateSlideOrder readings songs so1 = updateSlideOrder readings songs so2.
Proof.
  intros K. unfold updateSlideOrder, renumber.
  apply renumber_from_by_keys.
  rewrite !map_app, !addNewSong_keys, !addNewReading_keys.
  rewrite (filter_stillValid_by_keys readings songs so1 so2 K).
  f_equal. f_equal.
  - f_equal. f_equal. apply filter_ext. intros r.
    now rewrite (listed_by_keys so1 so2 (r_id r) K).
  - f_equal. apply filter_ext. intros s.
    now rewrite (listed_by_keys so1 so2 (sg_id s) K).
Qed.

Lemma filter_all {A : Type} (f : A -> bool) (l : list A) :
  (forall x, In x l -> f x = true) -> filter f l = l.
Proof.
  induction l as [|x l IH]; intros H; [reflexivity|].
  cbn [filter]. rewrite (H x (or_introl eq_refl)), IH; [reflexivity|].
  intros y Hy. apply H. now right.
Qed.

Lemma filter_none {A : Type} (f : A -> bool) (l : list A) :
  (forall x, In x l -> f x = false) -> filter f l = [].
Proof.
  induction l as [|x l IH]; intros H; [reflexivity|].
  cbn [filter]. rewrite (H x (or_introl eq_refl)), IH; [reflexivity|].
  intros y Hy. apply H. now right.
Qed.

Lemma updateSlideOrder_valid (readings : list LiturgyReading)
      (songs : list SongEntry) (slideOrder : list SlideItem)
      (item : SlideItem) :
  In item (updateSlideOrder readings songs slideOrder) ->
  stillValid readings songs item = true.
Proof.
  intros Hin. apply stillValid_names.
  apply (updateSlideOrder_key_iff readings songs slideOrder).
  now apply in_map.
Qed.

(** X14. The slide order that the effect of [App] sets carries the orders
    0, 1, 2, ... in the sequence of the array, so that sorting it by [order],
    as [exportPresentation] and [SlideOrderPanel] do, leaves it as it is. *)
Theorem slide_order_numbered (readings : list LiturgyReading)
        (songs : list SongEntry) (slideOrder : list SlideItem) :
  let result := updateSlideOrder readings songs slideOrder in
  map si_order result = map Z.of_nat (seq 0 (length result))
  /\ sortByOrder result = result.
Proof.
  intros result. split.
  - apply updateSlideOrder_orders.
  - apply (sortByOrder_numbered result 0), updateSlideOrder_orders.
Qed.

(** X15. The new slide order holds an item of a given identifier and type
    exactly when that identifier names a reading (for the type reading) or a
    song (for the type song), and either the state already had this item or
    no item of the state had this identifier.  So a reading whose identifier
    the state holds only under the type song gets no item. *)
Theorem slide_order_keys (readings : list LiturgyReading)
        (songs : list SongEntry) (slideOrder : list SlideItem)
        (key : jsstring * ItemType) :
  In key (map itemKey (updateSlideOrder readings songs slideOrder))
  <-> namesEntry readings songs key
      /\ (In key (map itemKey slideOrder) \/ listed slideOrder (fst key) = false).
Proof. apply updateSlideOrder_key_iff. Qed.

(** X16. The effect does not read the orders of the state: two states whose
    items have the same identifiers and types in the same array sequence give
    the same slide order, whatever their [order] fields are. *)
Theorem slide_order_ignores_orders (readings : list LiturgyReading)
        (songs : list SongEntry) (so1 so2 : list SlideItem) :
  map itemKey so1 = map itemKey so2 ->
  updateSlideOrder readings songs so1 = updateSlideOrder readings songs so2.
Proof. apply updateSlideOrder_by_keys. Qed.

Lemma slide_order_ignores_orders_witness :
  map itemKey [mkSlideItem (lit "r1") reading_item 1;
               mkSlideItem (lit "s1") song_item 0]
  = map itemKey [mkSlideItem (lit "r1") reading_item 0;
                 mkSlideItem (lit "s1") song_item 1]
  /\ updateSlideOrder (p_readings presentation91)
                      [mkSongEntry (lit "s1") (lit "Chant") lyrics91 None None]
                      [mkSlideItem (lit "r1") reading_item 1;
                       mkSlideItem (lit "s1") song_item 0]
     = updateSlideOrder (p_readings presentation91)
                        [mkSongEntry (lit "s1") (lit "Chant") lyrics91 None None]
                        [mkSlideItem (lit "r1") reading_item 0;
                         mkSlideItem (lit "s1") song_item 1].
Proof.
  split; [reflexivity|].
  apply (slide_order_ignores_orders
           (p_readings presentation91)
           [mkSongEntry (lit "s1") (lit "Chant") lyrics91 None None]
           [mkSlideItem (lit "r1") reading_item 1;
            mkSlideItem (lit "s1") song_item 0]
           [mkSlideItem (lit "r1") reading_item 0;
            mkSlideItem (lit "s1") song_item 1]).
  reflexivity.
Defined.

(** X17. When every item of the state names a reading or a song, running the
    effect again on its own result, with the same readings and songs, changes
    nothing. *)
Theorem slide_order_stable (readings : list LiturgyReading)
        (songs : list SongEntry) (slideOrder : list SlideItem) :
  (forall item, In item slideOrder -> stillValid readings songs item = true) ->
  updateSlideOrder readings songs (updateSlideOrder readings songs slideOrder)
  = updateSlideOrder readings songs slideOrder.
Proof.
  intros V.
  set (R := updateSlideOrder readings songs slideOrder).
  assert (L : forall key, namesEntry readings songs key ->
                          listed R (fst key) = true).
  { intros key N. apply listed_true.
    rewrite <- (map_map itemKey fst).
    destruct (listed slideOrder (fst key)) eqn:L0.
    - apply listed_true in L0. apply in_map_iff in L0 as [item [Hid Hin]].
      apply in_map_iff. exists (itemKey item). split; [exact Hid|].
      apply updateSlideOrder_key_iff. split.
      + apply stillValid_names, V, Hin.
      + left. now apply in_map.
    - apply in_map_iff. exists key. split; [reflexivity|].
      apply updateSlideOrder_key_iff. split; [exact N | now right]. }
  assert (E : updateSlideOrder readings songs R = renumber R).
  { unfold updateSlideOrder at 1. unfold renumber.
    apply renumber_from_by_keys.
    rewrite map_app, addNewSong_keys, addNewReading_keys.
    rewrite (filter_all (stillValid readings songs) R)
      by (intros item; apply updateSlideOrder_valid).
    rewrite (filter_none (fun r => negb (listed R (r_id r))) readings).
    2:{ intros r Hin. apply negb_false_iff.
        apply (L (r_id r, reading_item)). now exists r. }
    rewrite (filter_none (fun s => negb (listed R (sg_id s))) songs).
    2:{ intros s Hin. apply negb_false_iff.
        apply (L (sg_id s, song_item)). now exists s. }
    cbn [map fst]. now rewrite !app_nil_r. }
  rewrite E. unfold renumber. apply renumber_from_fixed.
  apply updateSlideOrder_orders.
Qed.

Lemma slide_order_stable_witness :
  updateSlideOrder (p_readings presentation91) []
                   (updateSlideOrder (p_readings presentation91) [] [])
  = updateSlideOrder (p_readings presentation91) [] []
  /\ updateSlideOrder (p_readings presentation91) [] []
     = [mkSlideItem (lit "r1") reading_item 0].
Proof.
  split; [|reflexivity].
  apply (slide_order_stable (p_readings presentation91) [] []).
  intros item [].
Defined.

(** X18. The presentation that [App] builds right after the effect has set
    the slide order is exported whole: every item of the order finds its
    reading or its song and brings its title slide, and the file has the
    slides that [PreviewPanel] counts plus one for each chunk. *)
Theorem app_presentation_exported_whole
        (toLocaleDateString : jsstring -> jsstring)
        (title date : jsstring) (readings : list LiturgyReading)
        (songs : list SongEntry) (slideOrder : list SlideItem)
        (presentation : LiturgyPresentation) :
  appPresentation title date readings songs
                  (updateSlideOrder readings songs slideOrder)
  = Some presentation ->
  let exported :=
    length (deck (exportPresentation toLocaleDateString presentation)) in
  (forall item, In item (p_slideOrder presentation) ->
                1 <= itemSlideCount presentation item)
  /\ exported
     = previewTotalSlides presentation
       + list_sum (map (fun item => itemSlideCount presentation item - 1)
                       (p_slideOrder presentation))
  /\ previewTotalSlides presentation <= exported.
Proof.
  unfold appPresentation. intros H.
  destruct (_ || _) in H; [|discriminate]. injection H as <-.
  assert (R : forall item,
             In item (updateSlideOrder readings songs slideOrder) ->
             resolved (mkPresentation title date readings songs
                         (updateSlideOrder readings songs slideOrder)) item).
  { intros item Hin.
    apply (stillValid_names readings songs item).
    exact (updateSlideOrder_valid readings songs slideOrder item Hin). }
  cbv zeta. split.
  - intros item Hin. apply itemSlideCount_resolved, R, Hin.
  - exact (exported_count_resolved toLocaleDateString
             (mkPresentation title date readings songs
                (updateSlideOrder readings songs slideOrder)) R).
Qed.

Lemma app_presentation_exported_whole_witness :
  appPresentation (lit "Messe") (lit "2025-04-20")
                  (p_readings presentation91) []
                  (updateSlideOrder (p_readings presentation91) [] [])
  = Some presentation91
  /\ previewTotalSlides presentation91
     <= length (deck (exportPresentation (fun s => s) presentation91)).
Proof.
  assert (H : appPresentation (lit "Messe") (lit "2025-04-20")
                (p_readings presentation91) []
                (updateSlideOrder (p_readings presentation91) [] [])
              = Some presentation91) by reflexivity.
  split; [exact H|].
  exact (proj2 (proj2 (app_presentation_exported_whole
                         (fun s => s) _ _ _ _ _ _ H))).
Defined.

(** ** Moving a slide *)

Lemma sortOn_snd (ps : list Ref) :
  map snd (sortOn (fun e : Ref => si_order (snd e)) ps)
  = sortByOrder (map snd ps).
Proof.
  assert (I : forall (e : Ref) l,
             map snd (insertOn (fun e : Ref => si_order (snd e)) e l)
             = insertByOrder (snd e) (map snd l)).
  { intros e l. induction l as [|y l IH]; [reflexivity|].
    cbn [insertOn insertByOrder map].
    destruct (si_order (snd e) <=? si_order (snd y))%Z; [reflexivity|].
    cbn [map]. now rewrite IH. }
  induction ps as [|e ps IH]; [reflexivity|].
  cbn [sortOn map sortByOrder]. now rewrite I, IH.
Qed.

Lemma objects_snd (slideOrder : list SlideItem) :
  map snd (objects slideOrder) = slideOrder.
Proof.
  unfold objects. generalize 0.
  induction slideOrder as [|x l IH]; intros n; [reflexivity|].
  cbn [length seq combine map snd]. now rewrite IH.
Qed.

Lemma objects_fst (slideOrder : list SlideItem) :
  map fst (objects slideOrder) = seq 0 (length slideOrder).
Proof.
  unfold objects. generalize 0.
  induction slideOrder as [|x l IH]; intros n; [reflexivity|].
  cbn [length seq combine map fst]. now rewrite IH.
Qed.

Lemma sortOn_perm {A : Type} (order : A -> Z) (l : list A) :
  Permutation (sortOn order l) l.
Proof.
  assert (I : forall x l, Permutation (insertOn order x l) (x :: l)).
  { intros x l0. induction l0 as [|y l0 IH]; [reflexivity|].
    cbn [insertOn]. destruct (order x <=? order y)%Z; [reflexivity|].
    rewrite IH. apply perm_swap. }
  induction l as [|x l IH]; [reflexivity|].
  cbn [sortOn]. rewrite I. now constructor.
Qed.

(** Strictly increasing lists of orders. *)
Lemma increasing_middle (l1 l2 : list Z) (z : Z) :
  StronglySorted Z.lt (l1 ++ z :: l2) ->
  StronglySorted Z.lt (l1 ++ l2)
  /\ Forall (fun y => (y < z)%Z) l1 /\ Forall (fun y => (z < y)%Z) l2.
Proof.
  induction l1 as [|x l1 IH]; cbn [app]; intros H.
  - apply StronglySorted_inv in H as [H F]. repeat split; auto.
  - apply StronglySorted_inv in H as [H F].
    destruct (IH H) as [S' [F1 F2]].
    apply Forall_app in F as [Fa Fb]. apply Forall_cons_iff in Fb as [xz Fb].
    repeat split; auto.
    constructor; [exact S'|]. apply Forall_app. now split.
Qed.

Lemma insertByOrder_middle (x : SlideItem) (u v : list SlideItem) :
  Forall (fun y => (y < si_order x)%Z) (map si_order u) ->
  Forall (fun y => (si_order x < y)%Z) (map si_order v) ->
  insertByOrder x (u ++ v) = u ++ x :: v.
Proof.
  induction u as [|z u IH]; cbn [app map]; intros Fu Fv.
  - destruct v as [|y v]; [reflexivity|].
    cbn [map] in Fv. apply Forall_cons_iff in Fv as [xy _].
    cbn [insertByOrder].
    replace (si_order x <=? si_order y)%Z with true; [reflexivity|].
    symmetry. apply Z.leb_le. lia.
  - apply Forall_cons_iff in Fu as [zx Fu].
    cbn [insertByOrder].
    replace (si_order x <=? si_order z)%Z with false
      by (symmetry; apply Z.leb_gt; lia).
    now rewrite (IH Fu Fv).
Qed.

(** A list sorts into the arrangement of its items whose orders increase
    strictly, when there is one. *)
Lemma sortByOrder_increasing (l : list SlideItem) :
  forall l',
    Permutation l l' ->
    StronglySorted Z.lt (map si_order l') ->
    sortByOrder l = l'.
Proof.
  induction l as [|x l IH]; intros l' P S'.
  - apply Permutation_nil in P. now subst l'.
  - assert (Hin : In x l') by (apply (Permutation_in _ P); now left).
    apply in_split in Hin as [u [v ->]].
    apply Permutation_cons_app_inv in P.
    rewrite map_app in S'. cbn [map] in S'.
    apply increasing_middle in S' as [S' [Fu Fv]].
    rewrite <- map_app in S'.
    cbn [sortByOrder]. rewrite (IH (u ++ v) P S').
    now apply insertByOrder_middle.
Qed.

Lemma findIndex_first {A : Type} (f : A -> bool) (l1 l2 : list A) (y : A) :
  (forall x, In x l1 -> f x = false) -> f y = true ->
  findIndex f (l1 ++ y :: l2) = Some (length l1).
Proof.
  intros H1 Hy. induction l1 as [|x l1 IH]; cbn [app findIndex length].
  - now rewrite Hy.
  - rewrite (H1 x (or_introl eq_refl)), IH; [reflexivity|].
    intros z Hz. apply H1. now right.
Qed.

Lemma findIndex_found {A : Type} (f : A -> bool) (l : list A) (x : A) :
  In x l -> f x = true -> exists i, findIndex f l = Some i.
Proof.
  intros Hin Hx. induction l as [|y l IH]; [destruct Hin|].
  cbn [findIndex]. destruct (f y) eqn:Fy; [eauto|].
  destruct Hin as [-> | Hin]; [congruence|].
  destruct (IH Hin) as [i ->]. cbn [option_map]. eauto.
Qed.

Lemma findIndex_spec {A : Type} (f : A -> bool) (l : list A) (i : nat) :
  findIndex f l = Some i -> i < length l.
Proof.
  revert i. induction l as [|y l IH]; intros i; cbn [findIndex length];
    [discriminate|].
  destruct (f y); [intros H; injection H as <-; lia|].
  destruct (findIndex f l) as [j|]; [|discriminate].
  cbn [option_map]. intros H. injection H as <-.
  specialize (IH j eq_refl). lia.
Qed.

(** Two neighbours of a list, by their indices. *)
Lemma nth_error_neighbours {A : Type} (l : list A) (i : nat) (a b : A) :
  nth_error l i = Some a -> nth_error l (S i) = Some b ->
  exists pre post, l = pre ++ a :: b :: post /\ length pre = i.
Proof.
  revert i. induction l as [|x l IH]; intros [|i] Ha Hb; try discriminate.
  - cbn in Ha, Hb. injection Ha as ->. destruct l as [|y l]; [discriminate|].
    cbn in Hb. injection Hb as ->. now exists [], l.
  - cbn [nth_error] in Ha, Hb. destruct (IH i Ha Hb) as [pre [post [-> L]]].
    exists (x :: pre), post. cbn [app length]. now rewrite L.
Qed.

Lemma nth_error_middle {A : Type} (l1 l2 : list A) (a : A) :
  nth_error (l1 ++ a :: l2) (length l1) = Some a.
Proof. induction l1 as [|x l1 IH]; [reflexivity | exact IH]. Qed.

Lemma sortByOrder_strict (l : list SlideItem) :
  NoDup (map si_order l) ->
  StronglySorted Z.lt (map si_order (sortByOrder l)).
Proof.
  assert (I : forall x l0,
             StronglySorted Z.lt (map si_order l0) ->
             ~ In (si_order x) (map si_order l0) ->
             StronglySorted Z.lt (map si_order (insertByOrder x l0))).
  { intros x l0. induction l0 as [|y l0 IH]; intros S0 N.
    - repeat constructor.
    - cbn [map] in S0, N. apply StronglySorted_inv in S0 as [S0 F].
      cbn [insertByOrder].
      destruct (si_order x <=? si_order y)%Z eqn:C.
      + apply Z.leb_le in C.
        assert (si_order x < si_order y)%Z
          by (assert (si_order y <> si_order x) by (intros H; apply N; now left);
              lia).
        cbn [map]. constructor; [now constructor|].
        constructor; [assumption|].
        eapply Forall_impl; [|exact F]. cbv beta. intros z Hz. lia.
      + apply Z.leb_gt in C. cbn [map]. constructor.
        * apply IH; [exact S0 | intros H; apply N; now right].
        * apply Forall_forall. intros z Hz.
          apply in_map_iff in Hz as [w [<- Hw]].
          apply (Permutation_in _ (insertByOrder_perm x l0)) in Hw.
          destruct Hw as [<- | Hw]; [exact C|].
          rewrite Forall_forall in F. apply F. now apply in_map. }
  induction l as [|x l IH]; intros N; [constructor|].
  cbn [map] in N. apply NoDup_cons_iff in N as [N1 N2].
  cbn [sortByOrder]. apply I; [now apply IH|].
  intros Hin. apply N1.
  apply in_map_iff in Hin as [w [E Hw]]. rewrite <- E.
  apply in_map. now apply (Permutation_in _ (sortByOrder_perm l)).
Qed.

(** The exchange, in either sequence of the two assignments, gives each of
    the two objects the order of the other and leaves the others alone. *)
Lemma swapOrders_exchanged (ea eb : Ref) (store : list Ref) :
  fst ea <> fst eb ->
  swapOrders eb ea store
  = map (exchanged (fst ea) (fst eb) (si_order (snd ea)) (si_order (snd eb)))
        store
  /\ swapOrders ea eb store
     = map (exchanged (fst ea) (fst eb) (si_order (snd ea))
                      (si_order (snd eb)))
           store.
Proof.
  intros D. unfold swapOrders, assignOrder, exchanged. rewrite !map_map.
  split; apply map_ext; intros [p x]; cbn [fst snd];
    destruct (p =? fst ea) eqn:Ea, (p =? fst eb) eqn:Eb; cbn [fst snd];
    rewrite ?Ea, ?Eb; try reflexivity;
    apply Nat.eqb_eq in Ea, Eb; congruence.
Qed.

Lemma exchanged_key (pa pb : nat) (oa ob : Z) (store : list Ref) :
  map itemKey (map snd (map (exchanged pa pb oa ob) store))
  = map itemKey (map snd store).
Proof.
  rewrite !map_map. apply map_ext. intros [p x]. unfold exchanged.
  cbn [fst snd]. destruct (p =? pa); [reflexivity|].
  destruct (p =? pb); reflexivity.
Qed.

(** The objects of a state are told apart by their positions, also in the
    sorted array. *)
Lemma sorted_positions_NoDup (slideOrder : list SlideItem) :
  NoDup (map fst (sortOn (fun e : Ref => si_order (snd e))
                         (objects slideOrder))).
Proof.
  apply (Permutation_NoDup (l := map fst (objects slideOrder))).
  - apply Permutation_map, Permutation_sym, sortOn_perm.
  - rewrite objects_fst. apply seq_NoDup.
Qed.

(** Exchanging the orders of two neighbours of the sorted array. *)
Lemma exchange_neighbours (slideOrder : list SlideItem)
      (preP postP : list Ref) (ea eb : Ref) :
  sortOn (fun e : Ref => si_order (snd e)) (objects slideOrder)
  = preP ++ ea :: eb :: postP ->
  fst ea <> fst eb
  /\ Permutation
       (map snd (map (exchanged (fst ea) (fst eb) (si_order (snd ea))
                                (si_order (snd eb)))
                     (objects slideOrder)))
       (map snd preP
        ++ withOrder (snd eb) (si_order (snd ea))
        :: withOrder (snd ea) (si_order (snd eb))
        :: map snd postP).
Proof.
  intros E.
  assert (N := sorted_positions_NoDup slideOrder). rewrite E in N.
  rewrite map_app in N. cbn [map] in N.
  assert (Na := NoDup_remove_2 _ _ _ N).
  change (map fst preP ++ fst ea :: fst eb :: map fst postP)
    with (map fst preP ++ [fst ea] ++ fst eb :: map fst postP) in N.
  rewrite app_assoc in N. assert (Nb := NoDup_remove_2 _ _ _ N).
  rewrite in_app_iff in Na. cbn [In] in Na.
  rewrite !in_app_iff in Nb. cbn [In] in Nb.
  assert (D : fst ea <> fst eb) by (intros H; apply Na; right; left; congruence).
  split; [exact D|].
  assert (K : forall l : list Ref,
             ~ In (fst ea) (map fst l) -> ~ In (fst eb) (map fst l) ->
             map (exchanged (fst ea) (fst eb) (si_order (snd ea))
                            (si_order (snd eb))) l = l).
  { intros l H1 H2. rewrite <- (map_id l) at 2. apply map_ext_in.
    intros e He. unfold exchanged.
    destruct (fst e =? fst ea) eqn:C1.
    - apply Nat.eqb_eq in C1. exfalso. apply H1. rewrite <- C1.
      now apply in_map.
    - destruct (fst e =? fst eb) eqn:C2; [|reflexivity].
      apply Nat.eqb_eq in C2. exfalso. apply H2. rewrite <- C2.
      now apply in_map. }
  etransitivity.
  { apply Permutation_map, Permutation_map, Permutation_sym, sortOn_perm. }
  rewrite E, map_app. cbn [map].
  rewrite (K preP), (K postP) by tauto.
  unfold exchanged at 1 2. rewrite Nat.eqb_refl.
  replace (fst eb =? fst ea) with false
    by (symmetry; apply Nat.eqb_neq; congruence).
  rewrite Nat.eqb_refl. cbn [fst snd]. rewrite map_app. cbn [map snd].
  apply Permutation_app_head. apply perm_swap.
Qed.

(** What a call of [handleReorderSlide] that exchanges two orders returns. *)
Lemma handleReorderSlide_cases (slideOrder : list SlideItem)
      (slideId : jsstring) (direction : Direction) :
  handleReorderSlide slideOrder slideId direction = slideOrder
  \/ exists preP postP ea eb,
      sortOn (fun e : Ref => si_order (snd e)) (objects slideOrder)
      = preP ++ ea :: eb :: postP
      /\ handleReorderSlide slideOrder slideId direction
         = map snd (map (exchanged (fst ea) (fst eb) (si_order (snd ea))
                                   (si_order (snd eb)))
                        (objects slideOrder)).
Proof.
  unfold handleReorderSlide.
  destruct (findIndex _ slideOrder) as [slideIndex|]; [|now left].
  set (SP := sortOn (fun e : Ref => si_order (snd e)) (objects slideOrder)).
  cbv zeta.
  destruct (findIndex _ SP) as [i|]; [|now left].
  destruct direction.
  - destruct (0 <? i) eqn:Pos; [|now left]. apply Nat.ltb_lt in Pos.
    destruct (nth_error SP i) as [cur|] eqn:Hc; [|now left].
    destruct (nth_error SP (i - 1)) as [prev|] eqn:Hp; [|now left].
    right. replace i with (S (i - 1)) in Hc by lia.
    destruct (nth_error_neighbours SP (i - 1) prev cur Hp Hc)
      as [preP [postP [E _]]].
    exists preP, postP, prev, cur. split; [exact E|].
    fold SP in E.
    destruct (exchange_neighbours slideOrder preP postP prev cur E) as [D _].
    now rewrite (proj1 (swapOrders_exchanged prev cur _ D)).
  - destruct (i <? length SP - 1) eqn:Lt; [|now left].
    destruct (nth_error SP i) as [cur|] eqn:Hc; [|now left].
    destruct (nth_error SP (i + 1)) as [next|] eqn:Hn; [|now left].
    right. rewrite Nat.add_1_r in Hn.
    destruct (nth_error_neighbours SP i cur next Hc Hn)
      as [preP [postP [E _]]].
    exists preP, postP, cur, next. split; [exact E|].
    fold SP in E.
    destruct (exchange_neighbours slideOrder preP postP cur next E) as [D _].
    now rewrite (proj2 (swapOrders_exchanged cur next _ D)).
Qed.

Lemma handleReorderSlide_keys (slideOrder : list SlideItem)
      (slideId : jsstring) (direction : Direction) :
  map itemKey (handleReorderSlide slideOrder slideId direction)
  = map itemKey slideOrder.
Proof.
  destruct (handleReorderSlide_cases slideOrder slideId direction)
    as [-> | (preP & postP & ea & eb & _ & ->)]; [reflexivity|].
  now rewrite exchanged_key, objects_snd.
Qed.

Lemma handleReorderSlide_orders (slideOrder : list SlideItem)
      (slideId : jsstring) (direction : Direction) :
  Permutation (map si_order (handleReorderSlide slideOrder slideId direction))
              (map si_order slideOrder).
Proof.
  destruct (handleReorderSlide_cases slideOrder slideId direction)
    as [-> | (preP & postP & ea & eb & E & ->)]; [reflexivity|].
  destruct (exchange_neighbours slideOrder preP postP ea eb E) as [_ P].
  assert (Q := Permutation_map snd
                 (sortOn_perm (fun e : Ref => si_order (snd e))
                              (objects slideOrder))).
  rewrite objects_snd, E in Q.
  apply (Permutation_trans (Permutation_map si_order P)).
  apply (fun H => Permutation_trans H (Permutation_map si_order Q)).
  rewrite !map_app. cbn [map withOrder si_order]. reflexivity.
Qed.

Lemma jsstring_eqb_neq (s t : jsstring) : s <> t -> jsstring_eqb s t = false.
Proof.
  intros D. destruct (jsstring_eqb s t) eqn:E; [|reflexivity].
  apply jsstring_eqb_eq in E. contradiction.
Qed.

Lemma sorted_objects (slideOrder : list SlideItem) :
  map snd (sortOn (fun e : Ref => si_order (snd e)) (objects slideOrder))
  = sortByOrder slideOrder.
Proof. now rewrite sortOn_snd, objects_snd. Qed.

(** Two neighbours of the sorted view are two neighbours of the sorted array
    of objects. *)
Lemma sorted_objects_split (slideOrder pre post : list SlideItem)
      (a b : SlideItem) :
  sortByOrder slideOrder = pre ++ a :: b :: post ->
  exists preP postP ea eb,
    sortOn (fun e : Ref => si_order (snd e)) (objects slideOrder)
    = preP ++ ea :: eb :: postP
    /\ map snd preP = pre /\ snd ea = a /\ snd eb = b /\ map snd postP = post.
Proof.
  rewrite <- sorted_objects. intros E.
  apply map_eq_app in E as (preP & rest & E & Hpre & Hrest).
  apply map_eq_cons in Hrest as (ea & rest' & -> & Ha & Hrest).
  apply map_eq_cons in Hrest as (eb & postP & -> & Hb & Hpost).
  now exists preP, postP, ea, eb.
Qed.

(** The sorted view after the exchange of two neighbours. *)
Lemma exchange_sorted (slideOrder : list SlideItem)
      (preP postP : list Ref) (ea eb : Ref) :
  sortOn (fun e : Ref => si_order (snd e)) (objects slideOrder)
  = preP ++ ea :: eb :: postP ->
  NoDup (map si_order slideOrder) ->
  sortByOrder
    (map snd (map (exchanged (fst ea) (fst eb) (si_order (snd ea))
                             (si_order (snd eb)))
                  (objects slideOrder)))
  = map snd preP
    ++ withOrder (snd eb) (si_order (snd ea))
    :: withOrder (snd ea) (si_order (snd eb))
    :: map snd postP.
Proof.
  intros E N. apply sortByOrder_increasing.
  - apply (exchange_neighbours slideOrder preP postP ea eb E).
  - assert (S0 := sortByOrder_strict slideOrder N).
    rewrite <- sorted_objects, E in S0.
    rewrite !map_app in S0. rewrite !map_app.
    cbn [map withOrder si_order] in S0 |- *. exact S0.
Qed.

Lemma move_up_call (slideOrder pre post : list SlideItem) (a b : SlideItem) :
  sortByOrder slideOrder = pre ++ a :: b :: post ->
  (forall x, In x pre -> si_id x <> si_id b) ->
  si_id a <> si_id b ->
  exists preP postP ea eb,
    sortOn (fun e : Ref => si_order (snd e)) (objects slideOrder)
    = preP ++ ea :: eb :: postP
    /\ map snd preP = pre /\ snd ea = a /\ snd eb = b /\ map snd postP = post
    /\ handleReorderSlide slideOrder (si_id b) dir_up
       = map snd (map (exchanged (fst ea) (fst eb) (si_order (snd ea))
                                 (si_order (snd eb)))
                      (objects slideOrder)).
Proof.
  intros E Hpre Hab.
  destruct (sorted_objects_split slideOrder pre post a b E)
    as (preP & postP & ea & eb & EP & Hp & Ha & Hb & Hq).
  exists preP, postP, ea, eb. repeat (split; [assumption|]).
  assert (Hin : In b slideOrder).
  { apply (Permutation_in _ (sortByOrder_perm slideOrder)). rewrite E.
    apply in_or_app. right. right. now left. }
  destruct (findIndex_found
              (fun item => jsstring_eqb (si_id item) (si_id b)) slideOrder b
              Hin (proj2 (jsstring_eqb_eq _ _) eq_refl)) as [slideIndex F].
  destruct (exchange_neighbours slideOrder preP postP ea eb EP) as [D _].
  unfold handleReorderSlide. rewrite F. cbv zeta. rewrite EP.
  change (preP ++ ea :: eb :: postP) with (preP ++ [ea] ++ eb :: postP).
  rewrite app_assoc.
  rewrite (findIndex_first
             (fun e : Ref => jsstring_eqb (si_id (snd e)) (si_id b))
             (preP ++ [ea]) postP eb).
  - rewrite nth_error_middle.
    replace (0 <? length (preP ++ [ea])) with true
      by (symmetry; apply Nat.ltb_lt; rewrite length_app; cbn [length]; lia).
    replace (length (preP ++ [ea]) - 1) with (length preP)
      by (rewrite length_app; cbn [length]; lia).
    rewrite <- app_assoc. cbn [app]. rewrite nth_error_middle.
    now rewrite (proj1 (swapOrders_exchanged ea eb _ D)).
  - intros e He. apply jsstring_eqb_neq. apply in_app_or in He as [He | He].
    + apply Hpre. rewrite <- Hp. now apply in_map.
    + destruct He as [<- | []]. now rewrite Ha, <- Hb in *.
  - rewrite Hb. now apply jsstring_eqb_eq.
Qed.

Lemma move_down_call (slideOrder pre post : list SlideItem)
      (a b : SlideItem) :
  sortByOrder slideOrder = pre ++ a :: b :: post ->
  (forall x, In x pre -> si_id x <> si_id a) ->
  exists preP postP ea eb,
    sortOn (fun e : Ref => si_order (snd e)) (objects slideOrder)
    = preP ++ ea :: eb :: postP
    /\ map snd preP = pre /\ snd ea = a /\ snd eb = b /\ map snd postP = post
    /\ handleReorderSlide slideOrder (si_id a) dir_down
       = map snd (map (exchanged (fst ea) (fst eb) (si_order (snd ea))
                                 (si_order (snd eb)))
                      (objects slideOrder)).
Proof.
  intros E Hpre.
  destruct (sorted_objects_split slideOrder pre post a b E)
    as (preP & postP & ea & eb & EP & Hp & Ha & Hb & Hq).
  exists preP, postP, ea, eb. repeat (split; [assumption|]).
  assert (Hin : In a slideOrder).
  { apply (Permutation_in _ (sortByOrder_perm slideOrder)). rewrite E.
    apply in_or_app. right. now left. }
  destruct (findIndex_found
              (fun item => jsstring_eqb (si_id item) (si_id a)) slideOrder a
              Hin (proj2 (jsstring_eqb_eq _ _) eq_refl)) as [slideIndex F].
  destruct (exchange_neighbours slideOrder preP postP ea eb EP) as [D _].
  unfold handleReorderSlide. rewrite F. cbv zeta. rewrite EP.
  rewrite (findIndex_first
             (fun e : Ref => jsstring_eqb (si_id (snd e)) (si_id a))
             preP (eb :: postP) ea).
  - rewrite nth_error_middle.
    replace (length preP <? length (preP ++ ea :: eb :: postP) - 1) with true
      by (symmetry; apply Nat.ltb_lt; rewrite length_app; cbn [length]; lia).
    change (preP ++ ea :: eb :: postP) with (preP ++ [ea] ++ eb :: postP).
    rewrite app_assoc.
    replace (length preP + 1) with (length (preP ++ [ea]))
      by (rewrite length_app; cbn [length]; lia).
    rewrite nth_error_middle.
    now rewrite (proj2 (swapOrders_exchanged ea eb _ D)).
  - intros e He. apply jsstring_eqb_neq.
    apply Hpre. rewrite <- Hp. now apply in_map.
  - rewrite Ha. now apply jsstring_eqb_eq.
Qed.

(** X19. Moving a slide changes neither the sequence of the array nor the
    identifiers and types of its items, and the orders after the call are
    the orders before it, redistributed. *)
Theorem move_keeps_items (slideOrder : list SlideItem) (slideId : jsstring)
        (direction : Direction) :
  map itemKey (handleReorderSlide slideOrder slideId direction)
  = map itemKey slideOrder
  /\ Permutation
       (map si_order (handleReorderSlide slideOrder slideId direction))
       (map si_order slideOrder).
Proof.
  split; [apply handleReorderSlide_keys | apply handleReorderSlide_orders].
Qed.

(** X20. When the orders of the state are pairwise different and [b] is the
    first item of the sorted view with its identifier, moving [b] up
    exchanges it with the item [a] before it in the sorted view: [b] takes
    the order of [a], [a] the order of [b], the others stay. *)
Theorem move_up_exchanges (slideOrder pre post : list SlideItem)
        (a b : SlideItem) :
  sortByOrder slideOrder = pre ++ a :: b :: post ->
  NoDup (map si_order slideOrder) ->
  (forall x, In x pre -> si_id x <> si_id b) ->
  si_id a <> si_id b ->
  sortByOrder (handleReorderSlide slideOrder (si_id b) dir_up)
  = pre ++ withOrder b (si_order a) :: withOrder a (si_order b) :: post.
Proof.
  intros E N Hpre Hab.
  destruct (move_up_call slideOrder pre post a b E Hpre Hab)
    as (preP & postP & ea & eb & EP & <- & <- & <- & <- & ->).
  now apply exchange_sorted.
Qed.

Lemma move_up_exchanges_witness :
  sortByOrder (handleReorderSlide
                 [mkSlideItem (lit "r1") reading_item 0;
                  mkSlideItem (lit "s1") song_item 1]
                 (lit "s1") dir_up)
  = [mkSlideItem (lit "s1") song_item 0;
     mkSlideItem (lit "r1") reading_item 1].
Proof.
  apply (move_up_exchanges
           [mkSlideItem (lit "r1") reading_item 0;
            mkSlideItem (lit "s1") song_item 1]
           [] []
           (mkSlideItem (lit "r1") reading_item 0)
           (mkSlideItem (lit "s1") song_item 1)).
  - reflexivity.
  - constructor; [intros [H | []]; discriminate|].
    constructor; [intros []|]. constructor.
  - intros x [].
  - intros H. vm_compute in H. discriminate.
Defined.

(** X21. When the orders of the state are pairwise different and [a] is the
    first item of the sorted view with its identifier, moving [a] down
    exchanges it with the item [b] after it in the sorted view. *)
Theorem move_down_exchanges (slideOrder pre post : list SlideItem)
        (a b : SlideItem) :
  sortByOrder slideOrder = pre ++ a :: b :: post ->
  NoDup (map si_order slideOrder) ->
  (forall x, In x pre -> si_id x <> si_id a) ->
  sortByOrder (handleReorderSlide slideOrder (si_id a) dir_down)
  = pre ++ withOrder b (si_order a) :: withOrder a (si_order b) :: post.
Proof.
  intros E N Hpre.
  destruct (move_down_call slideOrder pre post a b E Hpre)
    as (preP & postP & ea & eb & EP & <- & <- & <- & <- & ->).
  now apply exchange_sorted.
Qed.

Lemma move_down_exchanges_witness :
  sortByOrder (handleReorderSlide
                 [mkSlideItem (lit "r1") reading_item 0;
                  mkSlideItem (lit "s1") song_item 1]
                 (lit "r1") dir_down)
  = [mkSlideItem (lit "s1") song_item 0;
     mkSlideItem (lit "r1") reading_item 1].
Proof.
  apply (move_down_exchanges
           [mkSlideItem (lit "r1") reading_item 0;
            mkSlideItem (lit "s1") song_item 1]
           [] []
           (mkSlideItem (lit "r1") reading_item 0)
           (mkSlideItem (lit "s1") song_item 1)).
  - reflexivity.
  - constructor; [intros [H | []]; discriminate|].
    constructor; [intros []|]. constructor.
  - intros x [].
Defined.

(** X22. The effect of [App] that recomputes the slide order gives the same
    result after a move as before it: it numbers the items in the sequence of
    the array, which a move does not change. *)
Theorem move_not_seen_by_effect (readings : list LiturgyReading)
        (songs : list SongEntry) (slideOrder : list SlideItem)
        (slideId : jsstring) (direction : Direction) :
  updateSlideOrder readings songs
                   (handleReorderSlide slideOrder slideId direction)
  = updateSlideOrder readings songs slideOrder.
Proof.
  apply updateSlideOrder_by_keys, handleReorderSlide_keys.
Qed.
